(** * EcoSphere: the simulation update engine of [Main.cpp]

    A shallow embedding of the plant/soil update engine ([overlapAreaXZ],
    [Plant::getOccupiedSoilIndices], [Plant::overlapFractionWithCell],
    [Plant::calculateLight], [Plant::grow], the start-up loops and the
    frame loop of [main], and the cell coordinates of its soil log).

    Number model.  The C++ [float] is embedded as an exact rational [Q]:
    every arithmetic operator is the corresponding operator of [Q], every
    comparison is decided on the rationals, and a literal such as [0.01f] is
    the rational [1/100].  Rounding, infinities and NaN are outside the model;
    the one place where the statements below depend on rounding, the size
    update of [grow], is given a second time on binary32 numbers.
    The C++ [int] is embedded as [Z]; signed overflow and out-of-range
    float-to-int conversions are undefined in C++ and are not given a
    meaning here.  [std::vector] is a [list], [std::map] is a [gmap]. *)

From Stdlib Require Import ZArith QArith Qround Lqa Lia List.
From Stdlib Require Floats.SpecFloat.
From stdpp Require Import base list gmap.

Local Open Scope Q_scope.

(** ** Scalars *)

(** [a < b] on floats, as a boolean. *)
Definition Qltb (a b : Q) : bool := negb (Qle_bool b a).

(** [std::max(a, b)] is [(a < b) ? b : a]. *)
Definition std_max (a b : Q) : Q := if Qltb a b then b else a.

(** [std::min(a, b)] is [(b < a) ? b : a]. *)
Definition std_min (a b : Q) : Q := if Qltb b a then b else a.

(** [clampf(v, a, b) = std::max(a, std::min(v, b))]. *)
Definition clampf (v a b : Q) : Q := std_max a (std_min v b).

(** [safeFloorToInt(v) = (int)std::floor(v)]. *)
Definition safeFloorToInt (v : Q) : Z := Qfloor v.

(** Conversion of a float to an integer type truncates toward zero. *)
Definition truncZ (v : Q) : Z := if Qltb v 0 then Qceiling v else Qfloor v.

(** [(unsigned char) v]: truncation, kept in the eight low bits.  (C++ leaves
    the conversion undefined when the truncated value is not in [0, 255].) *)
Definition to_uchar (v : Q) : Z := (truncZ v mod 256)%Z.

(** ** Overlap geometry *)

Definition overlapAreaXZ (ax az ah bx bz bh : Q) : Q :=
  let aMinX := ax - ah in let aMaxX := ax + ah in
  let aMinZ := az - ah in let aMaxZ := az + ah in
  let bMinX := bx - bh in let bMaxX := bx + bh in
  let bMinZ := bz - bh in let bMaxZ := bz + bh in
  let ix := std_max 0 (std_min aMaxX bMaxX - std_max aMinX bMinX) in
  let iz := std_max 0 (std_min aMaxZ bMaxZ - std_max aMinZ bMinZ) in
  ix * iz.

(** ** Data model *)

Record Vector2 := mkVector2 { v2x : Q; v2y : Q }.
Record Vector3 := mkVector3 { v3x : Q; v3y : Q; v3z : Q }.
Record Color := mkColor { cr : Z; cg : Z; cb : Z; ca : Z }.

(** [SoilCell]: [cell_position] holds the grid coordinates (X, Z). *)
Record SoilCell := mkSoilCell {
  cell_position : Vector2;
  water : Q;
  nitrogen : Q;
  phosphorus : Q;
  potassium : Q
}.

Record Plant := mkPlant {
  id : Z;
  position : Vector3;
  size : Q;
  color : Color;
  growthRate : Q;
  health : Q;
  age : Q;
  maxAge : Q;
  alive : bool;
  photosyntheticEfficiency : Q;
  baseMaintenance : Q;
  maintenancePerSize : Q;
  adsorptionEfficiency : Q;
  lastNutrientIntake : Q;
  lastAreaOccupied : Q
}.

Definition liveColor : Color := mkColor 50 150 50 255.

(** The constructor [Plant(_id, pos, s, rate)]; [rnd] is the value of
    [rand() % 100] drawn for [maxAge]. *)
Definition newPlant (_id : Z) (pos : Vector3) (s rate : Q) (rnd : Z) : Plant :=
  {| id := _id; position := pos; size := s; color := liveColor;
     growthRate := rate; health := 1; age := 0;
     maxAge := 200 + inject_Z rnd; alive := true;
     photosyntheticEfficiency := 1; baseMaintenance := 1 # 5;
     maintenancePerSize := 1 # 100; adsorptionEfficiency := 9 # 10;
     lastNutrientIntake := 0; lastAreaOccupied := 0 |}.

(** Field assignments on a plant. *)
Definition set_size (v : Q) (p : Plant) : Plant :=
  mkPlant (id p) (position p) v (color p) (growthRate p) (health p) (age p)
    (maxAge p) (alive p) (photosyntheticEfficiency p) (baseMaintenance p)
    (maintenancePerSize p) (adsorptionEfficiency p) (lastNutrientIntake p)
    (lastAreaOccupied p).
Definition set_health (v : Q) (p : Plant) : Plant :=
  mkPlant (id p) (position p) (size p) (color p) (growthRate p) v (age p)
    (maxAge p) (alive p) (photosyntheticEfficiency p) (baseMaintenance p)
    (maintenancePerSize p) (adsorptionEfficiency p) (lastNutrientIntake p)
    (lastAreaOccupied p).
Definition set_age (v : Q) (p : Plant) : Plant :=
  mkPlant (id p) (position p) (size p) (color p) (growthRate p) (health p) v
    (maxAge p) (alive p) (photosyntheticEfficiency p) (baseMaintenance p)
    (maintenancePerSize p) (adsorptionEfficiency p) (lastNutrientIntake p)
    (lastAreaOccupied p).
Definition set_position_y (v : Q) (p : Plant) : Plant :=
  mkPlant (id p) (mkVector3 (v3x (position p)) v (v3z (position p))) (size p)
    (color p) (growthRate p) (health p) (age p)
    (maxAge p) (alive p) (photosyntheticEfficiency p) (baseMaintenance p)
    (maintenancePerSize p) (adsorptionEfficiency p) (lastNutrientIntake p)
    (lastAreaOccupied p).
Definition set_color (v : Color) (p : Plant) : Plant :=
  mkPlant (id p) (position p) (size p) v (growthRate p) (health p) (age p)
    (maxAge p) (alive p) (photosyntheticEfficiency p) (baseMaintenance p)
    (maintenancePerSize p) (adsorptionEfficiency p) (lastNutrientIntake p)
    (lastAreaOccupied p).
Definition set_alive (v : bool) (p : Plant) : Plant :=
  mkPlant (id p) (position p) (size p) (color p) (growthRate p) (health p)
    (age p) (maxAge p) v (photosyntheticEfficiency p) (baseMaintenance p)
    (maintenancePerSize p) (adsorptionEfficiency p) (lastNutrientIntake p)
    (lastAreaOccupied p).
Definition set_stats (intake area : Q) (p : Plant) : Plant :=
  mkPlant (id p) (position p) (size p) (color p) (growthRate p) (health p)
    (age p) (maxAge p) (alive p) (photosyntheticEfficiency p)
    (baseMaintenance p) (maintenancePerSize p) (adsorptionEfficiency p)
    intake area.

(** Assignment of the four resource scalars of a cell. *)
Definition set_resources (w n ph k : Q) (c : SoilCell) : SoilCell :=
  mkSoilCell (cell_position c) w n ph k.

(** ** Footprint queries *)

(** The integers [lo, lo+1, ..., hi] visited by [for (i = lo; i <= hi; ++i)]. *)
Definition loopRange (lo hi : Z) : list Z := seqZ lo (hi - lo + 1).

Definition getOccupiedSoilIndices (p : Plant) (gridSize : Z) (cellSize : Q)
  : list Z :=
  let halfGrid := inject_Z gridSize * (1 # 2) in
  let minX := safeFloorToInt ((v3x (position p) - size p * (1 # 2) + halfGrid) / cellSize) in
  let maxX := safeFloorToInt ((v3x (position p) + size p * (1 # 2) + halfGrid) / cellSize) in
  let minZ := safeFloorToInt ((v3z (position p) - size p * (1 # 2) + halfGrid) / cellSize) in
  let maxZ := safeFloorToInt ((v3z (position p) + size p * (1 # 2) + halfGrid) / cellSize) in
  x ← loopRange minX maxX;
  z ← loopRange minZ maxZ;
  if bool_decide (0 ≤ x ∧ x < gridSize ∧ 0 ≤ z ∧ z < gridSize)%Z
  then [(z * gridSize + x)%Z] else [].

Definition overlapFractionWithCell (p : Plant) (cell : SoilCell)
    (gridSize : Z) (cellSize : Q) : Q :=
  let halfGrid := inject_Z gridSize * (1 # 2) in
  let cx := v2x (cell_position cell) - halfGrid + cellSize * (1 # 2) in
  let cz := v2y (cell_position cell) - halfGrid + cellSize * (1 # 2) in
  let plantHalf := size p * (1 # 2) in
  let cellHalf := cellSize * (1 # 2) in
  let overlap :=
    overlapAreaXZ (v3x (position p)) (v3z (position p)) plantHalf cx cz cellHalf in
  let cellArea := cellSize * cellSize in
  clampf (overlap / cellArea) 0 1.

Definition topY (p : Plant) : Q := v3y (position p) + size p * (1 # 2).

(** ** Light model *)

(** One iteration of the loop of [calculateLight]; [continue] leaves [light]
    as it is. *)
Definition lightStep (p : Plant) (light : Q) (other : Plant) : Q :=
  if bool_decide (id other = id p) then light
  else
    let overlap :=
      overlapAreaXZ (v3x (position p)) (v3z (position p)) (size p * (1 # 2))
        (v3x (position other)) (v3z (position other)) (size other * (1 # 2)) in
    if Qle_bool overlap 0 then light
    else
      let overlapFrac := overlap / (size p * size p) in
      if Qltb (topY p) (topY other)
      then light * (1 - overlapFrac * (1 # 2))
      else light.

Definition calculateLight (p : Plant) (allPlants : list Plant) : Q :=
  clampf (fold_left (lightStep p) allPlants 1) 0 1.

(** ** Growth engine *)

(** The state shared by all [grow] calls of a frame: the soil grid and the
    two usage accumulators [nutrientUsed] (plant id, cell index, amount) and
    [cellUsage] (cell index, list of (plant id, overlap, amount)). *)
Record Env := mkEnv {
  soil : list SoilCell;
  nutrientUsed : gmap Z (gmap Z Q);
  cellUsage : gmap Z (list (Z * Q * Q))
}.

Definition defaultCell : SoilCell := mkSoilCell (mkVector2 0 0) 0 0 0 0.

(** [soil[idx]], read and written.  An index outside the vector is undefined
    in C++; [getOccupiedSoilIndices] only yields indices in
    [0, gridSize * gridSize) (lemma [occupied_index_range] below), the
    length [main] gives the grid. *)
Definition soilAt (s : list SoilCell) (idx : Z) : SoilCell :=
  default defaultCell (s !! Z.to_nat idx).
Definition soilSet (s : list SoilCell) (idx : Z) (c : SoilCell) : list SoilCell :=
  <[Z.to_nat idx := c]> s.

(** The locals filled by the first loop of [grow]. *)
Record Scan := mkScan {
  overlaps : list (Z * Q);
  totalOverlap : Q;
  nutrientSum : Q;
  waterSum : Q
}.

Definition scan0 : Scan := mkScan [] 0 0 0.

Definition scanStep (p : Plant) (s : list SoilCell) (gridSize : Z)
    (cellSize : Q) (acc : Scan) (idx : Z) : Scan :=
  let frac := overlapFractionWithCell p (soilAt s idx) gridSize cellSize in
  if Qltb 0 frac then
    let avgNPK := (nitrogen (soilAt s idx) + phosphorus (soilAt s idx)
                   + potassium (soilAt s idx)) / 3 in
    mkScan (overlaps acc ++ [(idx, frac)])
           (totalOverlap acc + frac)
           (nutrientSum acc + avgNPK * frac)
           (waterSum acc + water (soilAt s idx) * frac)
  else acc.

Definition scanCells (p : Plant) (s : list SoilCell) (gridSize : Z)
    (cellSize : Q) : Scan :=
  fold_left (scanStep p s gridSize cellSize)
            (getOccupiedSoilIndices p gridSize cellSize) scan0.

(** What the depletion loop of [grow] updates: the shared state and the two
    per-frame statistics of the plant. *)
Record Uptake := mkUptake {
  u_env : Env;
  u_intake : Q;
  u_area : Q
}.

(** [nutrientUsed[id][idx] += amount]; [operator[]] creates missing entries
    with value zero. *)
Definition addNutrientUsed (pid idx : Z) (amount : Q)
    (m : gmap Z (gmap Z Q)) : gmap Z (gmap Z Q) :=
  let inner := default ∅ (m !! pid) in
  <[pid := <[idx := default 0 (inner !! idx) + amount]> inner]> m.

(** [cellUsage[idx].push_back({id, frac, amount})]. *)
Definition addCellUsage (idx pid : Z) (frac amount : Q)
    (m : gmap Z (list (Z * Q * Q))) : gmap Z (list (Z * Q * Q)) :=
  <[idx := default [] (m !! idx) ++ [(pid, frac, amount)]]> m.

Definition amountTakenOf (demand total eff frac : Q) : Q :=
  let takeFrac := frac / total in
  demand * takeFrac * eff.

Definition depleteCell (amountTaken : Q) (c : SoilCell) : SoilCell :=
  set_resources (std_max 0 (water c - amountTaken * (1 # 1000)))
                (std_max 0 (nitrogen c - amountTaken * (1 # 1000)))
                (std_max 0 (phosphorus c - amountTaken * (1 # 1000)))
                (std_max 0 (potassium c - amountTaken * (1 # 1000))) c.

Definition depleteStep (pid : Z) (demand total eff : Q) (st : Uptake)
    (pr : Z * Q) : Uptake :=
  let idx := pr.1 in
  let frac := pr.2 in
  let amountTaken := amountTakenOf demand total eff frac in
  let e := u_env st in
  mkUptake
    (mkEnv (soilSet (soil e) idx (depleteCell amountTaken (soilAt (soil e) idx)))
           (addNutrientUsed pid idx amountTaken (nutrientUsed e))
           (addCellUsage idx pid frac amountTaken (cellUsage e)))
    (u_intake st + amountTaken)
    (u_area st + frac).

(** The senescent colour of an ageing plant. *)
Definition ageColor (agePerc : Q) : Color :=
  if Qltb agePerc (3 # 5) then liveColor
  else mkColor 200 200 80
         (to_uchar (255 * (1 - (agePerc - (3 # 5)) / (2 # 5)))).

(** The energy budget of [grow], from the locals of the first loop. *)
Definition production (p : Plant) (sc : Scan) (lightFactor : Q) : Q :=
  let nutrientFactor := nutrientSum sc / totalOverlap sc in
  let waterFactor := waterSum sc / totalOverlap sc in
  lightFactor * nutrientFactor * waterFactor
  * photosyntheticEfficiency p * growthRate p.

Definition maintenance (p : Plant) : Q :=
  let agePerc := age p / maxAge p in
  baseMaintenance p + maintenancePerSize p * size p + agePerc * (1 # 5).

Definition netEnergy (p : Plant) (sc : Scan) (lightFactor : Q) : Q :=
  production p sc lightFactor - maintenance p.

Definition delta (p : Plant) (sc : Scan) (lightFactor : Q) : Q :=
  growthRate p * (1 # 100)
  * (if Qltb 0 (netEnergy p sc lightFactor) then 1 else 1 # 5).

Definition demand (p : Plant) (sc : Scan) (lightFactor : Q) : Q :=
  std_max 0 (delta p sc lightFactor * (1 # 2)).

(** [Plant::grow]: the updated plant and the updated shared state.  The
    budget is computed from the plant as it enters the call ([p0] below:
    only the two statistics have been reset), before [size], [health] and
    [age] are assigned. *)
Definition grow (p : Plant) (e : Env) (gridSize : Z)
    (cellSize lightFactor HEIGHT_SCALE : Q) : Plant * Env :=
  if negb (alive p) then (p, e)
  else
    let p0 := set_stats 0 0 p in
    let sc := scanCells p0 (soil e) gridSize cellSize in
    if Qeq_bool (totalOverlap sc) 0 then (set_age (age p0 + (1 # 100)) p0, e)
    else
      let agePerc := age p0 / maxAge p0 in
      let p := set_size (size p0 + delta p0 sc lightFactor) p0 in
      let p := set_size (std_max (1 # 5) (size p)) p in
      let u := fold_left
                 (depleteStep (id p) (demand p0 sc lightFactor)
                              (totalOverlap sc) (adsorptionEfficiency p))
                 (overlaps sc)
                 (mkUptake e (lastNutrientIntake p) (lastAreaOccupied p)) in
      let p := set_stats (u_intake u) (u_area u) p in
      let p := set_health (health p + netEnergy p0 sc lightFactor * (1 # 1000)
                           - (1 # 2000)) p in
      let p := set_health (clampf (health p) 0 1) p in
      let p := set_age (age p + (1 # 100)) p in
      let p := set_position_y (size p * HEIGHT_SCALE / 2 + (1 # 10)) p in
      let p := set_color (ageColor agePerc) p in
      let p := set_alive (Qltb 0 (health p) && Qltb (age p) (maxAge p)) p in
      (p, u_env u).

(** ** The frame loop of [main] *)

Definition GRID_SIZE : Z := 40.
Definition CELL_SIZE : Q := 1.
Definition NUM_PLANTS : Z := 40.
Definition HEIGHT_SCALE : Q := 3.

(** [lightFactors[i] = plants[i].calculateLight(plants)] for every [i]. *)
Definition lightFactors (plants : list Plant) : list Q :=
  map (fun p => calculateLight p plants) plants.

(** [plants[i].grow(soil, GRID_SIZE, CELL_SIZE, lf, nutrientUsed, cellUsage,
    HEIGHT_SCALE)] on the current plants and shared state. *)
Definition growAt (i : nat) (lf : Q) (st : list Plant * Env)
  : list Plant * Env :=
  match st.1 !! i with
  | Some p =>
      let r := grow p st.2 GRID_SIZE CELL_SIZE lf HEIGHT_SCALE in
      (<[i := r.1]> st.1, r.2)
  | None => st
  end.

(** The second loop of the frame, over the indices in [order], reading the
    light factors from the vector [lfs] filled beforehand. *)
Definition growInOrder (order : list nat) (lfs : list Q)
    (st : list Plant * Env) : list Plant * Env :=
  fold_left (fun st i => growAt i (nth i lfs 0) st) order st.

(** One frame with the growth loop taken in a given order: light factors
    first, fresh accumulators, then the growth updates. *)
Definition frameInOrder (order : list nat) (plants : list Plant)
    (s : list SoilCell) : list Plant * Env :=
  let lfs := lightFactors plants in
  growInOrder order lfs (plants, mkEnv s ∅ ∅).

(** One frame of [main]: the growth loop runs [i = 0 .. plants.size() - 1]. *)
Definition frame (plants : list Plant) (s : list SoilCell)
  : list Plant * Env :=
  frameInOrder (seq 0 (length plants)) plants s.

(** [n] frames; the soil is carried over, the accumulators are not. *)
Fixpoint simulate (n : nat) (plants : list Plant) (s : list SoilCell)
  : list Plant * list SoilCell :=
  match n with
  | O => (plants, s)
  | S k => let r := frame plants s in simulate k r.1 (soil r.2)
  end.

(** The soil grid built by [main]: cell [z * gridSize + x] sits at [(x, z)];
    [res idx] gives the four random resource levels of the cell. *)
Definition mkSoil (gridSize : Z) (res : Z -> Q * Q * Q * Q) : list SoilCell :=
  z ← seqZ 0 gridSize;
  x ← seqZ 0 gridSize;
  let r := res (z * gridSize + x)%Z in
  [mkSoilCell (mkVector2 (inject_Z x) (inject_Z z)) r.1.1.1 r.1.1.2 r.1.2 r.2].

(** ** Predicates used in the statements *)

Global Instance Qle_decision (a b : Q) : Decision (a <= b) :=
  match Qlt_le_dec b a with
  | left H => right (Qlt_not_le _ _ H)
  | right H => left H
  end.

Global Instance Qlt_decision (a b : Q) : Decision (a < b) :=
  match Qlt_le_dec a b with
  | left H => left H
  | right H => right (Qle_not_lt _ _ H)
  end.

(** The four resource scalars of a cell are non-negative. *)
Definition cell_nonneg (c : SoilCell) : Prop :=
  0 <= water c /\ 0 <= nitrogen c /\ 0 <= phosphorus c /\ 0 <= potassium c.

Definition soil_nonneg (s : list SoilCell) : Prop := Forall cell_nonneg s.

Global Instance cell_nonneg_decision (c : SoilCell) : Decision (cell_nonneg c).
Proof. unfold cell_nonneg. apply _. Defined.

Global Instance soil_nonneg_decision (s : list SoilCell) :
  Decision (soil_nonneg s).
Proof. unfold soil_nonneg. apply _. Defined.

(** ** Sample inputs *)

(** A grid as [main] builds it, every resource at [3/4]. *)
Definition sampleSoil : list SoilCell :=
  mkSoil GRID_SIZE (fun _ => (3 # 4, 3 # 4, 3 # 4, 3 # 4)).

(** A plant as [main] creates it, centred on the corner of cells 0, 1, 40
    and 41 of the grid. *)
Definition samplePlant : Plant :=
  newPlant 0 (mkVector3 (-19) (1 # 2) (-19)) 1 (1 # 100) 50.

(** Sums and products of a list of scalars. *)
Definition Qsum (l : list Q) : Q := fold_right Qplus 0 l.
Definition Qprod (l : list Q) : Q := fold_right Qmult 1 l.

(** A plant as the constructor builds it, far outside the 40 x 40 grid. *)
Definition strayPlant : Plant :=
  newPlant 7 (mkVector3 100 (1 # 2) 100) 1 (1 # 100) 0.

(** The locals of the first loop: [totalOverlap] is the sum of the recorded
    fractions, each of which is positive. *)
Definition scan_ok (sc : Scan) : Prop :=
  totalOverlap sc == Qsum (map snd (overlaps sc)) /\
  Forall (fun pr : Z * Q => 0 < pr.2) (overlaps sc).

(** The predicate the [alive] flag stands for: [health > 0 && age < maxAge]. *)
Definition aliveSpec (p : Plant) : bool :=
  Qltb 0 (health p) && Qltb (age p) (maxAge p).

(** The take-fractions of the depletion loop, one per overlapping cell, and
    the amounts taken from these cells. *)
Definition takeFractions (sc : Scan) : list Q :=
  map (fun pr : Z * Q => pr.2 / totalOverlap sc) (overlaps sc).

Definition amountsTaken (p : Plant) (sc : Scan) (lightFactor : Q) : list Q :=
  map (fun pr : Z * Q =>
         amountTakenOf (demand p sc lightFactor) (totalOverlap sc)
                       (adsorptionEfficiency p) pr.2)
      (overlaps sc).

(** ** The shading factor in the words of the specification *)

(** Overlap area of the footprints of [p] and [other]. *)
Definition footprintOverlap (p other : Plant) : Q :=
  overlapAreaXZ (v3x (position p)) (v3z (position p)) (size p * (1 # 2))
    (v3x (position other)) (v3z (position other)) (size other * (1 # 2)).

(** [other] shades [p]: it is another plant, its footprint has a non-zero
    overlap with that of [p], and its canopy top is strictly greater. *)
Definition shades (p other : Plant) : bool :=
  negb (bool_decide (id other = id p))
  && negb (Qeq_bool (footprintOverlap p other) 0)
  && Qltb (topY p) (topY other).

(** [1 - overlapFraction * 0.5], the overlap fraction being the overlap area
    over the footprint area of [p]. *)
Definition shadeFactor (p other : Plant) : Q :=
  1 - footprintOverlap p other / (size p * size p) * (1 # 2).

(** Start at 1, multiply by the factor of every shading plant, clamp. *)
Definition shadingFactor (p : Plant) (allPlants : list Plant) : Q :=
  clampf (Qprod (map (shadeFactor p) (List.filter (shades p) allPlants))) 0 1.

(** Two plants on the same spot, the second one taller. *)
Definition lowPlant : Plant :=
  newPlant 0 (mkVector3 2 (1 # 2) 3) 1 (1 # 100) 50.
Definition tallPlant : Plant :=
  newPlant 1 (mkVector3 2 (3 # 2) 3) 1 (1 # 100) 50.

(** ** A plant centred on a cell *)

(** World coordinate of the centre of the cell with grid coordinate [x], as
    computed by [overlapFractionWithCell]. *)
Definition cellCentre (gridSize : Z) (cellSize : Q) (x : Z) : Q :=
  inject_Z x - inject_Z gridSize * (1 # 2) + cellSize * (1 # 2).

(** [p] has footprint size 1 and sits exactly on the centre of cell
    [(x, z)] of a grid with cell size 1. *)
Definition centredOn (p : Plant) (gridSize x z : Z) : Prop :=
  v3x (position p) == cellCentre gridSize 1 x /\
  v3z (position p) == cellCentre gridSize 1 z /\
  size p == 1.

(** The statement that such a plant occupies exactly that one cell. *)
Definition centred_occupies_one_cell (p : Plant) (gridSize x z : Z) : Prop :=
  centredOn p gridSize x z ->
  getOccupiedSoilIndices p gridSize 1 = [(z * gridSize + x)%Z].

(** The indices of the cells [(x', z')] with [x'] in [xs] and [z'] in [zs]
    that lie on the grid, in the order of the loops of
    [getOccupiedSoilIndices]. *)
Definition cellIndices (gridSize : Z) (xs zs : list Z) : list Z :=
  x ← xs; z ← zs;
  if bool_decide (0 ≤ x ∧ x < gridSize ∧ 0 ≤ z ∧ z < gridSize)%Z
  then [(z * gridSize + x)%Z] else [].

(** A plant of size 1 centred on cell [(0, 0)] of the 40 x 40 grid. *)
Definition cornerPlant : Plant :=
  newPlant 0 (mkVector3 (-39 # 2) (1 # 2) (-39 # 2)) 1 (1 # 100) 50.

(** ** Starvation *)

(** [n] successive [grow] calls on one plant with the light factor held
    at 0. *)
Fixpoint starve (n : nat) (p : Plant) (e : Env) (g : Z) (c hs : Q)
  : Plant * Env :=
  match n with
  | O => (p, e)
  | S k => let r := grow p e g c 0 hs in starve k r.1 r.2 g c hs
  end.

(** The first [n] of these calls all find the plant alive and a non-zero
    total overlap. *)
Fixpoint starved (n : nat) (p : Plant) (e : Env) (g : Z) (c hs : Q) : Prop :=
  match n with
  | O => True
  | S k =>
      alive p = true /\
      ~ totalOverlap (scanCells p (soil e) g c) == 0 /\
      starved k (grow p e g c 0 hs).1 (grow p e g c 0 hs).2 g c hs
  end.

(** What the decay bound uses of a plant: the sign of its age, lifespan and
    size, the maintenance constants of the constructor ([baseMaintenance]
    at least 0.2, [maintenancePerSize] not negative) and health at most 1. *)
Definition viable (p : Plant) : Prop :=
  0 <= age p /\ 0 < maxAge p /\ 0 <= size p /\
  1 # 5 <= baseMaintenance p /\ 0 <= maintenancePerSize p /\
  health p <= 1.

(** Least health lost in a starved frame:
    [baseMaintenance * 0.001 + 0.0005]. *)
Definition minDecay : Q := (1 # 5) * (1 # 1000) + (1 # 2000).

(** Number of starved frames after which health has reached 0. *)
Definition starvationBound : nat := 1429.

(** ** Light of the snapshot *)

(** The shading factor of plant [i] in the collection [plants] as it stands
    when the frame starts (0 when there is no such plant). *)
Definition snapshotLight (plants : list Plant) (i : nat) : Q :=
  match plants !! i with
  | Some p => calculateLight p plants
  | None => 0
  end.

(** Two plants on the same spot with the same canopy top. *)
Definition twinA : Plant := newPlant 0 (mkVector3 2 (1 # 2) 3) 1 (1 # 100) 50.
Definition twinB : Plant := newPlant 1 (mkVector3 2 (1 # 2) 3) 1 (1 # 100) 50.

(** ** The bounding range of a footprint *)

(** First and last grid coordinate visited by [getOccupiedSoilIndices]
    along one axis ([minX]/[maxX] for the centre [position.x], [minZ]/[maxZ]
    for [position.z]). *)
Definition footprintLo (centre sz : Q) (gridSize : Z) (cellSize : Q) : Z :=
  safeFloorToInt ((centre - sz * (1 # 2) + inject_Z gridSize * (1 # 2))
                  / cellSize).
Definition footprintHi (centre sz : Q) (gridSize : Z) (cellSize : Q) : Z :=
  safeFloorToInt ((centre + sz * (1 # 2) + inject_Z gridSize * (1 # 2))
                  / cellSize).

(** Grid coordinates [(x, z)] visited by the two loops for plant [p]. *)
Definition inFootprintRange (p : Plant) (gridSize : Z) (cellSize : Q)
    (x z : Z) : Prop :=
  (footprintLo (v3x (position p)) (size p) gridSize cellSize <= x
   /\ x <= footprintHi (v3x (position p)) (size p) gridSize cellSize
   /\ footprintLo (v3z (position p)) (size p) gridSize cellSize <= z
   /\ z <= footprintHi (v3z (position p)) (size p) gridSize cellSize)%Z.

(** [(x, z)] is a coordinate of the grid. *)
Definition onGrid (gridSize x z : Z) : Prop :=
  (0 <= x /\ x < gridSize /\ 0 <= z /\ z < gridSize)%Z.

(** [(1/2)^k]. *)
Fixpoint halves (k : nat) : Q :=
  match k with
  | O => 1
  | S k => (1 # 2) * halves k
  end.

(** The plants of a collection that shade [p]. *)
Definition shaders (p : Plant) (allPlants : list Plant) : list Plant :=
  List.filter (shades p) allPlants.

(** ** State invariants of a plant *)

(** Health within [0, 1] and size at least the floor 0.2. *)
Definition plant_ok (p : Plant) : Prop :=
  0 <= health p <= 1 /\ 1 # 5 <= size p.

(** The fields of a plant that [grow] only reads. *)
Definition sameIdentity (p q : Plant) : Prop :=
  id q = id p /\
  v3x (position q) = v3x (position p) /\
  v3z (position q) = v3z (position p) /\
  growthRate q = growthRate p /\ maxAge q = maxAge p /\
  photosyntheticEfficiency q = photosyntheticEfficiency p /\
  baseMaintenance q = baseMaintenance p /\
  maintenancePerSize q = maintenancePerSize p /\
  adsorptionEfficiency q = adsorptionEfficiency p.

(** ** Comparing soil cells *)

(** Each resource level of [c'] is at most that of [c]. *)
Definition cell_le (c' c : SoilCell) : Prop :=
  water c' <= water c /\ nitrogen c' <= nitrogen c /\
  phosphorus c' <= phosphorus c /\ potassium c' <= potassium c.

(** The overlap fraction [grow] computes for the cell stored at [idx]. *)
Definition cellFraction (p : Plant) (s : list SoilCell) (g : Z) (c : Q)
    (idx : Z) : Q :=
  overlapFractionWithCell p (soilAt s idx) g c.

(** The indices among the occupied ones whose cell has a positive overlap
    fraction: the cells [grow] draws from. *)
Definition drawnCells (p : Plant) (s : list SoilCell) (g : Z) (c : Q)
  : list Z :=
  List.filter (fun idx => Qltb 0 (cellFraction p s g c idx))
              (getOccupiedSoilIndices p g c).

(** Every resource level of [c] lies between [lo] and [hi]. *)
Definition cell_within (lo hi : Q) (c : SoilCell) : Prop :=
  lo <= water c <= hi /\ lo <= nitrogen c <= hi /\
  lo <= phosphorus c <= hi /\ lo <= potassium c <= hi.

Global Instance cell_within_decision (lo hi : Q) (c : SoilCell) :
  Decision (cell_within lo hi c).
Proof. unfold cell_within. apply _. Defined.

(** The amount [grow] takes from a cell whose overlap fraction is [frac]. *)
Definition amountFor (p : Plant) (sc : Scan) (lightFactor frac : Q) : Q :=
  amountTakenOf (demand p sc lightFactor) (totalOverlap sc)
                (adsorptionEfficiency p) frac.

(** The value of [nutrientUsed[pid][idx]]: the amount recorded for plant
    [pid] at cell [idx], 0 when there is no entry. *)
Definition nutrientAt (m : gmap Z (gmap Z Q)) (pid idx : Z) : Q :=
  default 0 (default ∅ (m !! pid) !! idx).

(** ** Start-up of [main] *)

(** [rand() % m] for a value [r] returned by [rand()]: the remainder of the
    truncating integer division. *)
Definition randMod (r m : Z) : Z := Z.rem r m.

(** [0.5f + (rand() % 50)/100.0f], the start level of a soil resource. *)
Definition startLevel (r : Z) : Q := (1 # 2) + inject_Z (randMod r 50) / 100.

(** The constructor [SoilCell(pos)]; [rw], [rn], [rp], [rk] are the four
    values it draws from [rand()], in this order. *)
Definition newSoilCell (pos : Vector2) (rw rn rp rk : Z) : SoilCell :=
  {| cell_position := pos; water := startLevel rw; nitrogen := startLevel rn;
     phosphorus := startLevel rp; potassium := startLevel rk |}.

(** The soil loop of [main]: cell [k] of the vector (the [k]-th one
    constructed) consumes the draws [4k .. 4k+3] of the stream [rnd]. *)
Definition initSoil (gridSize : Z) (rnd : Z -> Z) : list SoilCell :=
  z ← seqZ 0 gridSize;
  x ← seqZ 0 gridSize;
  let k := (z * gridSize + x)%Z in
  [newSoilCell (mkVector2 (inject_Z x) (inject_Z z))
     (rnd (4 * k)%Z) (rnd (4 * k + 1)%Z) (rnd (4 * k + 2)%Z)
     (rnd (4 * k + 3)%Z)].

(** Plant [i] of [main], from the four values it draws: for [pos.x], for
    [pos.z], for [growthRate] and, in the constructor, for [maxAge]. *)
Definition mainPlant (i rx rz rr rm : Z) : Plant :=
  newPlant i
    (mkVector3 (inject_Z (randMod rx GRID_SIZE - GRID_SIZE / 2)) (1 # 2)
               (inject_Z (randMod rz GRID_SIZE - GRID_SIZE / 2)))
    1 ((1 # 100) + inject_Z (randMod rr 10) / 2000) (randMod rm 100).

(** The plant loop of [main]; the draws of the plants follow those of the
    [GRID_SIZE * GRID_SIZE] soil cells in the stream. *)
Definition initPlants (rnd : Z -> Z) : list Plant :=
  let base := (4 * (GRID_SIZE * GRID_SIZE))%Z in
  map (fun i => mainPlant i (rnd (base + 4 * i)%Z) (rnd (base + 4 * i + 1)%Z)
                          (rnd (base + 4 * i + 2)%Z) (rnd (base + 4 * i + 3)%Z))
      (seqZ 0 NUM_PLANTS).

(** The state of [main] after [n] frames. *)
Definition mainRun (rnd : Z -> Z) (n : nat) : list Plant * list SoilCell :=
  simulate n (initPlants rnd) (initSoil GRID_SIZE rnd).

(** [rand()] never returns a negative value. *)
Definition randStream (rnd : Z -> Z) : Prop := forall k, (0 <= rnd k)%Z.

(** The cells of [s] sit where the soil loop of [main] puts them: the cell
    stored at [z * gridSize + x] has position [(x, z)]. *)
Definition gridLayout (gridSize : Z) (s : list SoilCell) : Prop :=
  map cell_position s
  = map cell_position (mkSoil gridSize (fun _ => (0, 0, 0, 0))).

(** The centre of the footprint of [p] lies over the grid of [main]. *)
Definition centreOnGrid (p : Plant) : Prop :=
  let halfGrid := inject_Z GRID_SIZE * (1 # 2) in
  0 <= v3x (position p) + halfGrid < inject_Z GRID_SIZE /\
  0 <= v3z (position p) + halfGrid < inject_Z GRID_SIZE.

(** A sample stream of draws. *)
Definition sampleRand (k : Z) : Z := Z.abs (k * 7919 + 13).

(** What the frame loop of [main] keeps of every plant: the centre of its
    footprint over the grid, health and size within their bounds, and the
    [alive] flag equal to the predicate it stands for. *)
Definition settled (p : Plant) : Prop :=
  centreOnGrid p /\ plant_ok p /\ alive p = aliveSpec p.

(** The parameters of a plant as [main] creates them: growth rate between
    0.01 and 0.0145, photosynthetic efficiency 1, and what [viable] asks of
    the maintenance constants; adsorption efficiency not negative. *)
Definition mainParams (p : Plant) : Prop :=
  1 # 100 <= growthRate p <= 29 # 2000 /\
  photosyntheticEfficiency p = 1 /\
  0 <= adsorptionEfficiency p /\
  viable p.

(** Least health lost per frame by a live plant of [main]: net energy is at
    most [0.0145 - 0.2], so health falls by at least
    [(0.2 - 0.0145) * 0.001 + 0.0005]. *)
Definition mainDecay : Q :=
  ((1 # 5) - (29 # 2000)) * (1 # 1000) + (1 # 2000).

(** Number of frames after which no plant of [main] is alive. *)
Definition mainLifetime : nat := 1459.

(** What holds of a plant of [main] at the start of frame [n]. *)
Definition starving (n : nat) (p : Plant) : Prop :=
  settled p /\ mainParams p /\
  (alive p = true -> health p <= 1 - inject_Z (Z.of_nat n) * mainDecay).

(** What holds of the shared state of [main] throughout: the layout of the
    grid and resource levels between 0 and 1. *)
Definition fertile (e : Env) : Prop :=
  gridLayout GRID_SIZE (soil e) /\ Forall (cell_within 0 1) (soil e).

(** ** The soil log *)

(** The columns [SoilX], [SoilZ] of the row [main] writes for the cell at
    [idx]: [(int)soil[idx].position.x] and [(int)soil[idx].position.y]. *)
Definition soilLogCoords (s : list SoilCell) (idx : Z) : Z * Z :=
  (truncZ (v2x (cell_position (soilAt s idx))),
   truncZ (v2y (cell_position (soilAt s idx)))).

(** ** The size update of [grow] in binary32

    The engine above computes on exact rationals.  The three statements of
    [grow] that update [size] (lines 151-153) are given here a second time
    on IEEE binary32 numbers, the [float] of the program, with every
    operation rounded to nearest: a sum of a size and a much smaller delta
    rounds back to the size. *)
Definition b32 : Type := SpecFloat.spec_float.
Definition b32_prec : Z := 24.
Definition b32_emax : Z := 128.

Definition b32_of_Z (z : Z) : b32 :=
  SpecFloat.binary_normalize b32_prec b32_emax z 0 false.

(** The [float] literal written as the decimal [n / d], e.g. [0.01f]. *)
Definition b32_lit (n d : Z) : b32 :=
  SpecFloat.SFdiv b32_prec b32_emax (b32_of_Z n) (b32_of_Z d).

Definition b32_mul : b32 -> b32 -> b32 := SpecFloat.SFmul b32_prec b32_emax.
Definition b32_add : b32 -> b32 -> b32 := SpecFloat.SFadd b32_prec b32_emax.
Definition b32_ltb : b32 -> b32 -> bool := SpecFloat.SFltb.

(** [std::max(a, b)] on [float]. *)
Definition b32_max (a b : b32) : b32 := if b32_ltb a b then b else a.

(** [float delta = growthRate*0.01f * (netEnergy>0?1:0.2f);] *)
Definition b32_delta (growthRate : b32) (netEnergyPositive : bool) : b32 :=
  b32_mul (b32_mul growthRate (b32_lit 1 100))
          (if netEnergyPositive then b32_of_Z 1 else b32_lit 1 5).

(** [size += delta; size = std::max(0.2f, size);] *)
Definition b32_grow_size (size growthRate : b32) (netEnergyPositive : bool)
    : b32 :=
  b32_max (b32_lit 1 5)
          (b32_add size (b32_delta growthRate netEnergyPositive)).

(** The smallest positive binary32 number, [2^-149]. *)
Definition b32_min_positive : b32 :=
  SpecFloat.binary_normalize b32_prec b32_emax 1 (-149) false.

(** What "delta is strictly positive, so size strictly increases" says of
    one size update. *)
Definition b32_delta_positive (growthRate : b32) (netEnergyPositive : bool)
    : Prop :=
  b32_ltb (b32_of_Z 0) (b32_delta growthRate netEnergyPositive) = true.

Definition b32_size_increases (size growthRate : b32)
    (netEnergyPositive : bool) : Prop :=
  b32_ltb size (b32_grow_size size growthRate netEnergyPositive) = true.

(** * Properties *)

(** ** Comparisons, [std::max], [std::min], [clampf] *)

Lemma Qltb_true (a b : Q) : Qltb a b = true <-> a < b.
Proof.
  unfold Qltb. rewrite negb_true_iff.
  split.
  - intros H. apply Qnot_le_lt. intros Hle.
    apply Qle_bool_iff in Hle. congruence.
  - intros H. destruct (Qle_bool b a) eqn:E; [|reflexivity].
    apply Qle_bool_iff in E. lra.
Qed.

Lemma Qltb_false (a b : Q) : Qltb a b = false <-> b <= a.
Proof.
  unfold Qltb. rewrite negb_false_iff. apply Qle_bool_iff.
Qed.

Lemma Qltb_cases (a b : Q) :
  (Qltb a b = true /\ a < b) \/ (Qltb a b = false /\ b <= a).
Proof.
  destruct (Qltb a b) eqn:E.
  - left. split; [reflexivity|]. by apply Qltb_true.
  - right. split; [reflexivity|]. by apply Qltb_false.
Qed.

Lemma Qle_bool_cases (a b : Q) :
  (Qle_bool a b = true /\ a <= b) \/ (Qle_bool a b = false /\ b < a).
Proof.
  destruct (Qle_bool a b) eqn:E.
  - left. split; [reflexivity|]. by apply Qle_bool_iff.
  - right. split; [reflexivity|]. apply Qnot_le_lt. intros H.
    apply Qle_bool_iff in H. congruence.
Qed.

Lemma Qeq_bool_cases (a b : Q) :
  (Qeq_bool a b = true /\ a == b) \/ (Qeq_bool a b = false /\ ~ a == b).
Proof.
  destruct (Qeq_bool a b) eqn:E.
  - left. split; [reflexivity|]. by apply Qeq_bool_iff.
  - right. split; [reflexivity|]. by apply Qeq_bool_neq.
Qed.

(** Case analysis on every comparison of the goal. *)
Ltac qcase_lt a b :=
  let E := fresh "E" in let H := fresh "H" in
  destruct (Qltb_cases a b) as [[E H] | [E H]]; rewrite ?E in *; clear E.
Ltac qcase_le a b :=
  let E := fresh "E" in let H := fresh "H" in
  destruct (Qle_bool_cases a b) as [[E H] | [E H]]; rewrite ?E in *; clear E.
Ltac qcase_eq a b :=
  let E := fresh "E" in let H := fresh "H" in
  destruct (Qeq_bool_cases a b) as [[E H] | [E H]]; rewrite ?E in *; clear E.
Ltac qcases :=
  repeat match goal with
         | |- context [Qltb ?a ?b] => qcase_lt a b
         | |- context [Qle_bool ?a ?b] => qcase_le a b
         | |- context [Qeq_bool ?a ?b] => qcase_eq a b
         end.

Lemma std_max_cases (a b : Q) :
  (a < b /\ std_max a b = b) \/ (b <= a /\ std_max a b = a).
Proof. unfold std_max. qcases; auto. Qed.

Lemma std_min_cases (a b : Q) :
  (b < a /\ std_min a b = b) \/ (a <= b /\ std_min a b = a).
Proof. unfold std_min. qcases; auto. Qed.

Lemma std_max_lower (a b : Q) : a <= std_max a b.
Proof. destruct (std_max_cases a b) as [[? ->] | [? ->]]; lra. Qed.

Lemma std_max_upper (a b : Q) : b <= std_max a b.
Proof. destruct (std_max_cases a b) as [[? ->] | [? ->]]; lra. Qed.

Lemma clampf_range (v a b : Q) : a <= b -> a <= clampf v a b <= b.
Proof.
  intros Hab. unfold clampf.
  destruct (std_min_cases v b) as [[? ->] | [? ->]];
    match goal with
    | |- context [std_max ?x ?y] =>
        destruct (std_max_cases x y) as [[? ->] | [? ->]]
    end; lra.
Qed.

Lemma std_max_proper : Proper (Qeq ==> Qeq ==> Qeq) std_max.
Proof.
  intros a a' Ha b b' Hb.
  destruct (std_max_cases a b) as [[? ->] | [? ->]];
    destruct (std_max_cases a' b') as [[? ->] | [? ->]]; lra.
Qed.
Global Existing Instance std_max_proper.

Lemma std_min_proper : Proper (Qeq ==> Qeq ==> Qeq) std_min.
Proof.
  intros a a' Ha b b' Hb.
  destruct (std_min_cases a b) as [[? ->] | [? ->]];
    destruct (std_min_cases a' b') as [[? ->] | [? ->]]; lra.
Qed.
Global Existing Instance std_min_proper.

Lemma clampf_proper : Proper (Qeq ==> Qeq ==> Qeq ==> Qeq) clampf.
Proof.
  intros v v' Hv a a' Ha b b' Hb. unfold clampf.
  by rewrite Hv, Ha, Hb.
Qed.
Global Existing Instance clampf_proper.

Lemma overlapAreaXZ_nonneg (ax az ah bx bz bh : Q) :
  0 <= overlapAreaXZ ax az ah bx bz bh.
Proof.
  unfold overlapAreaXZ. cbv zeta.
  apply Qmult_le_0_compat; apply std_max_lower.
Qed.

(** ** Loops as folds *)

(** A property kept by every iteration of a loop holds when the loop ends. *)
Lemma fold_left_invariant {A B : Type} (I : A -> Prop) (f : A -> B -> A)
    (l : list B) (a : A) :
  (forall a b, I a -> I (f a b)) -> I a -> I (fold_left f l a).
Proof.
  intros Hstep. revert a.
  induction l as [|b l IH]; intros a Ha; simpl; [exact Ha|].
  apply IH, Hstep, Ha.
Qed.

(** ** Soil resources stay non-negative *)

Lemma depleteCell_nonneg (amountTaken : Q) (c : SoilCell) :
  cell_nonneg (depleteCell amountTaken c).
Proof. repeat split; simpl; apply std_max_lower. Qed.

Lemma soilSet_nonneg (s : list SoilCell) (idx : Z) (c : SoilCell) :
  soil_nonneg s -> cell_nonneg c -> soil_nonneg (soilSet s idx c).
Proof. intros Hs Hc. by apply Forall_insert. Qed.

Lemma depleteStep_nonneg (pid : Z) (d t eff : Q) (st : Uptake) (pr : Z * Q) :
  soil_nonneg (soil (u_env st)) ->
  soil_nonneg (soil (u_env (depleteStep pid d t eff st pr))).
Proof.
  intros H. simpl. apply soilSet_nonneg; [exact H|apply depleteCell_nonneg].
Qed.

Lemma grow_soil_nonneg (p : Plant) (e : Env) (g : Z) (c lf hs : Q) :
  soil_nonneg (soil e) -> soil_nonneg (soil (grow p e g c lf hs).2).
Proof.
  intros H. unfold grow.
  destruct (negb (alive p)); [exact H|].
  destruct (Qeq_bool _ 0); [exact H|].
  cbv zeta. simpl snd.
  apply (fold_left_invariant (fun u => soil_nonneg (soil (u_env u)))).
  - intros a b. apply depleteStep_nonneg.
  - exact H.
Qed.

Lemma growAt_soil_nonneg (i : nat) (lf : Q) (st : list Plant * Env) :
  soil_nonneg (soil st.2) -> soil_nonneg (soil (growAt i lf st).2).
Proof.
  intros H. unfold growAt. destruct (st.1 !! i); [|exact H].
  simpl. by apply grow_soil_nonneg.
Qed.

Lemma growInOrder_soil_nonneg (order : list nat) (lfs : list Q)
    (st : list Plant * Env) :
  soil_nonneg (soil st.2) ->
  soil_nonneg (soil (growInOrder order lfs st).2).
Proof.
  unfold growInOrder.
  apply (fold_left_invariant (fun st => soil_nonneg (soil st.2))).
  intros a b. apply growAt_soil_nonneg.
Qed.

Lemma simulate_soil_nonneg (n : nat) (plants : list Plant)
    (s : list SoilCell) :
  soil_nonneg s -> soil_nonneg (simulate n plants s).2.
Proof.
  revert plants s. induction n as [|n IH]; intros plants s H; [exact H|].
  simpl. apply IH. unfold frame, frameInOrder.
  by apply growInOrder_soil_nonneg.
Qed.

(** C3.  Starting from a grid whose four resource scalars are all
    non-negative, every write of the depletion loop stores
    [max(0, current - amountTaken * 0.001)], every [grow] call leaves all
    four scalars of every cell non-negative, and so does any number of
    frames. *)
Theorem soil_resources_stay_nonneg (s : list SoilCell) :
  soil_nonneg s ->
  (forall amountTaken c,
     water (depleteCell amountTaken c)
       = std_max 0 (water c - amountTaken * (1 # 1000)) /\
     nitrogen (depleteCell amountTaken c)
       = std_max 0 (nitrogen c - amountTaken * (1 # 1000)) /\
     phosphorus (depleteCell amountTaken c)
       = std_max 0 (phosphorus c - amountTaken * (1 # 1000)) /\
     potassium (depleteCell amountTaken c)
       = std_max 0 (potassium c - amountTaken * (1 # 1000)) /\
     cell_nonneg (depleteCell amountTaken c)) /\
  (forall p nu cu g c lf hs,
     soil_nonneg (soil (grow p (mkEnv s nu cu) g c lf hs).2)) /\
  (forall n plants, soil_nonneg (simulate n plants s).2).
Proof.
  intros H. split; [|split].
  - intros a c. repeat split; try reflexivity; apply depleteCell_nonneg.
  - intros. by apply grow_soil_nonneg.
  - intros. by apply simulate_soil_nonneg.
Qed.

Lemma soil_resources_stay_nonneg_witness :
  soil_nonneg sampleSoil /\
  soil_nonneg (simulate 2 [samplePlant] sampleSoil).2.
Proof.
  assert (H : soil_nonneg sampleSoil).
  { apply (bool_decide_unpack _). vm_compute. exact I. }
  split; [exact H|].
  apply (soil_resources_stay_nonneg sampleSoil H).
Defined.

(** ** Dead plants *)

Lemma grow_dead (p : Plant) (e : Env) (g : Z) (c lf hs : Q) :
  alive p = false -> grow p e g c lf hs = (p, e).
Proof. intros H. unfold grow. by rewrite H. Qed.

Lemma growAt_length (j : nat) (lf : Q) (st : list Plant * Env) :
  length (growAt j lf st).1 = length st.1.
Proof.
  unfold growAt. destruct (st.1 !! j); [|reflexivity].
  simpl. apply length_insert.
Qed.

Lemma growAt_dead (i j : nat) (lf : Q) (st : list Plant * Env) (p : Plant) :
  alive p = false -> st.1 !! i = Some p -> (growAt j lf st).1 !! i = Some p.
Proof.
  intros Hdead Hi. unfold growAt.
  destruct (st.1 !! j) as [q|] eqn:Hj; [|exact Hi].
  simpl. destruct (decide (j = i)) as [->|Hne].
  - assert (q = p) as -> by congruence.
    rewrite grow_dead by exact Hdead. simpl.
    by rewrite list_insert_id.
  - by rewrite list_lookup_insert_ne.
Qed.

Lemma growInOrder_dead (order : list nat) (lfs : list Q)
    (st : list Plant * Env) (i : nat) (p : Plant) :
  alive p = false -> st.1 !! i = Some p ->
  (growInOrder order lfs st).1 !! i = Some p.
Proof.
  intros Hdead. unfold growInOrder.
  apply (fold_left_invariant (fun st => st.1 !! i = Some p)).
  intros a b. by apply growAt_dead.
Qed.

Lemma simulate_dead (n : nat) (plants : list Plant) (s : list SoilCell)
    (i : nat) (p : Plant) :
  alive p = false -> plants !! i = Some p ->
  (simulate n plants s).1 !! i = Some p.
Proof.
  intros Hdead. revert plants s.
  induction n as [|n IH]; intros plants s Hi; [exact Hi|].
  simpl. apply IH. unfold frame, frameInOrder.
  by apply growInOrder_dead.
Qed.

(** C8.  A [grow] call on a plant whose [alive] flag is false returns the
    plant (position, size, health, age, colour, statistics) and the shared
    state (every soil cell, both usage accumulators) exactly as they were;
    hence the plant stays the same record, in its slot, through any number
    of subsequent frames. *)
Theorem dead_plant_noop (p : Plant) :
  alive p = false ->
  (forall e g c lf hs, grow p e g c lf hs = (p, e)) /\
  (forall n plants s i,
     plants !! i = Some p -> (simulate n plants s).1 !! i = Some p).
Proof.
  intros Hdead. split.
  - intros. by apply grow_dead.
  - intros. by apply simulate_dead.
Qed.

Lemma dead_plant_noop_witness :
  alive (set_alive false samplePlant) = false /\
  (simulate 3 [samplePlant; set_alive false samplePlant] sampleSoil).1 !! 1%nat
    = Some (set_alive false samplePlant).
Proof.
  split; [reflexivity|].
  by apply (dead_plant_noop (set_alive false samplePlant)).
Defined.

(** ** The first loop of [grow] *)

Lemma Qsum_app (l k : list Q) : Qsum (l ++ k) == Qsum l + Qsum k.
Proof.
  induction l as [|a l IH]; simpl; [lra|]. rewrite IH. lra.
Qed.

Lemma scanCells_set_stats (a b : Q) (p : Plant) (s : list SoilCell) (g : Z)
    (c : Q) :
  scanCells (set_stats a b p) s g c = scanCells p s g c.
Proof. reflexivity. Qed.

Lemma scanStep_ok (p : Plant) (s : list SoilCell) (g : Z) (c : Q)
    (acc : Scan) (idx : Z) :
  scan_ok acc -> scan_ok (scanStep p s g c acc idx).
Proof.
  intros [Hsum Hpos]. unfold scanStep.
  qcases; [|by split].
  split; simpl.
  - rewrite map_app, Qsum_app, Hsum. simpl. lra.
  - apply Forall_app. split; [exact Hpos|]. by repeat constructor.
Qed.

Lemma scanCells_ok (p : Plant) (s : list SoilCell) (g : Z) (c : Q) :
  scan_ok (scanCells p s g c).
Proof.
  unfold scanCells. apply fold_left_invariant.
  - intros a b. apply scanStep_ok.
  - split; simpl; [reflexivity|constructor].
Qed.

Lemma Qsum_pos_nonneg (l : list (Z * Q)) :
  Forall (fun pr : Z * Q => 0 < pr.2) l -> 0 <= Qsum (map snd l).
Proof.
  induction 1 as [|pr l Hpr _ IH]; simpl; [lra|]. simpl in Hpr. lra.
Qed.

Lemma scan_zero_overlap (sc : Scan) :
  scan_ok sc -> totalOverlap sc == 0 -> overlaps sc = [].
Proof.
  intros [Hsum Hpos] H0.
  destruct (overlaps sc) as [|pr l]; [reflexivity|].
  exfalso. inversion Hpos as [|? ? Hpr Hl]; subst.
  apply Qsum_pos_nonneg in Hl. simpl in Hsum, Hpr. lra.
Qed.

Lemma scan_total_nonneg (sc : Scan) : scan_ok sc -> 0 <= totalOverlap sc.
Proof. intros [Hsum Hpos]. rewrite Hsum. by apply Qsum_pos_nonneg. Qed.

Lemma scanCells_no_indices (p : Plant) (s : list SoilCell) (g : Z) (c : Q) :
  getOccupiedSoilIndices p g c = [] -> scanCells p s g c = scan0.
Proof. intros H. unfold scanCells. by rewrite H. Qed.

(** ** The zero-overlap frame *)

Lemma grow_zero_overlap (p : Plant) (e : Env) (g : Z) (c lf hs : Q) :
  alive p = true ->
  totalOverlap (scanCells p (soil e) g c) == 0 ->
  grow p e g c lf hs = (set_age (age p + (1 # 100)) (set_stats 0 0 p), e).
Proof.
  intros Halive H0. unfold grow. rewrite Halive. cbv zeta. simpl negb.
  cbv iota. rewrite scanCells_set_stats.
  apply Qeq_bool_iff in H0. by rewrite H0.
Qed.

(** C7.  A [grow] call on a live plant whose total overlap is zero and
    whose two per-frame statistics are 0, as the constructor sets them and
    as every zero-overlap call leaves them, advances [age] by exactly 0.01
    and changes nothing else: no soil cell and no usage accumulator is
    written, and size, health, position and colour of the plant are as
    before.  The statistics are still 0 and the total overlap is still zero
    afterwards, so the next call on the plant is of the same kind. *)
Theorem zero_overlap_frame_effect (p : Plant) (e : Env) (g : Z)
    (c lf hs : Q) :
  alive p = true ->
  totalOverlap (scanCells p (soil e) g c) == 0 ->
  lastNutrientIntake p = 0 -> lastAreaOccupied p = 0 ->
  let r := grow p e g c lf hs in
  r = (set_age (age p + (1 # 100)) p, e) /\
  age r.1 = age p + (1 # 100) /\
  size r.1 = size p /\ health r.1 = health p /\
  position r.1 = position p /\ color r.1 = color p /\
  id r.1 = id p /\
  soil r.2 = soil e /\ nutrientUsed r.2 = nutrientUsed e /\
  cellUsage r.2 = cellUsage e /\
  lastNutrientIntake r.1 = 0 /\ lastAreaOccupied r.1 = 0 /\
  totalOverlap (scanCells r.1 (soil r.2) g c) == 0.
Proof.
  intros Halive H0 Hin Har r. subst r.
  rewrite (grow_zero_overlap p e g c lf hs Halive H0).
  assert (E : set_stats 0 0 p = p).
  { destruct p. cbn in Hin, Har. subst. reflexivity. }
  rewrite E. cbn [fst snd].
  split; [reflexivity|].
  split; [reflexivity|]. split; [reflexivity|]. split; [reflexivity|].
  split; [reflexivity|]. split; [reflexivity|]. split; [reflexivity|].
  split; [reflexivity|]. split; [reflexivity|]. split; [reflexivity|].
  split; [exact Hin|]. split; [exact Har|]. exact H0.
Qed.

Lemma zero_overlap_frame_effect_witness :
  alive strayPlant = true /\
  totalOverlap (scanCells strayPlant sampleSoil GRID_SIZE CELL_SIZE) == 0 /\
  lastNutrientIntake strayPlant = 0 /\ lastAreaOccupied strayPlant = 0 /\
  grow strayPlant (mkEnv sampleSoil ∅ ∅) GRID_SIZE CELL_SIZE 1 HEIGHT_SCALE
  = (set_age (age strayPlant + (1 # 100)) strayPlant, mkEnv sampleSoil ∅ ∅).
Proof.
  assert (H0 : totalOverlap
                 (scanCells strayPlant sampleSoil GRID_SIZE CELL_SIZE) == 0)
    by (vm_compute; reflexivity).
  split; [reflexivity|]. split; [exact H0|].
  split; [reflexivity|]. split; [reflexivity|].
  destruct (zero_overlap_frame_effect strayPlant (mkEnv sampleSoil ∅ ∅)
              GRID_SIZE CELL_SIZE 1 HEIGHT_SCALE eq_refl H0 eq_refl eq_refl)
    as [H _].
  exact H.
Defined.

(** ** The [alive] flag *)

(** On the path that runs to the end of [grow], the flag is recomputed from
    the updated health and age. *)
Lemma grow_alive_recomputed (p : Plant) (e : Env) (g : Z) (c lf hs : Q) :
  alive p = true ->
  ~ totalOverlap (scanCells p (soil e) g c) == 0 ->
  alive (grow p e g c lf hs).1 = aliveSpec (grow p e g c lf hs).1.
Proof.
  intros Halive Hne. unfold grow. rewrite Halive. cbv zeta. simpl negb.
  cbv iota. rewrite scanCells_set_stats.
  destruct (Qeq_bool (totalOverlap (scanCells p (soil e) g c)) 0) eqn:E.
  - apply Qeq_bool_iff in E. contradiction.
  - reflexivity.
Qed.

(** ** The depletion loop *)

Lemma depletion_intake (pid : Z) (d t eff : Q) (l : list (Z * Q))
    (st : Uptake) :
  u_intake (fold_left (depleteStep pid d t eff) l st)
  == u_intake st
     + Qsum (map (fun pr : Z * Q => amountTakenOf d t eff pr.2) l).
Proof.
  revert st. induction l as [|pr l IH]; intros st; simpl; [lra|].
  rewrite IH. simpl. lra.
Qed.

Lemma depletion_area (pid : Z) (d t eff : Q) (l : list (Z * Q))
    (st : Uptake) :
  u_area (fold_left (depleteStep pid d t eff) l st)
  == u_area st + Qsum (map snd l).
Proof.
  revert st. induction l as [|pr l IH]; intros st; simpl; [lra|].
  rewrite IH. simpl. lra.
Qed.

Lemma Qsum_take_fractions (t : Q) (l : list (Z * Q)) :
  Qsum (map (fun pr : Z * Q => pr.2 / t) l) == Qsum (map snd l) / t.
Proof.
  induction l as [|pr l IH]; simpl.
  - unfold Qdiv. ring.
  - rewrite IH. unfold Qdiv. ring.
Qed.

Lemma Qsum_amounts (d t eff : Q) (l : list (Z * Q)) :
  Qsum (map (fun pr : Z * Q => amountTakenOf d t eff pr.2) l)
  == d * eff * Qsum (map (fun pr : Z * Q => pr.2 / t) l).
Proof.
  induction l as [|pr l IH]; simpl.
  - ring.
  - rewrite IH. unfold amountTakenOf. cbv zeta. ring.
Qed.

Lemma grow_full_path (p : Plant) (e : Env) (g : Z) (c lf hs : Q) :
  alive p = true ->
  ~ totalOverlap (scanCells p (soil e) g c) == 0 ->
  let sc := scanCells p (soil e) g c in
  let u := fold_left
             (depleteStep (id p) (demand p sc lf) (totalOverlap sc)
                          (adsorptionEfficiency p))
             (overlaps sc) (mkUptake e 0 0) in
  let h := clampf (health p + netEnergy p sc lf * (1 # 1000) - (1 # 2000))
                  0 1 in
  let sz := std_max (1 # 5) (size p + delta p sc lf) in
  grow p e g c lf hs
  = (mkPlant (id p)
       (mkVector3 (v3x (position p)) (sz * hs / 2 + (1 # 10))
                  (v3z (position p)))
       sz (ageColor (age p / maxAge p)) (growthRate p) h
       (age p + (1 # 100)) (maxAge p)
       (Qltb 0 h && Qltb (age p + (1 # 100)) (maxAge p))
       (photosyntheticEfficiency p) (baseMaintenance p)
       (maintenancePerSize p) (adsorptionEfficiency p)
       (u_intake u) (u_area u),
     u_env u).
Proof.
  intros Halive Hne. unfold grow. rewrite Halive. cbv zeta. simpl negb.
  cbv iota. rewrite scanCells_set_stats.
  destruct (Qeq_bool (totalOverlap (scanCells p (soil e) g c)) 0) eqn:E.
  - apply Qeq_bool_iff in E. contradiction.
  - reflexivity.
Qed.

(** C4.  When the total overlap found by [grow] is not zero, the
    take-fractions of the overlapping cells sum to 1, the amounts taken sum
    to [demand * adsorptionEfficiency], and that sum is what [grow] leaves
    in [lastNutrientIntake]. *)
Theorem take_fraction_partition (p : Plant) (e : Env) (g : Z)
    (c lf hs : Q) :
  alive p = true ->
  ~ totalOverlap (scanCells p (soil e) g c) == 0 ->
  let sc := scanCells p (soil e) g c in
  Qsum (takeFractions sc) == 1 /\
  Qsum (amountsTaken p sc lf) == demand p sc lf * adsorptionEfficiency p /\
  lastNutrientIntake (grow p e g c lf hs).1
  == demand p sc lf * adsorptionEfficiency p.
Proof.
  intros Halive Hne sc.
  assert (Hfrac : Qsum (takeFractions sc) == 1).
  { unfold takeFractions. rewrite Qsum_take_fractions.
    destruct (scanCells_ok p (soil e) g c) as [Hsum _]. fold sc in Hsum.
    rewrite <- Hsum. field. exact Hne. }
  assert (Hamt : Qsum (amountsTaken p sc lf)
                 == demand p sc lf * adsorptionEfficiency p).
  { unfold amountsTaken. rewrite Qsum_amounts.
    unfold takeFractions in Hfrac. rewrite Hfrac. ring. }
  split; [exact Hfrac|]. split; [exact Hamt|].
  rewrite (grow_full_path p e g c lf hs Halive Hne). cbv zeta. simpl.
  rewrite depletion_intake. simpl.
  fold sc. unfold amountsTaken in Hamt. rewrite Hamt. ring.
Qed.

Lemma take_fraction_partition_witness :
  alive samplePlant = true /\
  ~ totalOverlap (scanCells samplePlant sampleSoil GRID_SIZE CELL_SIZE) == 0 /\
  Qsum (takeFractions (scanCells samplePlant sampleSoil GRID_SIZE CELL_SIZE))
  == 1.
Proof.
  assert (Hne : ~ totalOverlap
                    (scanCells samplePlant sampleSoil GRID_SIZE CELL_SIZE)
                  == 0)
    by (intros H; vm_compute in H; discriminate H).
  split; [reflexivity|]. split; [exact Hne|].
  destruct (take_fraction_partition samplePlant (mkEnv sampleSoil ∅ ∅)
              GRID_SIZE CELL_SIZE 1 HEIGHT_SCALE eq_refl Hne) as (H & _ & _).
  exact H.
Defined.

(** ** The light model *)

Lemma overlapAreaXZ_pos_half (ax az ah bx bz bh : Q) :
  0 < overlapAreaXZ ax az ah bx bz bh -> 0 < ah.
Proof.
  unfold overlapAreaXZ. cbv zeta. intros H.
  apply Qnot_le_lt. intros Hah.
  set (X := std_min (ax + ah) (bx + bh) - std_max (ax - ah) (bx - bh)) in *.
  assert (HX : X <= 0).
  { subst X.
    destruct (std_min_cases (ax + ah) (bx + bh)) as [[? ->] | [? ->]];
      destruct (std_max_cases (ax - ah) (bx - bh)) as [[? ->] | [? ->]];
      lra. }
  destruct (std_max_cases 0 X) as [[? _] | [_ E]]; [lra|].
  rewrite E in H. lra.
Qed.

Lemma lightStep_shades (p other : Plant) (light : Q) :
  lightStep p light other
  == light * (if shades p other then shadeFactor p other else 1).
Proof.
  unfold lightStep, shades, shadeFactor. cbv zeta.
  fold (footprintOverlap p other).
  pose proof (overlapAreaXZ_nonneg (v3x (position p)) (v3z (position p))
                (size p * (1 # 2)) (v3x (position other))
                (v3z (position other)) (size other * (1 # 2))) as Hnn.
  fold (footprintOverlap p other) in Hnn.
  destruct (bool_decide (id other = id p)); simpl; [ring|].
  qcases; simpl; try ring; lra.
Qed.

Lemma lightLoop_shades (p : Plant) (l : list Plant) (light : Q) :
  fold_left (lightStep p) l light
  == light * Qprod (map (shadeFactor p) (List.filter (shades p) l)).
Proof.
  revert light. induction l as [|o l IH]; intros light; simpl; [ring|].
  rewrite IH, lightStep_shades.
  destruct (shades p o); simpl; ring.
Qed.

Lemma calculateLight_shadingFactor (p : Plant) (l : list Plant) :
  calculateLight p l == shadingFactor p l.
Proof.
  unfold calculateLight, shadingFactor.
  rewrite lightLoop_shades. apply clampf_proper; [ring|reflexivity..].
Qed.

Lemma calculateLight_range (p : Plant) (l : list Plant) :
  0 <= calculateLight p l <= 1.
Proof. unfold calculateLight. apply clampf_range. lra. Qed.








(** The width of the intersection of two equal intervals. *)
Lemma interval_overlap_same (a h b k : Q) :
  a == b -> h == k -> 0 < h ->
  std_max 0 (std_min (a + h) (b + k) - std_max (a - h) (b - k)) == 2 * h.
Proof.
  intros Ha Hh Hpos.
  destruct (std_min_cases (a + h) (b + k)) as [[? ->] | [? ->]];
    destruct (std_max_cases (a - h) (b - k)) as [[? ->] | [? ->]];
    match goal with
    | |- context [std_max 0 ?x] =>
        destruct (std_max_cases 0 x) as [[? ->] | [? ->]]
    end; lra.
Qed.




(** ** Cells under a centred plant *)

Lemma interval_overlap_apart (a h b k : Q) :
  a + h <= b - k \/ b + k <= a - h ->
  std_max 0 (std_min (a + h) (b + k) - std_max (a - h) (b - k)) == 0.
Proof.
  intros H.
  destruct (std_min_cases (a + h) (b + k)) as [[? ->] | [? ->]];
    destruct (std_max_cases (a - h) (b - k)) as [[? ->] | [? ->]];
    match goal with
    | |- context [std_max 0 ?x] =>
        destruct (std_max_cases 0 x) as [[? ->] | [? ->]]
    end; lra.
Qed.

Lemma loopRange_two (x : Z) : loopRange x (x + 1) = [x; (x + 1)%Z].
Proof.
  unfold loopRange. replace (x + 1 - x + 1)%Z with 2%Z by lia.
  unfold seqZ. simpl. f_equal. f_equal. lia.
Qed.

Lemma centred_bounds (p : Plant) (g x z : Z) :
  centredOn p g x z ->
  let halfGrid := inject_Z g * (1 # 2) in
  Qfloor ((v3x (position p) - size p * (1 # 2) + halfGrid) / 1) = x /\
  Qfloor ((v3x (position p) + size p * (1 # 2) + halfGrid) / 1) = (x + 1)%Z /\
  Qfloor ((v3z (position p) - size p * (1 # 2) + halfGrid) / 1) = z /\
  Qfloor ((v3z (position p) + size p * (1 # 2) + halfGrid) / 1) = (z + 1)%Z.
Proof.
  intros (Hx & Hz & Hs). unfold cellCentre in *. cbv zeta.
  repeat split.
  - transitivity (Qfloor (inject_Z x)); [|apply Qfloor_Z].
    apply Qfloor_comp. rewrite Hx, Hs. field.
  - transitivity (Qfloor (inject_Z (x + 1))); [|apply Qfloor_Z].
    apply Qfloor_comp. rewrite Hx, Hs, inject_Z_plus. field.
  - transitivity (Qfloor (inject_Z z)); [|apply Qfloor_Z].
    apply Qfloor_comp. rewrite Hz, Hs. field.
  - transitivity (Qfloor (inject_Z (z + 1))); [|apply Qfloor_Z].
    apply Qfloor_comp. rewrite Hz, Hs, inject_Z_plus. field.
Qed.

Lemma centred_indices (p : Plant) (g x z : Z) :
  centredOn p g x z ->
  getOccupiedSoilIndices p g 1
  = cellIndices g [x; (x + 1)%Z] [z; (z + 1)%Z].
Proof.
  intros H. destruct (centred_bounds p g x z H) as (E1 & E2 & E3 & E4).
  unfold getOccupiedSoilIndices, safeFloorToInt, cellIndices. cbv zeta.
  rewrite E1, E2, E3, E4, !loopRange_two. reflexivity.
Qed.

Lemma centred_fraction_own (p : Plant) (g x z : Z) (cell : SoilCell) :
  centredOn p g x z ->
  cell_position cell = mkVector2 (inject_Z x) (inject_Z z) ->
  overlapFractionWithCell p cell g 1 == 1.
Proof.
  intros (Hx & Hz & Hs) Hc. unfold cellCentre in *.
  unfold overlapFractionWithCell, overlapAreaXZ. cbv zeta.
  rewrite Hc. simpl v2x. simpl v2y.
  rewrite !interval_overlap_same by lra.
  transitivity (clampf 1 0 1); [|reflexivity].
  apply clampf_proper; [|reflexivity..].
  rewrite Hs. field.
Qed.

Lemma inject_Z_apart (a b : Z) :
  a <> b ->
  inject_Z a + 1 <= inject_Z b \/ inject_Z b + 1 <= inject_Z a.
Proof.
  intros Hne.
  destruct (Z_lt_le_dec a b) as [Hlt|Hle].
  - left. assert (H : (a + 1 <= b)%Z) by lia.
    rewrite Zle_Qle, inject_Z_plus in H. exact H.
  - right. assert (H : (b + 1 <= a)%Z) by lia.
    rewrite Zle_Qle, inject_Z_plus in H. exact H.
Qed.

Lemma centred_fraction_other (p : Plant) (g x z x' z' : Z)
    (cell : SoilCell) :
  centredOn p g x z ->
  cell_position cell = mkVector2 (inject_Z x') (inject_Z z') ->
  x' <> x \/ z' <> z ->
  overlapFractionWithCell p cell g 1 == 0.
Proof.
  intros (Hx & Hz & Hs) Hc Hne. unfold cellCentre in *.
  unfold overlapFractionWithCell, overlapAreaXZ. cbv zeta.
  rewrite Hc. simpl v2x. simpl v2y.
  transitivity (clampf 0 0 1); [|reflexivity].
  apply clampf_proper; [|reflexivity..].
  destruct Hne as [Hne|Hne]; apply inject_Z_apart in Hne.
  - rewrite (interval_overlap_apart (v3x (position p))) by (destruct Hne; lra).
    field.
  - rewrite (interval_overlap_apart (v3z (position p))) by (destruct Hne; lra).
    field.
Qed.

Lemma cellIndices_single (g x z : Z) :
  (0 <= x < g)%Z -> (0 <= z < g)%Z ->
  cellIndices g [x; (x + 1)%Z] [z; (z + 1)%Z] = [(z * g + x)%Z]
  <-> x = (g - 1)%Z /\ z = (g - 1)%Z.
Proof.
  intros Hx Hz. unfold cellIndices. simpl.
  repeat case_bool_decide; simpl; split; intros Hsingle;
    try lia; try reflexivity; try discriminate Hsingle.
Qed.

(** C6 (as amended).  A plant of footprint size 1 centred on cell [(x, z)]
    of a grid with cell size 1: [getOccupiedSoilIndices] returns the index
    of that cell followed by those of its neighbours at [x + 1] and [z + 1]
    that lie on the grid (so the cell alone only in the last row and
    column); [overlapFractionWithCell] is 1 for the cell and 0 for every
    other cell of the grid. *)
Theorem centred_plant_cells (p : Plant) (g x z : Z) :
  (0 <= x < g)%Z -> (0 <= z < g)%Z ->
  centredOn p g x z ->
  getOccupiedSoilIndices p g 1
    = cellIndices g [x; (x + 1)%Z] [z; (z + 1)%Z] /\
  head (getOccupiedSoilIndices p g 1) = Some (z * g + x)%Z /\
  (getOccupiedSoilIndices p g 1 = [(z * g + x)%Z]
   <-> x = (g - 1)%Z /\ z = (g - 1)%Z) /\
  (forall cell,
     cell_position cell = mkVector2 (inject_Z x) (inject_Z z) ->
     overlapFractionWithCell p cell g 1 == 1) /\
  (forall cell x' z',
     cell_position cell = mkVector2 (inject_Z x') (inject_Z z') ->
     x' <> x \/ z' <> z ->
     overlapFractionWithCell p cell g 1 == 0).
Proof.
  intros Hx Hz Hc.
  pose proof (centred_indices p g x z Hc) as E.
  split; [exact E|]. split; [|split; [|split]].
  - rewrite E. unfold cellIndices. simpl.
    rewrite bool_decide_eq_true_2 by lia. reflexivity.
  - rewrite E. by apply cellIndices_single.
  - intros cell Hpos. by apply (centred_fraction_own p g x z).
  - intros cell x' z' Hpos Hne. by apply (centred_fraction_other p g x z x' z').
Qed.

Lemma centred_plant_cells_witness :
  (0 <= 0 < GRID_SIZE)%Z /\ centredOn cornerPlant GRID_SIZE 0 0 /\
  getOccupiedSoilIndices cornerPlant GRID_SIZE 1 = [0; 40; 1; 41]%Z.
Proof.
  assert (Hr : (0 <= 0 < GRID_SIZE)%Z) by (unfold GRID_SIZE; lia).
  assert (Hc : centredOn cornerPlant GRID_SIZE 0 0)
    by (repeat split; vm_compute; reflexivity).
  split; [exact Hr|]. split; [exact Hc|].
  exact (proj1 (centred_plant_cells cornerPlant GRID_SIZE 0 0 Hr Hr Hc)).
Defined.

(** C6, as first stated, fails: the plant centred on cell 0 of the 40 x 40
    grid is given the four indices 0, 40, 1 and 41. *)
Lemma centred_occupies_one_cell_fails :
  ~ centred_occupies_one_cell cornerPlant GRID_SIZE 0 0.
Proof.
  intros H.
  assert (Hc : centredOn cornerPlant GRID_SIZE 0 0)
    by (repeat split; vm_compute; reflexivity).
  specialize (H Hc). vm_compute in H. discriminate H.
Qed.

(** ** Size *)

Lemma grow_growthRate (p : Plant) (e : Env) (g : Z) (c lf hs : Q) :
  growthRate (grow p e g c lf hs).1 = growthRate p.
Proof.
  destruct (alive p) eqn:Halive.
  - destruct (Qeq_bool_cases (totalOverlap (scanCells p (soil e) g c)) 0)
      as [[_ H0] | [_ Hne]].
    + by rewrite grow_zero_overlap.
    + by rewrite grow_full_path.
  - by rewrite grow_dead.
Qed.

Lemma grow_size_full (p : Plant) (e : Env) (g : Z) (c lf hs : Q) :
  alive p = true ->
  ~ totalOverlap (scanCells p (soil e) g c) == 0 ->
  size (grow p e g c lf hs).1
  = std_max (1 # 5) (size p + delta p (scanCells p (soil e) g c) lf).
Proof. intros Halive Hne. by rewrite grow_full_path. Qed.

Lemma delta_pos (p : Plant) (sc : Scan) (lf : Q) :
  0 < growthRate p -> 0 < delta p sc lf.
Proof. intros H. unfold delta. qcases; lra. Qed.

Lemma grow_size_mono (p : Plant) (e : Env) (g : Z) (c lf hs : Q) :
  0 < growthRate p -> size p <= size (grow p e g c lf hs).1.
Proof.
  intros Hrate.
  destruct (alive p) eqn:Halive.
  - destruct (Qeq_bool_cases (totalOverlap (scanCells p (soil e) g c)) 0)
      as [[_ H0] | [_ Hne]].
    + rewrite grow_zero_overlap by assumption. simpl. lra.
    + rewrite grow_size_full by assumption.
      pose proof (delta_pos p (scanCells p (soil e) g c) lf Hrate).
      pose proof (std_max_upper (1 # 5)
                    (size p + delta p (scanCells p (soil e) g c) lf)).
      lra.
  - rewrite grow_dead by assumption. simpl. lra.
Qed.

Lemma growAt_size_mono (i j : nat) (lf : Q) (st : list Plant * Env)
    (p0 : Plant) :
  0 < growthRate p0 ->
  (exists p, st.1 !! i = Some p /\ size p0 <= size p
             /\ growthRate p = growthRate p0) ->
  exists p, (growAt j lf st).1 !! i = Some p /\ size p0 <= size p
            /\ growthRate p = growthRate p0.
Proof.
  intros Hrate (p & Hi & Hsz & Hr). unfold growAt.
  destruct (st.1 !! j) as [q|] eqn:Hj; [|by exists p].
  simpl. destruct (decide (j = i)) as [->|Hne].
  - assert (q = p) as -> by congruence.
    exists (grow p st.2 GRID_SIZE CELL_SIZE lf HEIGHT_SCALE).1.
    split; [|split].
    + apply list_lookup_insert_eq. by eapply lookup_lt_Some.
    + pose proof (grow_size_mono p st.2 GRID_SIZE CELL_SIZE lf HEIGHT_SCALE)
        as Hm. rewrite Hr in Hm. specialize (Hm Hrate). lra.
    + by rewrite grow_growthRate.
  - exists p. by rewrite list_lookup_insert_ne.
Qed.

Lemma simulate_size_mono (n : nat) (plants : list Plant)
    (s : list SoilCell) (i : nat) (p0 : Plant) :
  0 < growthRate p0 ->
  (exists p, plants !! i = Some p /\ size p0 <= size p
             /\ growthRate p = growthRate p0) ->
  exists p, (simulate n plants s).1 !! i = Some p /\ size p0 <= size p
            /\ growthRate p = growthRate p0.
Proof.
  intros Hrate. revert plants s.
  induction n as [|n IH]; intros plants s H; [exact H|].
  simpl. apply IH. unfold frame, frameInOrder, growInOrder.
  apply (fold_left_invariant
           (fun st => exists p, st.1 !! i = Some p /\ size p0 <= size p
                                /\ growthRate p = growthRate p0)).
  - intros a b. by apply growAt_size_mono.
  - exact H.
Qed.

(** C10 (the claim as stated fails on [float]).  In binary32 a positive
    growth rate does not make the size strictly larger: with growth rate
    [0.01f] and negative net energy a size of 600 is returned unchanged
    although the delta is positive, a size of 4096 is returned unchanged
    whatever the sign of the net energy, a size of 1 is returned unchanged
    for the growth rate [0.00001f], and for the smallest positive growth
    rate the delta itself is 0. *)
Lemma size_strictly_increases_fails :
  b32_ltb (b32_of_Z 0) (b32_lit 1 100) = true /\
  b32_delta_positive (b32_lit 1 100) false /\
  b32_grow_size (b32_of_Z 600) (b32_lit 1 100) false = b32_of_Z 600 /\
  ~ b32_size_increases (b32_of_Z 600) (b32_lit 1 100) false /\
  ~ b32_size_increases (b32_of_Z 4096) (b32_lit 1 100) true /\
  ~ b32_size_increases (b32_of_Z 4096) (b32_lit 1 100) false /\
  b32_ltb (b32_of_Z 0) (b32_lit 1 100000) = true /\
  ~ b32_size_increases (b32_of_Z 1) (b32_lit 1 100000) false /\
  b32_ltb (b32_of_Z 0) b32_min_positive = true /\
  ~ b32_delta_positive b32_min_positive true.
Proof.
  unfold b32_delta_positive, b32_size_increases.
  repeat split; try (vm_compute; reflexivity);
    vm_compute; discriminate.
Qed.

(** C10 (as amended).  With [growthRate > 0], a [grow] call on a live plant
    with non-zero total overlap has a growth delta that is not negative and
    leaves the size at least what it was; when the size was at least 0.2 the
    new size is [size + delta], the floor of 0.2 not binding.  No [grow]
    call makes the size smaller, so the size of a plant never decreases over
    any number of frames.  For a growth rate of at least 0.005 and a size of
    at most 64, which covers the plants [main] constructs, the delta is
    strictly positive and the size strictly increases. *)
Theorem size_never_shrinks (p : Plant) :
  0 < growthRate p ->
  (forall e g c lf hs,
     alive p = true ->
     ~ totalOverlap (scanCells p (soil e) g c) == 0 ->
     let d := delta p (scanCells p (soil e) g c) lf in
     0 <= d /\
     size p <= size (grow p e g c lf hs).1 /\
     (1 # 5 <= size p -> size (grow p e g c lf hs).1 = size p + d)) /\
  (forall e g c lf hs, size p <= size (grow p e g c lf hs).1) /\
  (forall n plants s i,
     plants !! i = Some p ->
     exists p', (simulate n plants s).1 !! i = Some p' /\ size p <= size p') /\
  (1 # 200 <= growthRate p -> size p <= 64 ->
   forall e g c lf hs,
     alive p = true ->
     ~ totalOverlap (scanCells p (soil e) g c) == 0 ->
     0 < delta p (scanCells p (soil e) g c) lf /\
     size p < size (grow p e g c lf hs).1).
Proof.
  intros Hrate. split; [|split; [|split]].
  - intros e g c lf hs Halive Hne d.
    pose proof (delta_pos p (scanCells p (soil e) g c) lf Hrate) as Hd.
    fold d in Hd. rewrite grow_size_full by assumption. fold d.
    split; [lra|]. split.
    + pose proof (std_max_upper (1 # 5) (size p + d)). lra.
    + intros Hfloor.
      destruct (std_max_cases (1 # 5) (size p + d)) as [[_ E] | [Hle _]];
        [exact E|lra].
  - intros. by apply grow_size_mono.
  - intros n plants s i Hi.
    destruct (simulate_size_mono n plants s i p Hrate) as (p' & H1 & H2 & _).
    + exists p. split; [exact Hi|]. split; [lra|reflexivity].
    + by exists p'.
  - intros _ _ e g c lf hs Halive Hne.
    pose proof (delta_pos p (scanCells p (soil e) g c) lf Hrate) as Hd.
    split; [exact Hd|].
    rewrite grow_size_full by assumption.
    pose proof (std_max_upper (1 # 5)
                  (size p + delta p (scanCells p (soil e) g c) lf)).
    lra.
Qed.

Lemma size_never_shrinks_witness :
  0 < growthRate samplePlant /\
  1 # 200 <= growthRate samplePlant /\ size samplePlant <= 64 /\
  alive samplePlant = true /\
  ~ totalOverlap (scanCells samplePlant sampleSoil GRID_SIZE CELL_SIZE) == 0 /\
  size samplePlant
  < size (grow samplePlant (mkEnv sampleSoil ∅ ∅) GRID_SIZE CELL_SIZE 1
            HEIGHT_SCALE).1.
Proof.
  assert (H : 0 < growthRate samplePlant) by (vm_compute; reflexivity).
  assert (Hr : 1 # 200 <= growthRate samplePlant)
    by (vm_compute; discriminate).
  assert (Hs : size samplePlant <= 64) by (vm_compute; discriminate).
  assert (Hne : ~ totalOverlap
                    (scanCells samplePlant sampleSoil GRID_SIZE CELL_SIZE)
                  == 0)
    by (vm_compute; discriminate).
  split; [exact H|]. split; [exact Hr|]. split; [exact Hs|].
  split; [reflexivity|]. split; [exact Hne|].
  destruct (proj2 (proj2 (proj2 (size_never_shrinks samplePlant H))) Hr Hs
              (mkEnv sampleSoil ∅ ∅) GRID_SIZE CELL_SIZE 1 HEIGHT_SCALE
              eq_refl Hne) as [_ Hlt].
  exact Hlt.
Defined.

(** ** Starvation *)

Lemma production_dark (p : Plant) (sc : Scan) : production p sc 0 == 0.
Proof. unfold production. cbv zeta. ring. Qed.

Lemma maintenance_lower (p : Plant) : viable p -> 1 # 5 <= maintenance p.
Proof.
  intros (Hage & Hmax & Hsz & Hbase & Hper & _). unfold maintenance.
  cbv zeta.
  assert (H1 : 0 <= maintenancePerSize p * size p)
    by (by apply Qmult_le_0_compat).
  assert (H2 : 0 <= age p / maxAge p).
  { apply Qle_shift_div_l; [exact Hmax|]. lra. }
  lra.
Qed.

Lemma netEnergy_dark (p : Plant) (sc : Scan) :
  viable p -> netEnergy p sc 0 <= - (1 # 5).
Proof.
  intros Hv. unfold netEnergy.
  pose proof (production_dark p sc). pose proof (maintenance_lower p Hv).
  lra.
Qed.

Lemma grow_health_full (p : Plant) (e : Env) (g : Z) (c lf hs : Q) :
  alive p = true ->
  ~ totalOverlap (scanCells p (soil e) g c) == 0 ->
  health (grow p e g c lf hs).1
  = clampf (health p
            + netEnergy p (scanCells p (soil e) g c) lf * (1 # 1000)
            - (1 # 2000)) 0 1.
Proof. intros Halive Hne. by rewrite grow_full_path. Qed.

Lemma clampf_unit_cases (v : Q) :
  (v <= 0 /\ clampf v 0 1 == 0) \/
  (0 < v <= 1 /\ clampf v 0 1 == v) \/
  (1 < v /\ clampf v 0 1 == 1).
Proof.
  unfold clampf.
  destruct (std_min_cases v 1) as [[? ->] | [? ->]].
  - right. right. split; [lra|reflexivity].
  - destruct (std_max_cases 0 v) as [[? ->] | [? ->]].
    + right. left. split; [lra|reflexivity].
    + left. split; [lra|reflexivity].
Qed.

Lemma grow_viable (p : Plant) (e : Env) (g : Z) (c lf hs : Q) :
  viable p -> viable (grow p e g c lf hs).1.
Proof.
  intros Hv. pose proof Hv as (Hage & Hmax & Hsz & Hbase & Hper & Hh).
  destruct (alive p) eqn:Halive.
  - destruct (Qeq_bool_cases (totalOverlap (scanCells p (soil e) g c)) 0)
      as [[_ H0] | [_ Hne]].
    + rewrite grow_zero_overlap by assumption.
      unfold viable. simpl. repeat split; try assumption; lra.
    + rewrite grow_full_path by assumption. cbv zeta.
      unfold viable. simpl. repeat split; try assumption.
      * lra.
      * pose proof (std_max_lower (1 # 5)
                      (size p + delta p (scanCells p (soil e) g c) lf)).
        lra.
      * apply clampf_range. lra.
  - by rewrite grow_dead.
Qed.

(** One starved frame. *)
Lemma starved_step (p : Plant) (e : Env) (g : Z) (c hs : Q) :
  viable p -> alive p = true ->
  ~ totalOverlap (scanCells p (soil e) g c) == 0 ->
  let p' := (grow p e g c 0 hs).1 in
  0 <= health p' /\
  (health p' <= health p - minDecay \/ health p' <= 0) /\
  (0 < health p -> health p' < health p) /\
  alive p' = aliveSpec p'.
Proof.
  intros Hv Halive Hne p'. subst p'.
  pose proof (netEnergy_dark p (scanCells p (soil e) g c) Hv) as Hnet.
  pose proof Hv as (_ & _ & _ & _ & _ & Hh).
  rewrite (grow_alive_recomputed p e g c 0 hs Halive Hne).
  rewrite grow_health_full by assumption.
  set (v := health p
            + netEnergy p (scanCells p (soil e) g c) 0 * (1 # 1000)
            - (1 # 2000)).
  assert (Hv' : v <= health p - minDecay) by (unfold v, minDecay; lra).
  assert (Hd : 0 < minDecay) by reflexivity.
  destruct (clampf_unit_cases v) as [[? E] | [[? E] | [? E]]];
    repeat split; try reflexivity; try (intros; lra); try lra.
Qed.

Lemma starved_health (n : nat) (p : Plant) (e : Env) (g : Z) (c hs : Q) :
  viable p -> starved n p e g c hs ->
  let p' := (starve n p e g c hs).1 in
  viable p' /\
  (health p' <= health p - inject_Z (Z.of_nat n) * minDecay
   \/ health p' <= 0) /\
  ((0 < n)%nat -> alive p' = aliveSpec p').
Proof.
  revert p e. induction n as [|n IH]; intros p e Hv Hst p'; subst p'.
  - simpl starve. simpl fst. split; [exact Hv|].
    split; [left; change (inject_Z (Z.of_nat 0)) with 0; lra|lia].
  - destruct Hst as (Halive & Hne & Hst). simpl starve.
    destruct (starved_step p e g c hs Hv Halive Hne)
      as (Hnn & Hdec & _ & Hflag).
    pose proof (grow_viable p e g c 0 hs Hv) as Hv1.
    destruct (IH _ _ Hv1 Hst) as (Hv' & Hh' & Hf').
    split; [exact Hv'|]. split.
    + rewrite Nat2Z.inj_succ, <- Z.add_1_r, inject_Z_plus.
      assert (Hn : 0 <= inject_Z (Z.of_nat n)).
      { change 0 with (inject_Z 0). rewrite <- Zle_Qle. lia. }
      assert (Hd : 0 < minDecay) by reflexivity.
      assert (Hnd : 0 <= inject_Z (Z.of_nat n) * minDecay)
        by (apply Qmult_le_0_compat; lra).
      change (inject_Z 1) with 1.
      destruct Hh' as [Hh'|Hh']; [|right; exact Hh'].
      destruct Hdec as [Hdec|Hdec]; [left; lra|right; lra].
    + intros _. destruct n as [|n]; [exact Hflag|apply Hf'; lia].
Qed.

Lemma starved_or_stopped (n : nat) (p : Plant) (e : Env) (g : Z)
    (c hs : Q) :
  starved n p e g c hs \/
  exists k, (k < n)%nat /\
    (alive (starve k p e g c hs).1 = false \/
     totalOverlap (scanCells (starve k p e g c hs).1
                             (soil (starve k p e g c hs).2) g c) == 0).
Proof.
  revert p e. induction n as [|n IH]; intros p e; [by left|].
  destruct (alive p) eqn:Halive;
    [|right; exists O; split; [lia|left; exact Halive]].
  destruct (Qeq_bool_cases (totalOverlap (scanCells p (soil e) g c)) 0)
    as [[_ H0] | [_ Hne]];
    [right; exists O; split; [lia|right; exact H0]|].
  destruct (IH (grow p e g c 0 hs).1 (grow p e g c 0 hs).2)
    as [Hst | (k & Hk & Hstop)].
  - left. by repeat split.
  - right. exists (S k). split; [lia|exact Hstop].
Qed.

(** C9.  A plant updated with light factor 0 has production 0 and a
    negative net energy (at most -0.2).  On each such frame that finds it
    alive with non-zero overlap its health strictly decreases, by at least
    [baseMaintenance * 0.001 + 0.0005] unless it reaches 0, and with health
    0 the plant is no longer alive.  So among the first 1429 frames there
    is one that finds the plant dead (or a frame with zero overlap, which
    does not touch health). *)
Theorem starvation_death (p : Plant) (e : Env) (g : Z) (c hs : Q) :
  viable p ->
  (alive p = true -> 0 < health p ->
   ~ totalOverlap (scanCells p (soil e) g c) == 0 ->
   let sc := scanCells p (soil e) g c in
   let p' := (grow p e g c 0 hs).1 in
   production p sc 0 == 0 /\ netEnergy p sc 0 < 0 /\
   health p' < health p /\
   (health p' <= health p - minDecay \/ health p' == 0) /\
   (health p' == 0 -> alive p' = false)) /\
  (exists k, (k <= starvationBound)%nat /\
     (alive (starve k p e g c hs).1 = false \/
      totalOverlap (scanCells (starve k p e g c hs).1
                              (soil (starve k p e g c hs).2) g c) == 0)).
Proof.
  intros Hv. split.
  - intros Halive Hh Hne sc p'.
    destruct (starved_step p e g c hs Hv Halive Hne)
      as (Hnn & Hdec & Hlt & Hflag).
    fold p' in Hnn, Hdec, Hlt, Hflag.
    split; [apply production_dark|].
    split; [pose proof (netEnergy_dark p sc Hv); lra|].
    split; [by apply Hlt|]. split.
    + destruct Hdec as [?|?]; [by left|right; lra].
    + intros H0. rewrite Hflag. unfold aliveSpec.
      assert (E : Qltb 0 (health p') = false) by (apply Qltb_false; lra).
      by rewrite E.
  - destruct (starved_or_stopped starvationBound p e g c hs)
      as [Hst | (k & Hk & Hstop)].
    + exists starvationBound. split; [lia|]. left.
      destruct (starved_health starvationBound p e g c hs Hv Hst)
        as (Hv' & Hh' & Hflag).
      rewrite Hflag by (unfold starvationBound; lia).
      unfold aliveSpec.
      assert (E : Qltb 0 (health (starve starvationBound p e g c hs).1)
                  = false).
      { apply Qltb_false.
        destruct Hh' as [Hh'|Hh']; [|exact Hh'].
        destruct Hv as (_ & _ & _ & _ & _ & Hle).
        assert (Hb : 1 - inject_Z (Z.of_nat starvationBound) * minDecay <= 0)
          by (vm_compute; discriminate).
        lra. }
      by rewrite E.
    + exists k. split; [lia|exact Hstop].
Qed.

Lemma newPlant_viable (i : Z) (pos : Vector3) (s rate : Q) (rnd : Z) :
  0 <= s -> (0 <= rnd)%Z -> viable (newPlant i pos s rate rnd).
Proof.
  intros Hs Hrnd. unfold viable. simpl.
  assert (H : 0 <= inject_Z rnd).
  { change 0 with (inject_Z 0). by rewrite <- Zle_Qle. }
  repeat split; lra.
Qed.

Lemma starvation_death_witness :
  viable samplePlant /\
  exists k, (k <= starvationBound)%nat /\
    (alive (starve k samplePlant (mkEnv sampleSoil ∅ ∅) GRID_SIZE CELL_SIZE
              HEIGHT_SCALE).1 = false \/
     totalOverlap
       (scanCells (starve k samplePlant (mkEnv sampleSoil ∅ ∅) GRID_SIZE
                     CELL_SIZE HEIGHT_SCALE).1
                  (soil (starve k samplePlant (mkEnv sampleSoil ∅ ∅)
                           GRID_SIZE CELL_SIZE HEIGHT_SCALE).2)
                  GRID_SIZE CELL_SIZE) == 0).
Proof.
  assert (Hv : viable samplePlant)
    by (repeat split; vm_compute; first [reflexivity | discriminate]).
  split; [exact Hv|].
  exact (proj2 (starvation_death samplePlant (mkEnv sampleSoil ∅ ∅)
                  GRID_SIZE CELL_SIZE HEIGHT_SCALE Hv)).
Defined.

(** ** Light factors and the frame loop *)

Lemma lightFactors_length (plants : list Plant) :
  length (lightFactors plants) = length plants.
Proof. unfold lightFactors. apply length_map. Qed.

Lemma map_lookup_some {A B : Type} (f : A -> B) (l : list A) (i : nat)
    (a : A) :
  l !! i = Some a -> map f l !! i = Some (f a).
Proof.
  revert i. induction l as [|x l IH]; intros i H; [discriminate H|].
  destruct i as [|i]; simpl in *; [congruence|by apply IH].
Qed.

Lemma nth_map_lookup {A : Type} (f : A -> Q) (l : list A) (i : nat) :
  nth i (map f l) 0 = match l !! i with Some a => f a | None => 0 end.
Proof.
  revert i. induction l as [|x l IH]; intros i; destruct i as [|i];
    simpl; try reflexivity. apply IH.
Qed.

Lemma fold_left_ext_fun {A B : Type} (f h : A -> B -> A) (l : list B)
    (a : A) :
  (forall a b, f a b = h a b) -> fold_left f l a = fold_left h l a.
Proof.
  intros E. revert a. induction l as [|b l IH]; intros a; simpl;
    [reflexivity|]. by rewrite E, IH.
Qed.

Lemma growInOrder_snapshot (order : list nat) (plants : list Plant)
    (st : list Plant * Env) :
  growInOrder order (lightFactors plants) st
  = fold_left (fun st i => growAt i (snapshotLight plants i) st) order st.
Proof.
  unfold growInOrder. apply fold_left_ext_fun. intros a i.
  unfold lightFactors, snapshotLight. by rewrite nth_map_lookup.
Qed.

(** C1.  The vector of light factors of a frame is a function of the plant
    collection as it stands at the start of the frame: entry [i] is
    [calculateLight] of plant [i] against that collection.  It is filled
    before the growth loop, so in whatever order the [grow] updates are
    then applied, and whatever they have already changed, the update of
    plant [i] receives the light factor of the snapshot; the frame of
    [main] is the instance with the order [0, 1, ..., n-1]. *)
Theorem light_factors_from_snapshot (plants : list Plant)
    (s : list SoilCell) :
  length (lightFactors plants) = length plants /\
  (forall i p,
     plants !! i = Some p ->
     lightFactors plants !! i = Some (calculateLight p plants)) /\
  (forall order,
     frameInOrder order plants s
     = fold_left (fun st i => growAt i (snapshotLight plants i) st) order
         (plants, mkEnv s ∅ ∅)) /\
  (forall order (st : list Plant * Env) i,
     growInOrder (i :: order) (lightFactors plants) st
     = growInOrder order (lightFactors plants)
         (growAt i (snapshotLight plants i) st)) /\
  frame plants s = frameInOrder (seq 0 (length plants)) plants s.
Proof.
  split; [apply lightFactors_length|]. split; [|split; [|split]].
  - intros i p Hi. unfold lightFactors.
    by apply (map_lookup_some (fun p => calculateLight p plants)).
  - intros order. unfold frameInOrder. apply growInOrder_snapshot.
  - intros order st i. unfold growInOrder. simpl.
    unfold lightFactors, snapshotLight. by rewrite nth_map_lookup.
  - reflexivity.
Qed.

(** Why the snapshot matters: the twins do not shade each other when the
    frame starts, but once the first has grown its canopy is the higher
    one, and a light factor computed then for the second would be lower
    than the one the frame uses. *)
Example light_after_growth_differs :
  let r := growAt 0 (snapshotLight [twinA; twinB] 0)
             ([twinA; twinB], mkEnv sampleSoil ∅ ∅) in
  snapshotLight [twinA; twinB] 1 == 1 /\ snapshotLight r.1 1 < 1.
Proof. vm_compute. split; reflexivity. Qed.

(** * Further properties of the engine *)

(** ** [clampf] *)

(** X1.  [clampf(v, a, b)] with [a <= b] is [a] below the range, [v] inside
    it and [b] above it; in particular it is the identity on [[a, b]] and
    clamping twice is clamping once.  With the bounds the wrong way round
    ([b < a]) the result is [a] whatever [v] is. *)
Theorem clampf_piecewise (v a b : Q) :
  (a <= b ->
   (v < a -> clampf v a b == a) /\
   (a <= v <= b -> clampf v a b == v) /\
   (b < v -> clampf v a b == b) /\
   clampf (clampf v a b) a b == clampf v a b) /\
  (b < a -> clampf v a b == a).
Proof.
  unfold clampf. split.
  - intros Hab. repeat split.
    + intros H.
      destruct (std_min_cases v b) as [[? ->] | [? ->]];
        match goal with
        | |- context [std_max ?x ?y] =>
            destruct (std_max_cases x y) as [[? ->] | [? ->]]
        end; lra.
    + intros [H1 H2].
      destruct (std_min_cases v b) as [[? ->] | [? ->]];
        match goal with
        | |- context [std_max ?x ?y] =>
            destruct (std_max_cases x y) as [[? ->] | [? ->]]
        end; lra.
    + intros H.
      destruct (std_min_cases v b) as [[? ->] | [? ->]];
        match goal with
        | |- context [std_max ?x ?y] =>
            destruct (std_max_cases x y) as [[? ->] | [? ->]]
        end; lra.
    + pose proof (clampf_range v a b Hab) as [Hlo Hhi]. unfold clampf in *.
      set (w := std_max a (std_min v b)) in *.
      destruct (std_min_cases w b) as [[? ->] | [? ->]];
        match goal with
        | |- context [std_max ?x ?y] =>
            destruct (std_max_cases x y) as [[? ->] | [? ->]]
        end; lra.
  - intros Hba.
    destruct (std_min_cases v b) as [[? ->] | [? ->]];
      match goal with
      | |- context [std_max ?x ?y] =>
          destruct (std_max_cases x y) as [[? ->] | [? ->]]
      end; lra.
Qed.

(** ** [overlapAreaXZ] *)

Lemma std_max_comm (a b : Q) : std_max a b == std_max b a.
Proof.
  destruct (std_max_cases a b) as [[? ->] | [? ->]];
    destruct (std_max_cases b a) as [[? ->] | [? ->]]; lra.
Qed.

Lemma std_min_comm (a b : Q) : std_min a b == std_min b a.
Proof.
  destruct (std_min_cases a b) as [[? ->] | [? ->]];
    destruct (std_min_cases b a) as [[? ->] | [? ->]]; lra.
Qed.

Lemma overlapAreaXZ_swap (ax az ah bx bz bh : Q) :
  overlapAreaXZ ax az ah bx bz bh == overlapAreaXZ bx bz bh ax az ah.
Proof.
  unfold overlapAreaXZ. cbv zeta.
  rewrite (std_min_comm (ax + ah)), (std_max_comm (ax - ah)),
          (std_min_comm (az + ah)), (std_max_comm (az - ah)).
  reflexivity.
Qed.

(** X2.  The overlap area does not depend on which of the two squares is
    given first. *)
Theorem overlapAreaXZ_sym (ax az ah bx bz bh : Q) :
  overlapAreaXZ ax az ah bx bz bh == overlapAreaXZ bx bz bh ax az ah.
Proof. apply overlapAreaXZ_swap. Qed.

(** The width of the intersection of two intervals is between 0 and the
    width of the first. *)
Lemma interval_overlap_width (a h b k : Q) :
  0 <= h ->
  0 <= std_max 0 (std_min (a + h) (b + k) - std_max (a - h) (b - k))
    <= 2 * h.
Proof.
  intros Hh.
  destruct (std_min_cases (a + h) (b + k)) as [[? ->] | [? ->]];
    destruct (std_max_cases (a - h) (b - k)) as [[? ->] | [? ->]];
    match goal with
    | |- context [std_max 0 ?x] =>
        destruct (std_max_cases 0 x) as [[? ->] | [? ->]]
    end; lra.
Qed.

Lemma overlapAreaXZ_le_first (ax az ah bx bz bh : Q) :
  overlapAreaXZ ax az ah bx bz bh <= (2 * ah) * (2 * ah).
Proof.
  destruct (Qlt_le_dec 0 (overlapAreaXZ ax az ah bx bz bh)) as [Hpos|Hle].
  - pose proof (overlapAreaXZ_pos_half _ _ _ _ _ _ Hpos) as Hah.
    unfold overlapAreaXZ in *. cbv zeta in *.
    assert (Hh : 0 <= ah) by lra.
    pose proof (interval_overlap_width ax ah bx bh Hh) as [Hx0 Hx1].
    pose proof (interval_overlap_width az ah bz bh Hh) as [Hz0 Hz1].
    set (ix := std_max 0 (std_min (ax + ah) (bx + bh)
                          - std_max (ax - ah) (bx - bh))) in *.
    set (iz := std_max 0 (std_min (az + ah) (bz + bh)
                          - std_max (az - ah) (bz - bh))) in *.
    nra.
  - assert (0 <= (2 * ah) * (2 * ah)) by nra. lra.
Qed.


(** X4.  Two squares whose extents along X, or along Z, are disjoint or
    only share an edge have overlap area 0. *)
Theorem overlapAreaXZ_apart (ax az ah bx bz bh : Q) :
  ax + ah <= bx - bh \/ bx + bh <= ax - ah \/
  az + ah <= bz - bh \/ bz + bh <= az - ah ->
  overlapAreaXZ ax az ah bx bz bh == 0.
Proof.
  intros H. unfold overlapAreaXZ. cbv zeta.
  destruct H as [H|[H|[H|H]]].
  - rewrite (interval_overlap_apart ax ah bx bh) by (left; exact H). ring.
  - rewrite (interval_overlap_apart ax ah bx bh) by (right; exact H). ring.
  - rewrite (interval_overlap_apart az ah bz bh) by (left; exact H). ring.
  - rewrite (interval_overlap_apart az ah bz bh) by (right; exact H). ring.
Qed.

Lemma overlapAreaXZ_apart_witness :
  (0 + (1 # 2) <= 1 - (1 # 2) \/ 1 + (1 # 2) <= 0 - (1 # 2) \/
   0 + (1 # 2) <= 0 - (1 # 2) \/ 0 + (1 # 2) <= 0 - (1 # 2)) /\
  overlapAreaXZ 0 0 (1 # 2) 1 0 (1 # 2) == 0.
Proof.
  assert (H : 0 + (1 # 2) <= 1 - (1 # 2) \/ 1 + (1 # 2) <= 0 - (1 # 2) \/
              0 + (1 # 2) <= 0 - (1 # 2) \/ 0 + (1 # 2) <= 0 - (1 # 2))
    by (left; vm_compute; discriminate).
  split; [exact H|].
  exact (overlapAreaXZ_apart 0 0 (1 # 2) 1 0 (1 # 2) H).
Defined.

Lemma clampf_piecewise_witness :
  0 <= 1 /\ clampf (clampf (3 # 2) 0 1) 0 1 == clampf (3 # 2) 0 1.
Proof.
  assert (H : 0 <= 1) by (vm_compute; discriminate).
  split; [exact H|].
  exact (proj2 (proj2 (proj2 (proj1 (clampf_piecewise (3 # 2) 0 1) H)))).
Defined.

(** ** [getOccupiedSoilIndices] *)

Lemma loopRange_elem (lo hi k : Z) :
  k ∈ loopRange lo hi <-> (lo <= k /\ k <= hi)%Z.
Proof. unfold loopRange. rewrite elem_of_seqZ. lia. Qed.

Lemma occupied_index_elem (p : Plant) (g : Z) (c : Q) (idx : Z) :
  idx ∈ getOccupiedSoilIndices p g c <->
  exists x z, inFootprintRange p g c x z /\ onGrid g x z
              /\ idx = (z * g + x)%Z.
Proof.
  unfold getOccupiedSoilIndices, inFootprintRange, onGrid,
         footprintLo, footprintHi. cbv zeta.
  rewrite list_elem_of_bind. split.
  - intros (x & Hin & Hx). apply list_elem_of_bind in Hin.
    destruct Hin as (z & Hin & Hz).
    apply loopRange_elem in Hx. apply loopRange_elem in Hz.
    case_bool_decide as Hg; [|by apply not_elem_of_nil in Hin].
    apply list_elem_of_singleton in Hin.
    exists x, z. split; [lia|]. split; [exact Hg|exact Hin].
  - intros (x & z & Hr & Hg & ->).
    exists x. split; [|apply loopRange_elem; lia].
    apply list_elem_of_bind. exists z. split; [|apply loopRange_elem; lia].
    rewrite bool_decide_eq_true_2 by exact Hg.
    by apply list_elem_of_singleton.
Qed.

(** X5.  [getOccupiedSoilIndices] returns exactly the encodings
    [z * gridSize + x] of the grid coordinates within the bounding range of
    the footprint: candidates off the grid are dropped, every other one is
    returned. *)
Theorem getOccupiedSoilIndices_elem (p : Plant) (g : Z) (c : Q) (idx : Z) :
  idx ∈ getOccupiedSoilIndices p g c <->
  exists x z, inFootprintRange p g c x z /\ onGrid g x z
              /\ idx = (z * g + x)%Z.
Proof. apply occupied_index_elem. Qed.

Lemma occupied_index_range (p : Plant) (g : Z) (c : Q) (idx : Z) :
  idx ∈ getOccupiedSoilIndices p g c -> (0 <= idx < g * g)%Z.
Proof.
  intros H. apply occupied_index_elem in H.
  destruct H as (x & z & _ & (Hx0 & Hx1 & Hz0 & Hz1) & ->). nia.
Qed.

(** X6.  Every index returned lies in [0, gridSize * gridSize): the reads
    and writes [soil[idx]] of [grow] stay inside a grid of
    [gridSize * gridSize] cells. *)
Theorem getOccupiedSoilIndices_range (p : Plant) (g : Z) (c : Q) (idx : Z) :
  idx ∈ getOccupiedSoilIndices p g c -> (0 <= idx < g * g)%Z.
Proof. apply occupied_index_range. Qed.

Lemma cell_index_inj (g x z x' z' : Z) :
  onGrid g x z -> onGrid g x' z' ->
  (z * g + x)%Z = (z' * g + x')%Z -> x = x' /\ z = z'.
Proof.
  intros (Hx0 & Hx1 & Hz0 & Hz1) (Hx0' & Hx1' & Hz0' & Hz1') E.
  assert (z = z') by nia. subst. lia.
Qed.

Lemma cell_candidate_elem (g x z y : Z) :
  y ∈ (if bool_decide (0 ≤ x ∧ x < g ∧ 0 ≤ z ∧ z < g)%Z
       then [(z * g + x)%Z] else []) ->
  onGrid g x z /\ y = (z * g + x)%Z.
Proof.
  intros H. case_bool_decide as G; [|by apply not_elem_of_nil in H].
  apply list_elem_of_singleton in H. by split.
Qed.

Lemma occupied_index_NoDup (p : Plant) (g : Z) (c : Q) :
  NoDup (getOccupiedSoilIndices p g c).
Proof.
  unfold getOccupiedSoilIndices. cbv zeta.
  apply NoDup_bind; [| |apply NoDup_seqZ].
  - intros x1 x2 y _ _ H1 H2.
    apply list_elem_of_bind in H1. destruct H1 as (z1 & H1 & _).
    apply list_elem_of_bind in H2. destruct H2 as (z2 & H2 & _).
    apply cell_candidate_elem in H1. destruct H1 as [G1 ->].
    apply cell_candidate_elem in H2. destruct H2 as [G2 E].
    by destruct (cell_index_inj g x1 z1 x2 z2 G1 G2 E).
  - intros x _. apply NoDup_bind; [| |apply NoDup_seqZ].
    + intros z1 z2 y _ _ H1 H2.
      apply cell_candidate_elem in H1. destruct H1 as [G1 ->].
      apply cell_candidate_elem in H2. destruct H2 as [G2 E].
      by destruct (cell_index_inj g x z1 x z2 G1 G2 E).
    + intros z _. case_bool_decide; [apply NoDup_singleton|apply NoDup_nil_2].
Qed.

(** X7.  No index is returned twice, so a [grow] call visits each soil cell
    at most once. *)
Theorem getOccupiedSoilIndices_NoDup (p : Plant) (g : Z) (c : Q) :
  NoDup (getOccupiedSoilIndices p g c).
Proof. apply occupied_index_NoDup. Qed.

Lemma getOccupiedSoilIndices_range_witness :
  0%Z ∈ getOccupiedSoilIndices cornerPlant GRID_SIZE 1 /\
  (0 <= 0 < GRID_SIZE * GRID_SIZE)%Z.
Proof.
  assert (H : 0%Z ∈ getOccupiedSoilIndices cornerPlant GRID_SIZE 1)
    by (apply (bool_decide_unpack _); vm_compute; exact I).
  split; [exact H|].
  exact (getOccupiedSoilIndices_range cornerPlant GRID_SIZE 1 0 H).
Defined.

(** Floor of a scalar against integer bounds. *)
Lemma Qfloor_ge (k : Z) (v : Q) : inject_Z k <= v -> (k <= Qfloor v)%Z.
Proof.
  intros H. apply Qfloor_resp_le in H. by rewrite Qfloor_Z in H.
Qed.

Lemma Qfloor_lt (k : Z) (v : Q) : v < inject_Z k -> (Qfloor v < k)%Z.
Proof.
  intros H. rewrite Zlt_Qlt. pose proof (Qfloor_le v). lra.
Qed.

(** X8.  With a positive cell size, a footprint whose low edge is at or
    beyond the far side of the grid, or whose high edge is before the near
    side, along X or along Z, occupies no index at all. *)
Theorem getOccupiedSoilIndices_off_grid (p : Plant) (g : Z) (c : Q) :
  0 < c ->
  (let halfGrid := inject_Z g * (1 # 2) in
   inject_Z g * c <= v3x (position p) - size p * (1 # 2) + halfGrid \/
   v3x (position p) + size p * (1 # 2) + halfGrid < 0 \/
   inject_Z g * c <= v3z (position p) - size p * (1 # 2) + halfGrid \/
   v3z (position p) + size p * (1 # 2) + halfGrid < 0) ->
  getOccupiedSoilIndices p g c = [].
Proof.
  intros Hc H. cbv zeta in H. apply elem_of_nil_inv. intros idx Hin.
  apply occupied_index_elem in Hin.
  destruct Hin as (x & z & (Hx0 & Hx1 & Hz0 & Hz1) & (G1 & G2 & G3 & G4) & _).
  unfold footprintLo, footprintHi, safeFloorToInt in *.
  destruct H as [H|[H|[H|H]]].
  - apply (Qle_shift_div_l _ _ _ Hc), Qfloor_ge in H. lia.
  - assert (H' : (v3x (position p) + size p * (1 # 2)
                  + inject_Z g * (1 # 2)) / c < inject_Z 0).
    { apply Qlt_shift_div_r; [exact Hc|]. change (inject_Z 0) with 0. lra. }
    apply Qfloor_lt in H'. lia.
  - apply (Qle_shift_div_l _ _ _ Hc), Qfloor_ge in H. lia.
  - assert (H' : (v3z (position p) + size p * (1 # 2)
                  + inject_Z g * (1 # 2)) / c < inject_Z 0).
    { apply Qlt_shift_div_r; [exact Hc|]. change (inject_Z 0) with 0. lra. }
    apply Qfloor_lt in H'. lia.
Qed.

Lemma getOccupiedSoilIndices_off_grid_witness :
  0 < CELL_SIZE /\
  getOccupiedSoilIndices strayPlant GRID_SIZE CELL_SIZE = [].
Proof.
  assert (Hc : 0 < CELL_SIZE) by reflexivity.
  split; [exact Hc|].
  apply (getOccupiedSoilIndices_off_grid strayPlant GRID_SIZE CELL_SIZE Hc).
  left. vm_compute. discriminate.
Defined.

(** ** [overlapFractionWithCell] *)

Lemma interval_overlap_pos (a h b k : Q) :
  0 < std_max 0 (std_min (a + h) (b + k) - std_max (a - h) (b - k)) ->
  a - h < b + k /\ b - k < a + h.
Proof.
  destruct (std_min_cases (a + h) (b + k)) as [[? ->] | [? ->]];
    destruct (std_max_cases (a - h) (b - k)) as [[? ->] | [? ->]];
    match goal with
    | |- context [std_max 0 ?x] =>
        destruct (std_max_cases 0 x) as [[? ->] | [? ->]]
    end; intros; lra.
Qed.

Lemma overlapAreaXZ_pos_sides (ax az ah bx bz bh : Q) :
  0 < overlapAreaXZ ax az ah bx bz bh ->
  (ax - ah < bx + bh /\ bx - bh < ax + ah) /\
  (az - ah < bz + bh /\ bz - bh < az + ah).
Proof.
  unfold overlapAreaXZ. cbv zeta. intros H.
  pose proof (std_max_lower 0 (std_min (ax + ah) (bx + bh)
                               - std_max (ax - ah) (bx - bh))) as Hx.
  pose proof (std_max_lower 0 (std_min (az + ah) (bz + bh)
                               - std_max (az - ah) (bz - bh))) as Hz.
  set (ix := std_max 0 (std_min (ax + ah) (bx + bh)
                        - std_max (ax - ah) (bx - bh))) in *.
  set (iz := std_max 0 (std_min (az + ah) (bz + bh)
                        - std_max (az - ah) (bz - bh))) in *.
  assert (Hix : 0 < ix).
  { apply Qnot_le_lt. intros Hle. assert (E : ix == 0) by lra.
    rewrite E in H. lra. }
  assert (Hiz : 0 < iz).
  { apply Qnot_le_lt. intros Hle. assert (E : iz == 0) by lra.
    rewrite E in H. lra. }
  split; by apply interval_overlap_pos.
Qed.

Lemma Qdiv_one (v : Q) : v / 1 == v.
Proof. field. Qed.

Lemma overlapFraction_pos_area (p : Plant) (cell : SoilCell) (g : Z) :
  0 < overlapFractionWithCell p cell g 1 ->
  0 < overlapAreaXZ (v3x (position p)) (v3z (position p)) (size p * (1 # 2))
        (v2x (cell_position cell) - inject_Z g * (1 # 2) + 1 * (1 # 2))
        (v2y (cell_position cell) - inject_Z g * (1 # 2) + 1 * (1 # 2))
        (1 * (1 # 2)).
Proof.
  unfold overlapFractionWithCell. cbv zeta. intros H.
  set (ov := overlapAreaXZ _ _ _ _ _ _) in *.
  apply Qnot_le_lt. intros Hle.
  assert (Hq : ov / (1 * 1) <= 0).
  { assert (E : ov / (1 * 1) == ov) by (field). rewrite E. exact Hle. }
  destruct (clampf_unit_cases (ov / (1 * 1))) as [[? E] | [[? E] | [? E]]];
    lra.
Qed.

Lemma overlapping_cell_elem (p : Plant) (g x z : Z)
    (cell : SoilCell) :
  onGrid g x z ->
  cell_position cell = mkVector2 (inject_Z x) (inject_Z z) ->
  0 < overlapFractionWithCell p cell g 1 ->
  (z * g + x)%Z ∈ getOccupiedSoilIndices p g 1.
Proof.
  intros Hg Hpos Hfrac.
  apply overlapFraction_pos_area in Hfrac. rewrite Hpos in Hfrac.
  simpl v2x in Hfrac. simpl v2y in Hfrac.
  apply overlapAreaXZ_pos_sides in Hfrac.
  destruct Hfrac as [[Hx1 Hx2] [Hz1 Hz2]].
  apply occupied_index_elem. exists x, z.
  split; [|split; [exact Hg|reflexivity]].
  unfold inFootprintRange, footprintLo, footprintHi, safeFloorToInt.
  repeat split.
  - assert (H : (Qfloor ((v3x (position p) - size p * (1 # 2)
                          + inject_Z g * (1 # 2)) / 1) < x + 1)%Z).
    { apply Qfloor_lt. rewrite inject_Z_plus. change (inject_Z 1) with 1.
      rewrite Qdiv_one. lra. }
    lia.
  - apply Qfloor_ge. rewrite Qdiv_one. lra.
  - assert (H : (Qfloor ((v3z (position p) - size p * (1 # 2)
                          + inject_Z g * (1 # 2)) / 1) < z + 1)%Z).
    { apply Qfloor_lt. rewrite inject_Z_plus. change (inject_Z 1) with 1.
      rewrite Qdiv_one. lra. }
    lia.
  - apply Qfloor_ge. rewrite Qdiv_one. lra.
Qed.

(** ** [calculateLight] *)

Lemma shades_inv (p o : Plant) :
  shades p o = true ->
  id o <> id p /\ 0 < footprintOverlap p o /\ topY p < topY o.
Proof.
  unfold shades. intros H.
  apply andb_prop in H. destruct H as [H Htop].
  apply andb_prop in H. destruct H as [Hid Hov].
  apply negb_true_iff in Hid, Hov.
  apply bool_decide_eq_false in Hid. apply Qltb_true in Htop.
  split; [exact Hid|]. split; [|exact Htop].
  destruct (Qeq_bool_cases (footprintOverlap p o) 0) as [[E _] | [_ Hne]];
    [congruence|].
  pose proof (overlapAreaXZ_nonneg (v3x (position p)) (v3z (position p))
                (size p * (1 # 2)) (v3x (position o)) (v3z (position o))
                (size o * (1 # 2))) as Hnn.
  fold (footprintOverlap p o) in Hnn.
  destruct (Qlt_le_dec 0 (footprintOverlap p o)) as [?|Hle]; [assumption|].
  exfalso. apply Hne. lra.
Qed.

Lemma shadeFactor_range (p o : Plant) :
  shades p o = true -> 1 # 2 <= shadeFactor p o < 1.
Proof.
  intros H. destruct (shades_inv p o H) as (_ & Hpos & _).
  assert (Hsz : 0 < size p).
  { unfold footprintOverlap in Hpos.
    apply overlapAreaXZ_pos_half in Hpos. lra. }
  assert (Hsq : 0 < size p * size p) by nra.
  pose proof (overlapAreaXZ_le_first (v3x (position p)) (v3z (position p))
                (size p * (1 # 2)) (v3x (position o)) (v3z (position o))
                (size o * (1 # 2))) as Hle.
  fold (footprintOverlap p o) in Hle.
  assert (Hf0 : 0 < footprintOverlap p o / (size p * size p)).
  { apply Qlt_shift_div_l; [exact Hsq|]. lra. }
  assert (Hf1 : footprintOverlap p o / (size p * size p) <= 1).
  { apply Qle_shift_div_r; [exact Hsq|]. nra. }
  unfold shadeFactor. lra.
Qed.

Lemma shade_product_range (p : Plant) (l : list Plant) :
  halves (length (shaders p l))
  <= Qprod (map (shadeFactor p) (shaders p l)) <= 1 /\
  0 < halves (length (shaders p l)).
Proof.
  unfold shaders. induction l as [|o l IH]; simpl.
  - split; [lra|reflexivity].
  - destruct (shades p o) eqn:E; [|exact IH]. simpl.
    pose proof (shadeFactor_range p o E) as [H1 H2].
    destruct IH as [[IH1 IH2] IH3].
    set (P := Qprod (map (shadeFactor p) (List.filter (shades p) l))) in *.
    set (h := halves (length (List.filter (shades p) l))) in *.
    repeat split; nra.
Qed.

Lemma calculateLight_product (p : Plant) (allPlants : list Plant) :
  calculateLight p allPlants
    == Qprod (map (shadeFactor p) (shaders p allPlants)) /\
  halves (length (shaders p allPlants)) <= calculateLight p allPlants /\
  0 < calculateLight p allPlants <= 1.
Proof.
  pose proof (shade_product_range p allPlants) as [[H1 H2] H3].
  assert (E : calculateLight p allPlants
              == Qprod (map (shadeFactor p) (shaders p allPlants))).
  { rewrite calculateLight_shadingFactor. unfold shadingFactor.
    fold (shaders p allPlants).
    destruct (clampf_unit_cases
                (Qprod (map (shadeFactor p) (shaders p allPlants))))
      as [[? E] | [[? E] | [? E]]]; lra. }
  split; [exact E|]. rewrite E. repeat split; lra.
Qed.



(** X12.  A plant that no other plant of the collection overtops (no plant
    with a different id has a strictly greater canopy top) receives full
    light, whatever overlaps it; in particular a plant is never shaded by
    itself or by an entry carrying its own id. *)
Theorem calculateLight_unshaded (p : Plant) (allPlants : list Plant) :
  (forall o, o ∈ allPlants -> id o = id p \/ topY o <= topY p) ->
  calculateLight p allPlants == 1.
Proof.
  intros H.
  destruct (calculateLight_product p allPlants) as [-> _].
  assert (E : shaders p allPlants = []).
  { unfold shaders. induction allPlants as [|o l IH]; [reflexivity|].
    simpl. destruct (shades p o) eqn:Es.
    - exfalso. destruct (shades_inv p o Es) as (Hid & _ & Htop).
      destruct (H o) as [?|?]; [by left|contradiction|lra].
    - apply IH. intros o' Ho'. apply H. by right. }
  rewrite E. reflexivity.
Qed.

Lemma calculateLight_unshaded_witness :
  (forall o, o ∈ [lowPlant; tallPlant] ->
             id o = id tallPlant \/ topY o <= topY tallPlant) /\
  calculateLight tallPlant [lowPlant; tallPlant] == 1.
Proof.
  assert (H : forall o, o ∈ [lowPlant; tallPlant] ->
                        id o = id tallPlant \/ topY o <= topY tallPlant).
  { intros o Ho. apply elem_of_cons in Ho. destruct Ho as [->|Ho].
    - right. vm_compute. discriminate.
    - apply list_elem_of_singleton in Ho. subst o. by left. }
  split; [exact H|].
  exact (calculateLight_unshaded tallPlant [lowPlant; tallPlant] H).
Defined.


(** ** [grow]: what it keeps *)

(** Case analysis on the three paths through [grow]. *)
Ltac grow_paths p e g c lf hs :=
  let Halive := fresh "Halive" in
  let H0 := fresh "Hzero" in
  destruct (alive p) eqn:Halive;
  [ destruct (Qeq_bool_cases (totalOverlap (scanCells p (soil e) g c)) 0)
      as [[_ H0] | [_ H0]];
    [ rewrite (grow_zero_overlap p e g c lf hs Halive H0)
    | rewrite (grow_full_path p e g c lf hs Halive H0); cbv zeta ]
  | rewrite (grow_dead p e g c lf hs Halive) ].

Lemma depletion_positions (pid : Z) (d t eff : Q) (l : list (Z * Q))
    (st : Uptake) :
  map cell_position
      (soil (u_env (fold_left (depleteStep pid d t eff) l st)))
  = map cell_position (soil (u_env st)).
Proof.
  revert st. induction l as [|pr l IH]; intros st; simpl; [reflexivity|].
  rewrite IH. simpl. unfold soilSet, soilAt.
  apply list_eq. intros j.
  rewrite !list_lookup_fmap.
  destruct (decide (Z.to_nat pr.1 = j)) as [<-|Hne].
  - destruct (soil (u_env st) !! Z.to_nat pr.1) as [cell|] eqn:E.
    + rewrite list_lookup_insert_eq by (by eapply lookup_lt_Some).
      reflexivity.
    + rewrite list_insert_ge by (by apply lookup_ge_None). by rewrite E.
  - by rewrite list_lookup_insert_ne.
Qed.

Lemma grow_keeps_identity (p : Plant) (e : Env) (g : Z) (c lf hs : Q) :
  sameIdentity p (grow p e g c lf hs).1 /\
  length (soil (grow p e g c lf hs).2) = length (soil e) /\
  map cell_position (soil (grow p e g c lf hs).2)
  = map cell_position (soil e).
Proof.
  grow_paths p e g c lf hs; simpl; try (by repeat split).
  split; [by repeat split|].
  pose proof (depletion_positions (id p)
                (demand p (scanCells p (soil e) g c) lf)
                (totalOverlap (scanCells p (soil e) g c))
                (adsorptionEfficiency p)
                (overlaps (scanCells p (soil e) g c)) (mkUptake e 0 0)) as E.
  simpl in E. split; [|exact E].
  apply (f_equal length) in E. by rewrite !length_map in E.
Qed.

(** X14.  [grow] never changes the identity of a plant (its id, its X and Z
    position, its growth rate, lifespan and the four tuning constants), nor
    the number of soil cells or where they sit: only the four resource
    levels of cells are written. *)
Theorem grow_frame_condition (p : Plant) (e : Env) (g : Z) (c lf hs : Q) :
  sameIdentity p (grow p e g c lf hs).1 /\
  length (soil (grow p e g c lf hs).2) = length (soil e) /\
  map cell_position (soil (grow p e g c lf hs).2)
  = map cell_position (soil e).
Proof. apply grow_keeps_identity. Qed.

Lemma plant_ok_kept :
  (forall p e g c lf hs,
     alive p = true -> ~ totalOverlap (scanCells p (soil e) g c) == 0 ->
     plant_ok (grow p e g c lf hs).1) /\
  (forall p e g c lf hs, plant_ok p -> plant_ok (grow p e g c lf hs).1) /\
  (forall n plants s,
     Forall plant_ok plants -> Forall plant_ok (simulate n plants s).1).
Proof.
  assert (Hfull : forall p e g c lf hs,
            alive p = true -> ~ totalOverlap (scanCells p (soil e) g c) == 0 ->
            plant_ok (grow p e g c lf hs).1).
  { intros p e g c lf hs Halive Hne.
    rewrite (grow_full_path p e g c lf hs Halive Hne). cbv zeta.
    unfold plant_ok. simpl. split.
    - apply clampf_range. lra.
    - apply std_max_lower. }
  assert (Hall : forall p e g c lf hs,
            plant_ok p -> plant_ok (grow p e g c lf hs).1).
  { intros p e g c lf hs Hok.
    destruct (alive p) eqn:Halive.
    - destruct (Qeq_bool_cases (totalOverlap (scanCells p (soil e) g c)) 0)
        as [[_ H0] | [_ Hne]].
      + by rewrite grow_zero_overlap.
      + by apply Hfull.
    - by rewrite grow_dead. }
  split; [exact Hfull|]. split; [exact Hall|].
  intros n. induction n as [|n IH]; intros plants s Hok; [exact Hok|].
  simpl. apply IH. unfold frame, frameInOrder, growInOrder.
  apply (fold_left_invariant (fun st => Forall plant_ok st.1));
    [|exact Hok].
  intros st i Hst. unfold growAt.
  destruct (st.1 !! i) as [q|] eqn:Hq; [|exact Hst].
  simpl. apply Forall_insert; [exact Hst|]. apply Hall.
  by eapply Forall_lookup_1.
Qed.

(** X15.  A [grow] call that runs to the end leaves health within [0, 1]
    and size at least 0.2, whatever they were; on the other paths both are
    unchanged.  So health in [0, 1] and size >= 0.2 hold for every plant
    after any number of frames once they hold at the start. *)
Theorem plant_invariants_kept :
  (forall p e g c lf hs,
     alive p = true -> ~ totalOverlap (scanCells p (soil e) g c) == 0 ->
     plant_ok (grow p e g c lf hs).1) /\
  (forall p e g c lf hs, plant_ok p -> plant_ok (grow p e g c lf hs).1) /\
  (forall n plants s,
     Forall plant_ok plants -> Forall plant_ok (simulate n plants s).1).
Proof. apply plant_ok_kept. Qed.

Lemma plant_invariants_kept_witness :
  Forall plant_ok [samplePlant; cornerPlant] /\
  Forall plant_ok (simulate 2 [samplePlant; cornerPlant] sampleSoil).1.
Proof.
  assert (H : Forall plant_ok [samplePlant; cornerPlant]).
  { repeat constructor; vm_compute; discriminate. }
  split; [exact H|].
  exact (proj2 (proj2 plant_invariants_kept) 2%nat _ sampleSoil H).
Defined.

(** A [grow] call advances the age of a live plant by exactly 0.01,
    on the zero-overlap path as on the full one, and leaves the age of a
    dead plant alone. *)
Lemma grow_age (p : Plant) (e : Env) (g : Z) (c lf hs : Q) :
  age (grow p e g c lf hs).1
  = if alive p then age p + (1 # 100) else age p.
Proof. grow_paths p e g c lf hs; reflexivity. Qed.

(** ** [grow]: what it does to the soil *)

Lemma fold_left_invariant_in {A B : Type} (I : A -> Prop) (f : A -> B -> A)
    (l : list B) (a : A) :
  (forall a b, b ∈ l -> I a -> I (f a b)) -> I a -> I (fold_left f l a).
Proof.
  revert a. induction l as [|b l IH]; intros a Hstep Ha; simpl; [exact Ha|].
  apply IH.
  - intros a' b' Hb'. apply Hstep. by right.
  - apply Hstep; [by left|exact Ha].
Qed.

Lemma soilAt_soilSet_same (s : list SoilCell) (i : Z) (c : SoilCell) :
  (Z.to_nat i < length s)%nat -> soilAt (soilSet s i c) i = c.
Proof.
  intros H. unfold soilAt, soilSet.
  by rewrite list_lookup_insert_eq.
Qed.

Lemma soilAt_soilSet_other (s : list SoilCell) (i j : Z) (c : SoilCell) :
  Z.to_nat i <> Z.to_nat j -> soilAt (soilSet s i c) j = soilAt s j.
Proof.
  intros H. unfold soilAt, soilSet. by rewrite list_lookup_insert_ne.
Qed.

Lemma soilAt_soilSet_out (s : list SoilCell) (i j : Z) (c : SoilCell) :
  (length s <= Z.to_nat i)%nat -> soilAt (soilSet s i c) j = soilAt s j.
Proof.
  intros H. unfold soilAt, soilSet. by rewrite list_insert_ge.
Qed.

Lemma soilAt_nonneg (s : list SoilCell) (i : Z) :
  soil_nonneg s -> cell_nonneg (soilAt s i).
Proof.
  intros Hs. unfold soilAt.
  destruct (s !! Z.to_nat i) as [c|] eqn:E; simpl.
  - by eapply Forall_lookup_1.
  - repeat split; simpl; lra.
Qed.

Lemma cell_le_refl (c : SoilCell) : cell_le c c.
Proof. repeat split; lra. Qed.

Lemma cell_le_trans (a b c : SoilCell) :
  cell_le a b -> cell_le b c -> cell_le a c.
Proof.
  intros (?&?&?&?) (?&?&?&?). repeat split; lra.
Qed.

Lemma depleteCell_le (a : Q) (c : SoilCell) :
  0 <= a -> cell_nonneg c -> cell_le (depleteCell a c) c.
Proof.
  intros Ha (Hw & Hn & Hp & Hk). unfold cell_le. simpl.
  repeat split;
    match goal with
    | |- std_max 0 ?x <= _ => destruct (std_max_cases 0 x) as [[? ->]|[? ->]]
    end; lra.
Qed.

Lemma amountTakenOf_nonneg (d t eff frac : Q) :
  0 <= d -> 0 < t -> 0 <= eff -> 0 <= frac ->
  0 <= amountTakenOf d t eff frac.
Proof.
  intros Hd Ht He Hf. unfold amountTakenOf. cbv zeta.
  assert (H : 0 <= frac / t) by (apply Qle_shift_div_l; lra).
  apply Qmult_le_0_compat; [|exact He].
  by apply Qmult_le_0_compat.
Qed.

Lemma depletion_soil_le (pid : Z) (d t eff : Q) (l : list (Z * Q))
    (e : Env) (a b : Q) :
  0 <= d -> 0 < t -> 0 <= eff ->
  Forall (fun pr : Z * Q => 0 < pr.2) l ->
  soil_nonneg (soil e) ->
  forall j,
    cell_le (soilAt (soil (u_env (fold_left (depleteStep pid d t eff) l
                                     (mkUptake e a b))) ) j)
            (soilAt (soil e) j).
Proof.
  intros Hd Ht He Hl Hnn.
  apply (fold_left_invariant_in
           (fun u => soil_nonneg (soil (u_env u)) /\
                     forall j, cell_le (soilAt (soil (u_env u)) j)
                                       (soilAt (soil e) j))).
  - intros u pr Hpr [Hu Hle]. split; [by apply depleteStep_nonneg|].
    intros j. simpl.
    assert (Hfrac : 0 < pr.2).
    { rewrite Forall_forall in Hl. by apply Hl. }
    assert (Ha : 0 <= amountTakenOf d t eff pr.2)
      by (apply amountTakenOf_nonneg; lra).
    destruct (decide (Z.to_nat pr.1 = Z.to_nat j)) as [E|Hne].
    + destruct (decide (Z.to_nat pr.1 < length (soil (u_env u)))%nat)
        as [Hin|Hout].
      * assert (Ej : soilAt (soil (u_env u)) j = soilAt (soil (u_env u)) pr.1)
          by (unfold soilAt; by rewrite E).
        unfold soilAt at 1. unfold soilSet. rewrite <- E.
        rewrite list_lookup_insert_eq by exact Hin. simpl.
        eapply cell_le_trans; [|apply Hle].
        rewrite Ej. apply depleteCell_le; [exact Ha|].
        by apply soilAt_nonneg.
      * rewrite soilAt_soilSet_out by lia. apply Hle.
    + rewrite soilAt_soilSet_other by exact Hne. apply Hle.
  - split; [exact Hnn|]. intros j. apply cell_le_refl.
Qed.

Lemma scan_total_pos (sc : Scan) :
  scan_ok sc -> ~ totalOverlap sc == 0 -> 0 < totalOverlap sc.
Proof.
  intros Hok Hne. pose proof (scan_total_nonneg sc Hok).
  destruct (Qlt_le_dec 0 (totalOverlap sc)) as [?|?]; [assumption|].
  exfalso. apply Hne. lra.
Qed.

Lemma demand_nonneg (p : Plant) (sc : Scan) (lf : Q) : 0 <= demand p sc lf.
Proof. unfold demand. apply std_max_lower. Qed.

Lemma grow_soil_le (p : Plant) (e : Env) (g : Z) (c lf hs : Q) :
  soil_nonneg (soil e) -> 0 <= adsorptionEfficiency p ->
  forall j, cell_le (soilAt (soil (grow p e g c lf hs).2) j)
                    (soilAt (soil e) j).
Proof.
  intros Hnn He j.
  grow_paths p e g c lf hs; simpl; try apply cell_le_refl.
  destruct (scanCells_ok p (soil e) g c) as [Hsum Hpos].
  apply depletion_soil_le; try assumption.
  - apply demand_nonneg.
  - apply scan_total_pos; [apply scanCells_ok|assumption].
Qed.

Lemma growAt_soil_le (i : nat) (lf : Q) (st : list Plant * Env)
    (s0 : list SoilCell) :
  Forall (fun p => 0 <= adsorptionEfficiency p) st.1 /\
  soil_nonneg (soil st.2) /\
  (forall j, cell_le (soilAt (soil st.2) j) (soilAt s0 j)) ->
  Forall (fun p => 0 <= adsorptionEfficiency p) (growAt i lf st).1 /\
  soil_nonneg (soil (growAt i lf st).2) /\
  (forall j, cell_le (soilAt (soil (growAt i lf st).2) j) (soilAt s0 j)).
Proof.
  intros (Heff & Hnn & Hle). unfold growAt.
  destruct (st.1 !! i) as [p|] eqn:Hp;
    [|split; [exact Heff|split; [exact Hnn|exact Hle]]].
  simpl.
  assert (Hp_eff : 0 <= adsorptionEfficiency p).
  { rewrite Forall_forall in Heff. apply Heff.
    by eapply list_elem_of_lookup_2. }
  split; [|split].
  - apply Forall_insert; [exact Heff|].
    destruct (grow_keeps_identity p st.2 GRID_SIZE CELL_SIZE lf HEIGHT_SCALE)
      as [(_&_&_&_&_&_&_&_&E) _].
    by rewrite E.
  - by apply grow_soil_nonneg.
  - intros j. eapply cell_le_trans; [|apply Hle].
    by apply grow_soil_le.
Qed.

Lemma simulate_soil_le (n : nat) (plants : list Plant) (s : list SoilCell)
    (s0 : list SoilCell) :
  Forall (fun p => 0 <= adsorptionEfficiency p) plants ->
  soil_nonneg s ->
  (forall j, cell_le (soilAt s j) (soilAt s0 j)) ->
  forall j, cell_le (soilAt (simulate n plants s).2 j) (soilAt s0 j).
Proof.
  revert plants s. induction n as [|n IH]; intros plants s Heff Hnn Hle;
    [exact Hle|].
  simpl.
  assert (H : Forall (fun p => 0 <= adsorptionEfficiency p)
                (frame plants s).1 /\
              soil_nonneg (soil (frame plants s).2) /\
              (forall j, cell_le (soilAt (soil (frame plants s).2) j)
                                 (soilAt s0 j))).
  { unfold frame, frameInOrder, growInOrder.
    apply (fold_left_invariant
             (fun st => Forall (fun p => 0 <= adsorptionEfficiency p) st.1 /\
                        soil_nonneg (soil st.2) /\
                        (forall j, cell_le (soilAt (soil st.2) j)
                                           (soilAt s0 j)))).
    - intros st i. apply growAt_soil_le.
    - split; [exact Heff|split; [exact Hnn|exact Hle]]. }
  destruct H as (H1 & H2 & H3). by apply IH.
Qed.

(** X16.  Soil never regenerates: on a grid with non-negative resource
    levels, a [grow] call of a plant with non-negative adsorption
    efficiency leaves every resource level of every cell at or below its
    former value, and so does any number of frames for a collection of such
    plants. *)
Theorem soil_never_replenished (s : list SoilCell) :
  soil_nonneg s ->
  (forall p nu cu g c lf hs j,
     0 <= adsorptionEfficiency p ->
     cell_le (soilAt (soil (grow p (mkEnv s nu cu) g c lf hs).2) j)
             (soilAt s j)) /\
  (forall n plants j,
     Forall (fun p => 0 <= adsorptionEfficiency p) plants ->
     cell_le (soilAt (simulate n plants s).2 j) (soilAt s j)).
Proof.
  intros Hnn. split.
  - intros p nu cu g c lf hs j He.
    by apply (grow_soil_le p (mkEnv s nu cu)).
  - intros n plants j He. apply simulate_soil_le; try assumption.
    intros k. apply cell_le_refl.
Qed.

Lemma soil_never_replenished_witness :
  soil_nonneg sampleSoil /\
  cell_le (soilAt (simulate 2 [samplePlant] sampleSoil).2 0)
          (soilAt sampleSoil 0).
Proof.
  assert (H : soil_nonneg sampleSoil).
  { apply (bool_decide_unpack _). vm_compute. exact I. }
  split; [exact H|].
  apply (proj2 (soil_never_replenished sampleSoil H) 2%nat [samplePlant] 0%Z).
  repeat constructor. vm_compute. discriminate.
Defined.

(** ** [grow]: the first loop as sums *)

Lemma scan_overlaps_gen (p : Plant) (s : list SoilCell) (g : Z) (c : Q)
    (l : list Z) (acc : Scan) :
  overlaps (fold_left (scanStep p s g c) l acc)
  = overlaps acc
    ++ map (fun idx => (idx, overlapFractionWithCell p (soilAt s idx) g c))
         (List.filter
            (fun idx => Qltb 0 (overlapFractionWithCell p (soilAt s idx) g c))
            l).
Proof.
  revert acc. induction l as [|idx l IH]; intros acc;
    cbn [fold_left List.filter].
  - cbn [map]. by rewrite app_nil_r.
  - rewrite IH. unfold scanStep.
    destruct (Qltb 0 (overlapFractionWithCell p (soilAt s idx) g c));
      cbn [overlaps map]; [by rewrite <- app_assoc|reflexivity].
Qed.

Lemma scanCells_overlaps (p : Plant) (s : list SoilCell) (g : Z) (c : Q) :
  overlaps (scanCells p s g c)
  = map (fun idx => (idx, cellFraction p s g c idx)) (drawnCells p s g c).
Proof.
  unfold scanCells, drawnCells, cellFraction.
  by rewrite scan_overlaps_gen.
Qed.

Lemma NoDup_list_filter {A : Type} (f : A -> bool) (l : list A) :
  NoDup l -> NoDup (List.filter f l).
Proof.
  induction 1 as [|x l Hx _ IH]; cbn [List.filter]; [constructor|].
  destruct (f x); [|exact IH].
  constructor; [|exact IH].
  rewrite list_elem_of_In, filter_In, <- list_elem_of_In. tauto.
Qed.

Lemma drawnCells_elem (p : Plant) (s : list SoilCell) (g : Z) (c : Q)
    (idx : Z) :
  idx ∈ drawnCells p s g c <->
  idx ∈ getOccupiedSoilIndices p g c /\ 0 < cellFraction p s g c idx.
Proof.
  unfold drawnCells. rewrite !list_elem_of_In, filter_In, Qltb_true.
  reflexivity.
Qed.

Lemma drawnCells_NoDup (p : Plant) (s : list SoilCell) (g : Z) (c : Q) :
  NoDup (drawnCells p s g c).
Proof.
  unfold drawnCells. apply NoDup_list_filter, occupied_index_NoDup.
Qed.

Lemma overlap_list_facts (p : Plant) (s : list SoilCell) (g : Z) (c : Q) :
  overlaps (scanCells p s g c)
  = map (fun idx => (idx, cellFraction p s g c idx)) (drawnCells p s g c) /\
  NoDup (map fst (overlaps (scanCells p s g c))) /\
  (forall idx,
     idx ∈ map fst (overlaps (scanCells p s g c)) <->
     idx ∈ getOccupiedSoilIndices p g c /\ 0 < cellFraction p s g c idx) /\
  (forall idx,
     idx ∈ map fst (overlaps (scanCells p s g c)) -> (0 <= idx < g * g)%Z).
Proof.
  assert (E : map fst (overlaps (scanCells p s g c)) = drawnCells p s g c).
  { rewrite scanCells_overlaps, map_map. simpl. apply map_id. }
  split; [apply scanCells_overlaps|]. rewrite E.
  split; [apply drawnCells_NoDup|]. split.
  - intros idx. apply drawnCells_elem.
  - intros idx H. apply drawnCells_elem in H. destruct H as [H _].
    by eapply occupied_index_range.
Qed.

(** X17.  The first loop of [grow] records exactly the occupied cells with
    a positive overlap fraction, each once, in the order of
    [getOccupiedSoilIndices] and with that fraction; every recorded index
    is a valid index of the grid. *)
Theorem grow_overlap_list (p : Plant) (s : list SoilCell) (g : Z) (c : Q) :
  overlaps (scanCells p s g c)
  = map (fun idx => (idx, cellFraction p s g c idx)) (drawnCells p s g c) /\
  NoDup (map fst (overlaps (scanCells p s g c))) /\
  (forall idx,
     idx ∈ map fst (overlaps (scanCells p s g c)) <->
     idx ∈ getOccupiedSoilIndices p g c /\ 0 < cellFraction p s g c idx) /\
  (forall idx,
     idx ∈ map fst (overlaps (scanCells p s g c)) -> (0 <= idx < g * g)%Z).
Proof. apply overlap_list_facts. Qed.

(** The weighted sums of the first loop against bounds on the cells. *)
Lemma scan_weighted_bounds (p : Plant) (s : list SoilCell) (g : Z) (c : Q)
    (lo hi : Q) (l : list Z) (acc : Scan) :
  (forall j, j ∈ l -> cell_within lo hi (soilAt s j)) ->
  let I sc :=
    lo * totalOverlap sc <= waterSum sc <= hi * totalOverlap sc /\
    lo * totalOverlap sc <= nutrientSum sc <= hi * totalOverlap sc in
  I acc -> I (fold_left (scanStep p s g c) l acc).
Proof.
  intros Hb I. apply fold_left_invariant_in.
  intros a idx Hidx [[Hw1 Hw2] [Hn1 Hn2]]. subst I. cbv beta.
  unfold scanStep.
  destruct (Qltb_cases 0 (overlapFractionWithCell p (soilAt s idx) g c))
    as [[-> Hf] | [-> _]]; [|by repeat split].
  simpl.
  destruct (Hb idx Hidx) as ([? ?] & [? ?] & [? ?] & [? ?]).
  set (f := overlapFractionWithCell p (soilAt s idx) g c) in *.
  assert (Havg : lo <= (nitrogen (soilAt s idx) + phosphorus (soilAt s idx)
                        + potassium (soilAt s idx)) / 3 <= hi).
  { split; [apply Qle_shift_div_l|apply Qle_shift_div_r]; lra. }
  destruct Havg as [Ha1 Ha2].
  set (avg := (nitrogen (soilAt s idx) + phosphorus (soilAt s idx)
               + potassium (soilAt s idx)) / 3) in *.
  repeat split; nra.
Qed.

Lemma growth_factors_bounds (p : Plant) (s : list SoilCell) (g : Z)
    (c lo hi : Q) :
  (forall j,
     j ∈ getOccupiedSoilIndices p g c -> cell_within lo hi (soilAt s j)) ->
  ~ totalOverlap (scanCells p s g c) == 0 ->
  let sc := scanCells p s g c in
  lo <= nutrientSum sc / totalOverlap sc <= hi /\
  lo <= waterSum sc / totalOverlap sc <= hi.
Proof.
  intros Hb Hne sc.
  assert (Hpos : 0 < totalOverlap sc)
    by (apply scan_total_pos; [apply scanCells_ok|exact Hne]).
  destruct (scan_weighted_bounds p s g c lo hi
              (getOccupiedSoilIndices p g c) scan0 Hb)
    as [[Hw1 Hw2] [Hn1 Hn2]].
  { simpl. repeat split; lra. }
  fold (scanCells p s g c) in Hw1, Hw2, Hn1, Hn2. fold sc in Hw1, Hw2, Hn1, Hn2.
  repeat split;
    first [apply Qle_shift_div_l | apply Qle_shift_div_r];
    try exact Hpos; lra.
Qed.

(** X18.  The nutrient and water factors of [grow] are overlap-weighted
    averages: on a grid of [gridSize * gridSize] cells whose resource levels
    all lie between [lo] and [hi], both factors lie between [lo] and [hi]
    as well whenever the total overlap is not zero. *)
Theorem growth_factors_are_averages (p : Plant) (s : list SoilCell) (g : Z)
    (c lo hi : Q) :
  length s = Z.to_nat (g * g) ->
  Forall (cell_within lo hi) s ->
  ~ totalOverlap (scanCells p s g c) == 0 ->
  let sc := scanCells p s g c in
  lo <= nutrientSum sc / totalOverlap sc <= hi /\
  lo <= waterSum sc / totalOverlap sc <= hi.
Proof.
  intros Hlen Hs. apply growth_factors_bounds.
  intros j Hj. apply occupied_index_range in Hj. unfold soilAt.
  destruct (s !! Z.to_nat j) as [cell|] eqn:E; cbn [default from_option].
  - by eapply (Forall_lookup_1 _ _ _ _ Hs).
  - apply lookup_ge_None in E. lia.
Qed.

Lemma soilAt_all (P : SoilCell -> Prop) (s : list SoilCell) :
  Forall P s -> P defaultCell -> forall j, P (soilAt s j).
Proof.
  intros Hs Hd j. unfold soilAt.
  destruct (s !! Z.to_nat j) as [c|] eqn:E; simpl; [|exact Hd].
  by eapply Forall_lookup_1.
Qed.

Lemma growth_factors_are_averages_witness :
  length sampleSoil = Z.to_nat (GRID_SIZE * GRID_SIZE) /\
  Forall (cell_within (3 # 4) (3 # 4)) sampleSoil /\
  ~ totalOverlap (scanCells samplePlant sampleSoil GRID_SIZE CELL_SIZE) == 0 /\
  3 # 4
  <= waterSum (scanCells samplePlant sampleSoil GRID_SIZE CELL_SIZE)
     / totalOverlap (scanCells samplePlant sampleSoil GRID_SIZE CELL_SIZE)
  <= 3 # 4.
Proof.
  assert (Hlen : length sampleSoil = Z.to_nat (GRID_SIZE * GRID_SIZE))
    by (vm_compute; reflexivity).
  assert (Hb : Forall (cell_within (3 # 4) (3 # 4)) sampleSoil)
    by (apply (bool_decide_unpack _); vm_compute; exact I).
  assert (Hne : ~ totalOverlap
                    (scanCells samplePlant sampleSoil GRID_SIZE CELL_SIZE)
                  == 0)
    by (intros H; vm_compute in H; discriminate H).
  split; [exact Hlen|]. split; [exact Hb|]. split; [exact Hne|].
  destruct (growth_factors_are_averages samplePlant sampleSoil GRID_SIZE
              CELL_SIZE (3 # 4) (3 # 4) Hlen Hb Hne) as [_ H].
  exact H.
Defined.

(** ** [grow]: the depletion loop cell by cell *)

Lemma depletion_soil_other (pid : Z) (d t eff : Q) (l : list (Z * Q))
    (st : Uptake) (j : Z) :
  (0 <= j)%Z -> Forall (fun pr : Z * Q => (0 <= pr.1)%Z) l ->
  j ∉ map fst l ->
  soilAt (soil (u_env (fold_left (depleteStep pid d t eff) l st))) j
  = soilAt (soil (u_env st)) j.
Proof.
  intros Hj. revert st.
  induction l as [|pr l IH]; intros st Hl Hnot; cbn [fold_left];
    [reflexivity|].
  inversion Hl as [|? ? Hpr Hl']; subst.
  cbn [map] in Hnot. apply not_elem_of_cons in Hnot.
  destruct Hnot as [Hne Hnot].
  rewrite IH by assumption. cbn [depleteStep u_env soil].
  apply soilAt_soilSet_other. intros E. apply Hne.
  apply Z2Nat.inj in E; [by symmetry|exact Hpr|exact Hj].
Qed.

Lemma depletion_cellUsage_other (pid : Z) (d t eff : Q) (l : list (Z * Q))
    (st : Uptake) (j : Z) :
  j ∉ map fst l ->
  cellUsage (u_env (fold_left (depleteStep pid d t eff) l st)) !! j
  = cellUsage (u_env st) !! j.
Proof.
  revert st. induction l as [|pr l IH]; intros st Hnot; cbn [fold_left];
    [reflexivity|].
  cbn [map] in Hnot. apply not_elem_of_cons in Hnot.
  destruct Hnot as [Hne Hnot].
  rewrite IH by assumption. cbn [depleteStep u_env cellUsage].
  unfold addCellUsage. by rewrite lookup_insert_ne.
Qed.

Lemma depletion_cellUsage_in (pid : Z) (d t eff : Q) (l : list (Z * Q))
    (st : Uptake) (j : Z) (f : Q) :
  NoDup (map fst l) -> (j, f) ∈ l ->
  cellUsage (u_env (fold_left (depleteStep pid d t eff) l st)) !! j
  = Some (default [] (cellUsage (u_env st) !! j)
          ++ [(pid, f, amountTakenOf d t eff f)]).
Proof.
  revert st. induction l as [|pr l IH]; intros st Hnd Hin;
    [by apply not_elem_of_nil in Hin|].
  cbn [map] in Hnd. apply NoDup_cons in Hnd. destruct Hnd as [Hfresh Hnd].
  cbn [fold_left]. apply elem_of_cons in Hin. destruct Hin as [<-|Hin].
  - rewrite depletion_cellUsage_other by assumption.
    cbn [depleteStep u_env cellUsage fst snd].
    unfold addCellUsage. by rewrite lookup_insert_eq.
  - assert (Hne : pr.1 <> j).
    { intros <-. apply Hfresh. apply list_elem_of_fmap.
      by exists (pr.1, f). }
    rewrite (IH _ Hnd Hin). cbn [depleteStep u_env cellUsage].
    unfold addCellUsage. by rewrite lookup_insert_ne.
Qed.

Lemma drawn_pair_elem (p : Plant) (s : list SoilCell) (g : Z) (c : Q)
    (idx : Z) :
  idx ∈ drawnCells p s g c ->
  (idx, cellFraction p s g c idx) ∈ overlaps (scanCells p s g c).
Proof.
  intros H. rewrite scanCells_overlaps.
  apply (list_elem_of_fmap_2 (fun i => (i, cellFraction p s g c i))), H.
Qed.

Lemma overlaps_fst (p : Plant) (s : list SoilCell) (g : Z) (c : Q) :
  map fst (overlaps (scanCells p s g c)) = drawnCells p s g c.
Proof. rewrite scanCells_overlaps, map_map. cbn [fst]. apply map_id. Qed.

Lemma overlaps_nonneg_idx (p : Plant) (s : list SoilCell) (g : Z) (c : Q) :
  Forall (fun pr : Z * Q => (0 <= pr.1)%Z) (overlaps (scanCells p s g c)).
Proof.
  apply Forall_forall. intros pr Hpr.
  assert (H : pr.1 ∈ map fst (overlaps (scanCells p s g c))).
  { apply list_elem_of_fmap. by exists pr. }
  apply (proj2 (proj2 (proj2 (overlap_list_facts p s g c)))) in H. lia.
Qed.

(** X19.  [grow] writes only the cells it draws from: on every path, a
    cell that is not among the occupied cells with a positive overlap
    fraction holds after the call what it held before.  In particular
    cells outside the bounding range of the footprint and cells that the
    footprint only touches are left as they are. *)
Theorem grow_writes_only_drawn_cells (p : Plant) (e : Env) (g : Z)
    (c lf hs : Q) (idx : Z) :
  (0 <= idx)%Z ->
  (idx ∉ drawnCells p (soil e) g c ->
   soilAt (soil (grow p e g c lf hs).2) idx = soilAt (soil e) idx) /\
  (idx ∉ getOccupiedSoilIndices p g c ->
   soilAt (soil (grow p e g c lf hs).2) idx = soilAt (soil e) idx) /\
  (cellFraction p (soil e) g c idx <= 0 ->
   soilAt (soil (grow p e g c lf hs).2) idx = soilAt (soil e) idx).
Proof.
  intros Hidx.
  assert (H : idx ∉ drawnCells p (soil e) g c ->
              soilAt (soil (grow p e g c lf hs).2) idx = soilAt (soil e) idx).
  { intros Hnot.
    grow_paths p e g c lf hs; cbn [snd]; try reflexivity.
    apply depletion_soil_other.
    - exact Hidx.
    - apply overlaps_nonneg_idx.
    - by rewrite overlaps_fst. }
  split; [exact H|]. split.
  - intros Hnot. apply H. rewrite drawnCells_elem. tauto.
  - intros Hf. apply H. rewrite drawnCells_elem. intros [_ Hpos]. lra.
Qed.

Lemma grow_writes_only_drawn_cells_witness :
  (0 <= 5)%Z /\
  (5%Z ∉ drawnCells samplePlant sampleSoil GRID_SIZE 1) /\
  soilAt (soil (grow samplePlant (mkEnv sampleSoil ∅ ∅) GRID_SIZE 1 1
                  HEIGHT_SCALE).2) 5
  = soilAt sampleSoil 5.
Proof.
  assert (H0 : (0 <= 5)%Z) by lia.
  assert (Hn : 5%Z ∉ drawnCells samplePlant sampleSoil GRID_SIZE 1)
    by (apply (bool_decide_unpack _); vm_compute; exact I).
  split; [exact H0|]. split; [exact Hn|].
  exact (proj1 (grow_writes_only_drawn_cells samplePlant
                  (mkEnv sampleSoil ∅ ∅) GRID_SIZE 1 1 HEIGHT_SCALE 5 H0)
           Hn).
Defined.

(** ** [grow]: the usage records *)

Lemma nutrientAt_add_same (pid idx : Z) (a : Q) (m : gmap Z (gmap Z Q)) :
  nutrientAt (addNutrientUsed pid idx a m) pid idx = nutrientAt m pid idx + a.
Proof.
  unfold nutrientAt, addNutrientUsed.
  rewrite lookup_insert_eq. cbn [from_option Datatypes.id].
  by rewrite lookup_insert_eq.
Qed.

Lemma nutrientAt_add_other (pid idx pid' idx' : Z) (a : Q)
    (m : gmap Z (gmap Z Q)) :
  pid' <> pid \/ idx' <> idx ->
  nutrientAt (addNutrientUsed pid idx a m) pid' idx' = nutrientAt m pid' idx'.
Proof.
  intros H. unfold nutrientAt, addNutrientUsed.
  destruct (decide (pid = pid')) as [<-|Hp].
  - rewrite lookup_insert_eq. cbn [from_option Datatypes.id].
    destruct H as [H|H]; [congruence|].
    by rewrite lookup_insert_ne.
  - by rewrite lookup_insert_ne.
Qed.

Lemma depletion_nutrientUsed_other (pid : Z) (d t eff : Q)
    (l : list (Z * Q)) (st : Uptake) (pid' j : Z) :
  pid' <> pid \/ j ∉ map fst l ->
  nutrientAt (nutrientUsed (u_env (fold_left (depleteStep pid d t eff) l st)))
             pid' j
  = nutrientAt (nutrientUsed (u_env st)) pid' j.
Proof.
  revert st. induction l as [|pr l IH]; intros st Hnot; cbn [fold_left];
    [reflexivity|].
  rewrite IH.
  - cbn [depleteStep u_env nutrientUsed]. apply nutrientAt_add_other.
    destruct Hnot as [?|Hnot]; [by left|right].
    cbn [map] in Hnot. apply not_elem_of_cons in Hnot. tauto.
  - destruct Hnot as [?|Hnot]; [by left|right].
    cbn [map] in Hnot. apply not_elem_of_cons in Hnot. tauto.
Qed.

Lemma depletion_nutrientUsed_in (pid : Z) (d t eff : Q) (l : list (Z * Q))
    (st : Uptake) (j : Z) (f : Q) :
  NoDup (map fst l) -> (j, f) ∈ l ->
  nutrientAt (nutrientUsed (u_env (fold_left (depleteStep pid d t eff) l st)))
             pid j
  = nutrientAt (nutrientUsed (u_env st)) pid j + amountTakenOf d t eff f.
Proof.
  revert st. induction l as [|pr l IH]; intros st Hnd Hin;
    [by apply not_elem_of_nil in Hin|].
  cbn [map] in Hnd. apply NoDup_cons in Hnd. destruct Hnd as [Hfresh Hnd].
  cbn [fold_left]. apply elem_of_cons in Hin. destruct Hin as [<-|Hin].
  - rewrite depletion_nutrientUsed_other by (by right).
    cbn [depleteStep u_env nutrientUsed fst snd].
    apply nutrientAt_add_same.
  - assert (Hne : j <> pr.1).
    { intros ->. apply Hfresh. apply list_elem_of_fmap.
      by exists (pr.1, f). }
    rewrite (IH _ Hnd Hin). cbn [depleteStep u_env nutrientUsed].
    rewrite nutrientAt_add_other by (by right). reflexivity.
Qed.

(** X20.  The usage records of a [grow] call that runs to the end: every
    cell drawn from gets one new triple (plant id, overlap fraction, amount
    taken) at the end of its [cellUsage] list, and [nutrientUsed[id][idx]]
    grows by that amount; the lists of the other cells and the entries of
    other plants are untouched. *)
Theorem grow_usage_records (p : Plant) (e : Env) (g : Z) (c lf hs : Q) :
  alive p = true ->
  ~ totalOverlap (scanCells p (soil e) g c) == 0 ->
  let sc := scanCells p (soil e) g c in
  let e' := (grow p e g c lf hs).2 in
  (forall idx,
     idx ∈ drawnCells p (soil e) g c ->
     let frac := cellFraction p (soil e) g c idx in
     cellUsage e' !! idx
     = Some (default [] (cellUsage e !! idx)
             ++ [(id p, frac, amountFor p sc lf frac)]) /\
     nutrientAt (nutrientUsed e') (id p) idx
     = nutrientAt (nutrientUsed e) (id p) idx + amountFor p sc lf frac) /\
  (forall idx,
     idx ∉ drawnCells p (soil e) g c ->
     cellUsage e' !! idx = cellUsage e !! idx /\
     forall pid,
       nutrientAt (nutrientUsed e') pid idx
       = nutrientAt (nutrientUsed e) pid idx) /\
  (forall pid idx,
     pid <> id p ->
     nutrientAt (nutrientUsed e') pid idx
     = nutrientAt (nutrientUsed e) pid idx).
Proof.
  intros Halive Hne sc e'. subst e'.
  rewrite (grow_full_path p e g c lf hs Halive Hne). cbv zeta. cbn [snd].
  fold sc.
  assert (Hnd : NoDup (map fst (overlaps sc)))
    by (unfold sc; rewrite overlaps_fst; apply drawnCells_NoDup).
  split; [|split].
  - intros idx Hidx.
    pose proof (drawn_pair_elem p (soil e) g c idx Hidx) as Hin.
    fold sc in Hin.
    set (frac := cellFraction p (soil e) g c idx) in *.
    unfold amountFor. split.
    + by rewrite (depletion_cellUsage_in _ _ _ _ _ _ idx frac Hnd Hin).
    + by rewrite (depletion_nutrientUsed_in _ _ _ _ _ _ idx frac Hnd Hin).
  - intros idx Hnot.
    assert (Hnot' : idx ∉ map fst (overlaps sc))
      by (unfold sc; by rewrite overlaps_fst).
    split.
    + by rewrite depletion_cellUsage_other.
    + intros pid. rewrite depletion_nutrientUsed_other by (by right).
      reflexivity.
  - intros pid idx Hpid.
    rewrite depletion_nutrientUsed_other by (by left). reflexivity.
Qed.

Lemma grow_usage_records_witness :
  alive samplePlant = true /\
  ~ totalOverlap (scanCells samplePlant sampleSoil GRID_SIZE CELL_SIZE) == 0 /\
  forall pid idx,
    pid <> id samplePlant ->
    nutrientAt (nutrientUsed
                  (grow samplePlant (mkEnv sampleSoil ∅ ∅) GRID_SIZE
                     CELL_SIZE 1 HEIGHT_SCALE).2) pid idx
    = nutrientAt (nutrientUsed (mkEnv sampleSoil ∅ ∅)) pid idx.
Proof.
  assert (Hne : ~ totalOverlap
                    (scanCells samplePlant sampleSoil GRID_SIZE CELL_SIZE)
                  == 0)
    by (intros H; vm_compute in H; discriminate H).
  split; [reflexivity|]. split; [exact Hne|].
  destruct (grow_usage_records samplePlant (mkEnv sampleSoil ∅ ∅) GRID_SIZE
              CELL_SIZE 1 HEIGHT_SCALE eq_refl Hne) as (_ & _ & H).
  exact H.
Defined.

(** ** The grid of [main] *)

Lemma bind_rows_lookup {A B : Type} (f : A -> list B) (n : nat)
    (l : list A) (i j : nat) :
  (forall a, length (f a) = n) -> (j < n)%nat ->
  (l ≫= f) !! (i * n + j)%nat = l !! i ≫= (fun a => f a !! j).
Proof.
  intros Hlen Hj. revert i.
  induction l as [|a l IH]; intros i; [reflexivity|].
  change ((a :: l) ≫= f) with (f a ++ (l ≫= f)).
  destruct i as [|i].
  - cbn [Nat.mul Nat.add]. rewrite lookup_app_l by (rewrite Hlen; lia).
    reflexivity.
  - rewrite lookup_app_r by (rewrite Hlen; lia).
    rewrite Hlen. replace (S i * n + j - n)%nat with (i * n + j)%nat by lia.
    apply IH.
Qed.

Lemma bind_rows_length {A B : Type} (f : A -> list B) (n : nat)
    (l : list A) :
  (forall a, length (f a) = n) -> length (l ≫= f) = (length l * n)%nat.
Proof.
  intros Hlen. induction l as [|a l IH]; [reflexivity|].
  change ((a :: l) ≫= f) with (f a ++ (l ≫= f)).
  rewrite length_app, Hlen, IH. cbn [length]. lia.
Qed.

Lemma row_length {B : Type} (g : Z) (f : Z -> B) :
  length (seqZ 0 g ≫= (fun x => [f x])) = Z.to_nat g.
Proof.
  rewrite (bind_rows_length _ 1%nat) by reflexivity.
  rewrite length_seqZ. lia.
Qed.

Lemma row_lookup {B : Type} (g x : Z) (f : Z -> B) :
  (0 <= x < g)%Z ->
  (seqZ 0 g ≫= (fun x => [f x])) !! Z.to_nat x = Some (f x).
Proof.
  intros Hx.
  replace (Z.to_nat x) with (Z.to_nat x * 1 + 0)%nat by lia.
  rewrite (bind_rows_lookup _ 1%nat) by (auto; lia).
  rewrite lookup_seqZ_lt by lia. cbn.
  by rewrite Z2Nat.id by lia.
Qed.

Lemma grid_lookup {B : Type} (g x z : Z) (f : Z -> Z -> B) :
  onGrid g x z ->
  (seqZ 0 g ≫= (fun z => seqZ 0 g ≫= (fun x => [f z x])))
    !! Z.to_nat (z * g + x) = Some (f z x).
Proof.
  intros (Hx0 & Hx1 & Hz0 & Hz1).
  rewrite Z2Nat.inj_add, Z2Nat.inj_mul by nia.
  rewrite (bind_rows_lookup _ (Z.to_nat g)).
  - rewrite lookup_seqZ_lt by lia. cbn [mbind option_bind].
    rewrite Z.add_0_l, Z2Nat.id by lia.
    apply row_lookup. lia.
  - intros a. apply row_length.
  - lia.
Qed.

Lemma grid_length {B : Type} (g : Z) (f : Z -> Z -> B) :
  (0 <= g)%Z ->
  length (seqZ 0 g ≫= (fun z => seqZ 0 g ≫= (fun x => [f z x])))
  = Z.to_nat (g * g).
Proof.
  intros Hg.
  rewrite (bind_rows_length _ (Z.to_nat g)) by (intros a; apply row_length).
  rewrite length_seqZ, Z2Nat.inj_mul by lia. reflexivity.
Qed.

Lemma bind_map {A B C : Type} (h : B -> C) (f : A -> list B) (l : list A) :
  map h (l ≫= f) = l ≫= (fun a => map h (f a)).
Proof.
  induction l as [|a l IH]; [reflexivity|].
  change ((a :: l) ≫= f) with (f a ++ (l ≫= f)).
  rewrite map_app, IH. reflexivity.
Qed.

Lemma bind_ext_fun {A B : Type} (f f' : A -> list B) (l : list A) :
  (forall a, f a = f' a) -> l ≫= f = l ≫= f'.
Proof.
  intros E. induction l as [|a l IH]; [reflexivity|].
  change ((a :: l) ≫= f) with (f a ++ (l ≫= f)).
  change ((a :: l) ≫= f') with (f' a ++ (l ≫= f')).
  by rewrite E, IH.
Qed.

Lemma mkSoil_lookup (g x z : Z) (res : Z -> Q * Q * Q * Q) :
  onGrid g x z ->
  exists w n ph k,
    mkSoil g res !! Z.to_nat (z * g + x)
    = Some (mkSoilCell (mkVector2 (inject_Z x) (inject_Z z)) w n ph k).
Proof.
  intros Hg. unfold mkSoil.
  pose proof (grid_lookup g x z
                (fun z x =>
                   let r := res (z * g + x)%Z in
                   mkSoilCell (mkVector2 (inject_Z x) (inject_Z z))
                              r.1.1.1 r.1.1.2 r.1.2 r.2) Hg) as H.
  cbv beta zeta in H. eexists _, _, _, _. exact H.
Qed.

Lemma gridLayout_position (g x z : Z) (s : list SoilCell) :
  gridLayout g s -> onGrid g x z ->
  cell_position (soilAt s (z * g + x)) = mkVector2 (inject_Z x) (inject_Z z).
Proof.
  intros Hlay Hg. unfold gridLayout in Hlay.
  apply (f_equal (fun l => l !! Z.to_nat (z * g + x))) in Hlay.
  change (map cell_position s) with (cell_position <$> s) in Hlay.
  change (map cell_position (mkSoil g (fun _ => (0, 0, 0, 0))))
    with (cell_position <$> mkSoil g (fun _ => (0, 0, 0, 0))) in Hlay.
  rewrite !list_lookup_fmap in Hlay.
  destruct (mkSoil_lookup g x z (fun _ => (0, 0, 0, 0)) Hg)
    as (w & n & ph & k & E).
  rewrite E in Hlay.
  unfold soilAt. destruct (s !! Z.to_nat (z * g + x)) as [cell|];
    [|discriminate Hlay].
  cbn in Hlay. cbn. congruence.
Qed.

Lemma mkSoil_length (g : Z) (res : Z -> Q * Q * Q * Q) :
  (0 <= g)%Z -> length (mkSoil g res) = Z.to_nat (g * g).
Proof.
  intros Hg. unfold mkSoil.
  exact (grid_length g
           (fun z x =>
              let r := res (z * g + x)%Z in
              mkSoilCell (mkVector2 (inject_Z x) (inject_Z z))
                         r.1.1.1 r.1.1.2 r.1.2 r.2) Hg).
Qed.

Lemma gridLayout_length (g : Z) (s : list SoilCell) :
  (0 <= g)%Z -> gridLayout g s -> length s = Z.to_nat (g * g).
Proof.
  intros Hg Hlay. apply (f_equal length) in Hlay.
  rewrite !length_map in Hlay. rewrite Hlay. by apply mkSoil_length.
Qed.

Lemma randMod_range (r m : Z) :
  (0 <= r)%Z -> (0 < m)%Z -> (0 <= randMod r m < m)%Z.
Proof. intros Hr Hm. unfold randMod. by apply Z.rem_bound_pos. Qed.

Lemma startLevel_range (r : Z) :
  (0 <= r)%Z -> 1 # 2 <= startLevel r <= 99 # 100.
Proof.
  intros Hr. unfold startLevel.
  destruct (randMod_range r 50 Hr) as [H0 H1]; [lia|].
  assert (H2 : (randMod r 50 <= 49)%Z) by lia.
  rewrite Zle_Qle in H0, H2.
  change (inject_Z 0) with 0 in H0. change (inject_Z 49) with 49 in H2.
  set (v := inject_Z (randMod r 50)) in *.
  assert (E : v / 100 == v * (1 # 100)) by field.
  rewrite E. lra.
Qed.

Lemma initSoil_facts (g : Z) (rnd : Z -> Z) :
  (0 <= g)%Z -> randStream rnd ->
  length (initSoil g rnd) = Z.to_nat (g * g) /\
  gridLayout g (initSoil g rnd) /\
  (forall x z,
     onGrid g x z ->
     cell_position (soilAt (initSoil g rnd) (z * g + x))
     = mkVector2 (inject_Z x) (inject_Z z)) /\
  Forall (cell_within (1 # 2) (99 # 100)) (initSoil g rnd).
Proof.
  intros Hg Hrnd.
  assert (Hlay : gridLayout g (initSoil g rnd)).
  { unfold gridLayout, initSoil, mkSoil. rewrite !bind_map.
    apply bind_ext_fun. intros z. rewrite !bind_map.
    apply bind_ext_fun. intros x. reflexivity. }
  split; [by apply gridLayout_length|]. split; [exact Hlay|]. split.
  - intros x z Hxz. by apply gridLayout_position.
  - unfold initSoil. apply Forall_bind, Forall_forall. intros z _.
    apply Forall_bind, Forall_forall. intros x _.
    repeat constructor; cbn; apply startLevel_range; apply Hrnd.
Qed.

(** X21.  The soil grid [main] builds has [gridSize * gridSize] cells, the
    cell stored at index [z * gridSize + x] sits at position [(x, z)], and
    each of its resource levels starts between 0.5 and 0.99. *)
Theorem initSoil_spec (g : Z) (rnd : Z -> Z) :
  (0 <= g)%Z -> randStream rnd ->
  length (initSoil g rnd) = Z.to_nat (g * g) /\
  gridLayout g (initSoil g rnd) /\
  (forall x z,
     onGrid g x z ->
     cell_position (soilAt (initSoil g rnd) (z * g + x))
     = mkVector2 (inject_Z x) (inject_Z z)) /\
  Forall (cell_within (1 # 2) (99 # 100)) (initSoil g rnd).
Proof. apply initSoil_facts. Qed.

Lemma initSoil_spec_witness :
  (0 <= GRID_SIZE)%Z /\ randStream sampleRand /\
  length (initSoil GRID_SIZE sampleRand) = Z.to_nat (GRID_SIZE * GRID_SIZE).
Proof.
  assert (Hg : (0 <= GRID_SIZE)%Z) by (unfold GRID_SIZE; lia).
  assert (Hr : randStream sampleRand).
  { intros k. unfold sampleRand. lia. }
  split; [exact Hg|]. split; [exact Hr|].
  exact (proj1 (initSoil_spec GRID_SIZE sampleRand Hg Hr)).
Defined.

(** ** Plants over the grid always overlap a cell *)

Lemma interval_overlap_meets (a h b k : Q) :
  0 < h -> 0 < k -> a - h < b + k -> b - k < a + h ->
  0 < std_max 0 (std_min (a + h) (b + k) - std_max (a - h) (b - k)).
Proof.
  intros Hh Hk H1 H2.
  destruct (std_min_cases (a + h) (b + k)) as [[? ->] | [? ->]];
    destruct (std_max_cases (a - h) (b - k)) as [[? ->] | [? ->]];
    match goal with
    | |- context [std_max 0 ?x] =>
        destruct (std_max_cases 0 x) as [[? ->] | [? ->]]
    end; lra.
Qed.

Lemma Qfloor_bounds (v : Q) :
  inject_Z (Qfloor v) <= v < inject_Z (Qfloor v) + 1.
Proof.
  split; [apply Qfloor_le|].
  pose proof (Qlt_floor v) as H. rewrite inject_Z_plus in H. exact H.
Qed.

Lemma centre_cell_on_grid (p : Plant) :
  centreOnGrid p ->
  onGrid GRID_SIZE
    (Qfloor (v3x (position p) + inject_Z GRID_SIZE * (1 # 2)))
    (Qfloor (v3z (position p) + inject_Z GRID_SIZE * (1 # 2))).
Proof.
  intros [[Hx0 Hx1] [Hz0 Hz1]]. unfold onGrid. repeat split.
  - apply Qfloor_ge. exact Hx0.
  - apply Qfloor_lt. exact Hx1.
  - apply Qfloor_ge. exact Hz0.
  - apply Qfloor_lt. exact Hz1.
Qed.

Lemma centre_cell_fraction_pos (p : Plant) (s : list SoilCell) :
  gridLayout GRID_SIZE s -> centreOnGrid p -> 0 < size p ->
  let x0 := Qfloor (v3x (position p) + inject_Z GRID_SIZE * (1 # 2)) in
  let z0 := Qfloor (v3z (position p) + inject_Z GRID_SIZE * (1 # 2)) in
  0 < overlapFractionWithCell p (soilAt s (z0 * GRID_SIZE + x0)) GRID_SIZE 1.
Proof.
  intros Hlay Hc Hsz x0 z0.
  pose proof (centre_cell_on_grid p Hc) as Hg. fold x0 z0 in Hg.
  pose proof (gridLayout_position GRID_SIZE x0 z0 s Hlay Hg) as Hpos.
  pose proof (Qfloor_bounds (v3x (position p) + inject_Z GRID_SIZE * (1 # 2)))
    as [Hx0 Hx1].
  pose proof (Qfloor_bounds (v3z (position p) + inject_Z GRID_SIZE * (1 # 2)))
    as [Hz0 Hz1].
  fold x0 in Hx0, Hx1. fold z0 in Hz0, Hz1.
  unfold overlapFractionWithCell. cbv zeta. rewrite Hpos.
  cbn [v2x v2y]. unfold overlapAreaXZ. cbv zeta.
  set (ix := std_max 0 _). set (iz := std_max 0 _).
  assert (Hix : 0 < ix) by (apply interval_overlap_meets; lra).
  assert (Hiz : 0 < iz) by (apply interval_overlap_meets; lra).
  assert (Hov : 0 < ix * iz) by (by apply Qmult_lt_0_compat).
  assert (E : ix * iz / (1 * 1) == ix * iz) by field.
  destruct (clampf_unit_cases (ix * iz / (1 * 1)))
    as [[? E'] | [[? E'] | [? E']]]; lra.
Qed.

Lemma centre_total_pos (p : Plant) (s : list SoilCell) :
  gridLayout GRID_SIZE s -> centreOnGrid p -> 0 < size p ->
  ~ totalOverlap (scanCells p s GRID_SIZE CELL_SIZE) == 0.
Proof.
  intros Hlay Hc Hsz H0. unfold CELL_SIZE in *.
  pose proof (centre_cell_fraction_pos p s Hlay Hc Hsz) as Hf.
  cbv zeta in Hf.
  pose proof (centre_cell_on_grid p Hc) as Hg.
  set (x0 := Qfloor (v3x (position p) + inject_Z GRID_SIZE * (1 # 2))) in *.
  set (z0 := Qfloor (v3z (position p) + inject_Z GRID_SIZE * (1 # 2))) in *.
  pose proof (gridLayout_position GRID_SIZE x0 z0 s Hlay Hg) as Hpos.
  pose proof (overlapping_cell_elem p GRID_SIZE x0 z0
                (soilAt s (z0 * GRID_SIZE + x0)) Hg Hpos Hf) as Hin.
  assert (Hd : (z0 * GRID_SIZE + x0)%Z ∈ drawnCells p s GRID_SIZE 1)
    by (apply drawnCells_elem; split; assumption).
  apply scan_zero_overlap in H0; [|apply scanCells_ok].
  apply drawn_pair_elem in Hd. rewrite H0 in Hd.
  by apply not_elem_of_nil in Hd.
Qed.

(** ** The growth loop, plant by plant *)

Lemma growLoop_pointwise (Pre Post : Plant -> Prop) (E : Env -> Prop)
    (L : Q -> Prop) (lfs : list Q) :
  (forall p e lf,
     Pre p -> E e -> L lf ->
     Post (grow p e GRID_SIZE CELL_SIZE lf HEIGHT_SCALE).1 /\
     E (grow p e GRID_SIZE CELL_SIZE lf HEIGHT_SCALE).2) ->
  (forall i, L (nth i lfs 0)) ->
  forall todo done e,
    Forall Post done -> Forall Pre todo -> E e ->
    Forall Post
      (fold_left (fun st i => growAt i (nth i lfs 0) st)
                 (seq (length done) (length todo)) (done ++ todo, e)).1 /\
    E (fold_left (fun st i => growAt i (nth i lfs 0) st)
                 (seq (length done) (length todo)) (done ++ todo, e)).2.
Proof.
  intros Hstep HL todo.
  induction todo as [|p todo IH]; intros done e Hdone Htodo He.
  - cbn [length seq fold_left]. rewrite app_nil_r. by split.
  - inversion Htodo as [|? ? Hp Htodo']; subst.
    cbn [length seq fold_left].
    destruct (Hstep p e (nth (length done) lfs 0) Hp He (HL _))
      as [Hpost He'].
    set (r := grow p e GRID_SIZE CELL_SIZE (nth (length done) lfs 0)
                HEIGHT_SCALE) in *.
    assert (Eg : growAt (length done) (nth (length done) lfs 0)
                   (done ++ p :: todo, e)
                 = ((done ++ [r.1]) ++ todo, r.2)).
    { unfold growAt. cbn [fst snd].
      rewrite list_lookup_middle by reflexivity. fold r. f_equal.
      rewrite <- app_assoc. cbn [app].
      replace (length done) with (length done + 0)%nat at 1 by lia.
      by rewrite insert_app_r. }
    rewrite Eg.
    replace (S (length done)) with (length (done ++ [r.1]))
      by (rewrite length_app; cbn [length]; lia).
    apply IH; [|exact Htodo'|exact He'].
    apply Forall_app. split; [exact Hdone|by constructor].
Qed.

Lemma frame_pointwise (Pre Post : Plant -> Prop) (E : Env -> Prop)
    (plants : list Plant) (s : list SoilCell) :
  (forall p e lf,
     Pre p -> E e -> 0 <= lf <= 1 ->
     Post (grow p e GRID_SIZE CELL_SIZE lf HEIGHT_SCALE).1 /\
     E (grow p e GRID_SIZE CELL_SIZE lf HEIGHT_SCALE).2) ->
  Forall Pre plants -> E (mkEnv s ∅ ∅) ->
  Forall Post (frame plants s).1 /\ E (frame plants s).2.
Proof.
  intros Hstep Hpre He. unfold frame, frameInOrder, growInOrder.
  apply (growLoop_pointwise Pre Post E (fun lf => 0 <= lf <= 1)
           (lightFactors plants) Hstep) with (done := []);
    [|constructor|exact Hpre|exact He].
  intros i. unfold lightFactors. rewrite nth_map_lookup.
  destruct (plants !! i); [apply calculateLight_range|lra].
Qed.

(** ** The plants of [main] *)

Lemma mainPlant_centre (r : Z) :
  (0 <= r)%Z ->
  0 <= inject_Z (randMod r GRID_SIZE - GRID_SIZE / 2)
       + inject_Z GRID_SIZE * (1 # 2) < inject_Z GRID_SIZE.
Proof.
  intros Hr. destruct (randMod_range r GRID_SIZE Hr) as [H0 H1];
    [reflexivity|].
  set (m := randMod r GRID_SIZE) in *. unfold GRID_SIZE in *.
  change (40 / 2)%Z with 20%Z.
  assert (H2 : (m <= 39)%Z) by lia.
  rewrite Zle_Qle in H0, H2.
  unfold Z.sub. rewrite inject_Z_plus.
  change (inject_Z (- (20))) with (- (20)).
  change (inject_Z 40) with 40. change (inject_Z 0) with 0 in H0.
  change (inject_Z 39) with 39 in H2. lra.
Qed.

Lemma mainPlant_settled (i rx rz rr rm : Z) :
  (0 <= rx)%Z -> (0 <= rz)%Z -> (0 <= rr)%Z -> (0 <= rm)%Z ->
  settled (mainPlant i rx rz rr rm) /\ mainParams (mainPlant i rx rz rr rm) /\
  id (mainPlant i rx rz rr rm) = i /\
  health (mainPlant i rx rz rr rm) = 1 /\
  200 <= maxAge (mainPlant i rx rz rr rm) <= 299.
Proof.
  intros Hx Hz Hr Hm.
  destruct (randMod_range rr 10 Hr) as [Hr0 Hr1]; [lia|].
  destruct (randMod_range rm 100 Hm) as [Hm0 Hm1]; [lia|].
  assert (Hr2 : (randMod rr 10 <= 9)%Z) by lia.
  assert (Hm2 : (randMod rm 100 <= 99)%Z) by lia.
  rewrite Zle_Qle in Hr0, Hr2, Hm0, Hm2.
  change (inject_Z 0) with 0 in Hr0, Hm0.
  change (inject_Z 9) with 9 in Hr2. change (inject_Z 99) with 99 in Hm2.
  assert (Hrate : 1 # 100 <= (1 # 100) + inject_Z (randMod rr 10) / 2000
                  <= 29 # 2000).
  { set (v := inject_Z (randMod rr 10)) in *.
    assert (E : v / 2000 == v * (1 # 2000)) by field.
    rewrite E. lra. }
  assert (Hage : 200 <= 200 + inject_Z (randMod rm 100) <= 299) by lra.
  split; [|split; [|split; [|split]]].
  - split; [|split].
    + unfold centreOnGrid, mainPlant. cbn [position newPlant v3x v3z].
      split; by apply mainPlant_centre.
    + unfold plant_ok, mainPlant. cbn [health size newPlant]. lra.
    + unfold aliveSpec, mainPlant. cbn [alive health age maxAge newPlant].
      symmetry. apply andb_true_intro. split; apply Qltb_true; lra.
  - unfold mainParams, mainPlant, viable.
    cbn [growthRate photosyntheticEfficiency adsorptionEfficiency age maxAge
         size baseMaintenance maintenancePerSize health newPlant].
    repeat split; lra.
  - reflexivity.
  - reflexivity.
  - unfold mainPlant. cbn [maxAge newPlant]. exact Hage.
Qed.

Lemma initPlants_facts (rnd : Z -> Z) :
  randStream rnd ->
  length (initPlants rnd) = Z.to_nat NUM_PLANTS /\
  (forall i p,
     initPlants rnd !! i = Some p ->
     id p = Z.of_nat i /\ alive p = true /\ health p = 1 /\ age p = 0 /\
     size p = 1 /\ settled p /\ mainParams p /\
     200 <= maxAge p <= 299).
Proof.
  intros Hrnd. unfold initPlants. cbv zeta. split.
  - rewrite length_map, length_seqZ. reflexivity.
  - intros i p Hp.
    change (map ?f ?l) with (f <$> l) in Hp.
    rewrite list_lookup_fmap in Hp.
    destruct (seqZ 0 NUM_PLANTS !! i) as [k|] eqn:Hk; [|discriminate Hp].
    apply lookup_seqZ in Hk. destruct Hk as [-> _].
    cbn in Hp. injection Hp as <-. rewrite Z.add_0_l.
    destruct (mainPlant_settled (Z.of_nat i)
                (rnd (4 * (GRID_SIZE * GRID_SIZE) + 4 * Z.of_nat i)%Z)
                (rnd (4 * (GRID_SIZE * GRID_SIZE) + 4 * Z.of_nat i + 1)%Z)
                (rnd (4 * (GRID_SIZE * GRID_SIZE) + 4 * Z.of_nat i + 2)%Z)
                (rnd (4 * (GRID_SIZE * GRID_SIZE) + 4 * Z.of_nat i + 3)%Z))
      as (H1 & H2 & H3 & H4 & H5); try apply Hrnd.
    split; [exact H3|]. split; [reflexivity|]. split; [exact H4|].
    split; [reflexivity|]. split; [reflexivity|]. split; [exact H1|].
    split; [exact H2|exact H5].
Qed.

Lemma initPlants_position (rnd : Z -> Z) (i : nat) (p : Plant) :
  randStream rnd ->
  initPlants rnd !! i = Some p ->
  exists x z : Z,
    (- 20 <= x <= 19)%Z /\ (- 20 <= z <= 19)%Z /\
    position p = mkVector3 (inject_Z x) (1 # 2) (inject_Z z).
Proof.
  intros Hrnd Hp. unfold initPlants in Hp. cbv zeta in Hp.
  change (map ?f ?l) with (f <$> l) in Hp.
  rewrite list_lookup_fmap in Hp.
  destruct (seqZ 0 NUM_PLANTS !! i) as [k|] eqn:Hk; [|discriminate Hp].
  cbn in Hp. injection Hp as <-.
  set (rx := rnd (4 * (GRID_SIZE * GRID_SIZE) + 4 * k)%Z).
  set (rz := rnd (4 * (GRID_SIZE * GRID_SIZE) + 4 * k + 1)%Z).
  exists (randMod rx GRID_SIZE - GRID_SIZE / 2)%Z,
         (randMod rz GRID_SIZE - GRID_SIZE / 2)%Z.
  assert (Hg : (0 < GRID_SIZE)%Z) by (unfold GRID_SIZE; lia).
  pose proof (randMod_range rx GRID_SIZE (Hrnd _) Hg) as Hx.
  pose proof (randMod_range rz GRID_SIZE (Hrnd _) Hg) as Hz.
  change (GRID_SIZE / 2)%Z with 20%Z.
  split; [unfold GRID_SIZE in Hx |- *; lia|].
  split; [unfold GRID_SIZE in Hz |- *; lia|]. reflexivity.
Qed.

(** X22.  [main] creates 40 plants; plant [i] has id [i], is alive with
    health 1, age 0 and size 1, sits on an integer position whose centre
    is over the grid, with [x] and [z] between -20 and 19 and [y = 0.5],
    and has a growth rate between 0.01 and 0.0145 and a lifespan between
    200 and 299. *)
Theorem initPlants_spec (rnd : Z -> Z) :
  randStream rnd ->
  length (initPlants rnd) = Z.to_nat NUM_PLANTS /\
  (forall i p,
     initPlants rnd !! i = Some p ->
     id p = Z.of_nat i /\ alive p = true /\ health p = 1 /\ age p = 0 /\
     size p = 1 /\ settled p /\ mainParams p /\
     200 <= maxAge p <= 299 /\
     exists x z : Z,
       (- 20 <= x <= 19)%Z /\ (- 20 <= z <= 19)%Z /\
       position p = mkVector3 (inject_Z x) (1 # 2) (inject_Z z)).
Proof.
  intros Hrnd. destruct (initPlants_facts rnd Hrnd) as [Hlen Hall].
  split; [exact Hlen|]. intros i p Hp.
  destruct (Hall i p Hp) as (H1 & H2 & H3 & H4 & H5 & H6 & H7 & H8).
  split; [exact H1|]. split; [exact H2|]. split; [exact H3|].
  split; [exact H4|]. split; [exact H5|]. split; [exact H6|].
  split; [exact H7|]. split; [exact H8|].
  by apply (initPlants_position rnd i).
Qed.

Lemma initPlants_spec_witness :
  randStream sampleRand /\
  length (initPlants sampleRand) = Z.to_nat NUM_PLANTS /\
  forall p,
    initPlants sampleRand !! 0%nat = Some p ->
    exists x z : Z,
      (- 20 <= x <= 19)%Z /\ (- 20 <= z <= 19)%Z /\
      position p = mkVector3 (inject_Z x) (1 # 2) (inject_Z z).
Proof.
  assert (Hr : randStream sampleRand)
    by (intros k; unfold sampleRand; lia).
  split; [exact Hr|].
  destruct (initPlants_spec sampleRand Hr) as [Hlen Hall].
  split; [exact Hlen|].
  intros p Hp.
  destruct (Hall 0%nat p Hp) as (_ & _ & _ & _ & _ & _ & _ & _ & H).
  exact H.
Defined.

(** ** The frame loop of [main] never takes the zero-overlap path *)

Lemma centreOnGrid_same (p q : Plant) :
  sameIdentity p q -> centreOnGrid p -> centreOnGrid q.
Proof.
  intros (_ & Hx & Hz & _) H. unfold centreOnGrid in *.
  by rewrite Hx, Hz.
Qed.

Lemma plant_ok_size_pos (p : Plant) : plant_ok p -> 0 < size p.
Proof. intros [_ H]. lra. Qed.

Lemma grow_settled (p : Plant) (e : Env) (lf : Q) :
  settled p -> gridLayout GRID_SIZE (soil e) ->
  settled (grow p e GRID_SIZE CELL_SIZE lf HEIGHT_SCALE).1 /\
  gridLayout GRID_SIZE
    (soil (grow p e GRID_SIZE CELL_SIZE lf HEIGHT_SCALE).2).
Proof.
  intros (Hc & Hok & Hflag) Hlay.
  destruct (grow_keeps_identity p e GRID_SIZE CELL_SIZE lf HEIGHT_SCALE)
    as (Hsame & _ & Hpos).
  split; [|unfold gridLayout in *; by rewrite Hpos].
  split; [by apply (centreOnGrid_same p)|].
  split; [by apply (proj1 (proj2 plant_ok_kept))|].
  destruct (alive p) eqn:Halive.
  - apply grow_alive_recomputed; [exact Halive|].
    apply centre_total_pos; [exact Hlay|exact Hc|].
    by apply plant_ok_size_pos.
  - rewrite grow_dead by exact Halive. cbn [fst]. congruence.
Qed.

Lemma simulate_settled (n : nat) (plants : list Plant) (s : list SoilCell) :
  gridLayout GRID_SIZE s -> Forall settled plants ->
  Forall settled (simulate n plants s).1 /\
  gridLayout GRID_SIZE (simulate n plants s).2.
Proof.
  revert plants s. induction n as [|n IH]; intros plants s Hlay Hp;
    [by split|].
  cbn [simulate].
  destruct (frame_pointwise settled settled
              (fun e => gridLayout GRID_SIZE (soil e)) plants s)
    as [H1 H2]; [|exact Hp|exact Hlay|by apply IH].
  intros p e lf Hs He _. by apply grow_settled.
Qed.

(** X23.  On a grid laid out as [main] lays it out, plants whose footprint
    centre is over the grid, with size at least 0.2 and a truthful [alive]
    flag, keep all of this through any number of frames: every [grow] call
    on a live plant finds a non-zero total overlap, so the zero-overlap
    return is never taken and after every frame [alive] equals
    [health > 0 && age < maxAge] for every plant. *)
Theorem alive_flag_sound_on_grid (plants : list Plant) (s : list SoilCell) :
  gridLayout GRID_SIZE s -> Forall settled plants ->
  forall n,
    Forall settled (simulate n plants s).1 /\
    Forall (fun p => alive p = aliveSpec p) (simulate n plants s).1 /\
    (forall p e,
       p ∈ (simulate n plants s).1 -> gridLayout GRID_SIZE (soil e) ->
       ~ totalOverlap (scanCells p (soil e) GRID_SIZE CELL_SIZE) == 0).
Proof.
  intros Hlay Hp n.
  destruct (simulate_settled n plants s Hlay Hp) as [H _].
  split; [exact H|]. split.
  - eapply Forall_impl; [exact H|]. by intros p (_ & _ & ?).
  - intros p e Hin He. rewrite Forall_forall in H.
    destruct (H p Hin) as (Hc & Hok & _).
    apply centre_total_pos; [exact He|exact Hc|by apply plant_ok_size_pos].
Qed.

Lemma alive_flag_sound_on_grid_witness :
  gridLayout GRID_SIZE sampleSoil /\
  Forall settled [samplePlant; cornerPlant] /\
  Forall (fun p => alive p = aliveSpec p)
         (simulate 3 [samplePlant; cornerPlant] sampleSoil).1.
Proof.
  assert (Hlay : gridLayout GRID_SIZE sampleSoil)
    by (vm_compute; reflexivity).
  assert (Hp : Forall settled [samplePlant; cornerPlant]).
  { repeat constructor; vm_compute; first [reflexivity | discriminate]. }
  split; [exact Hlay|]. split; [exact Hp|].
  exact (proj1 (proj2 (alive_flag_sound_on_grid [samplePlant; cornerPlant]
                         sampleSoil Hlay Hp 3%nat))).
Defined.



(** ** Every plant of [main] starves *)

Lemma grow_soil_within (p : Plant) (e : Env) (g : Z) (c lf hs hi : Q) :
  0 <= hi -> 0 <= adsorptionEfficiency p ->
  Forall (cell_within 0 hi) (soil e) ->
  Forall (cell_within 0 hi) (soil (grow p e g c lf hs).2).
Proof.
  intros Hhi He Hs.
  assert (Hnn : soil_nonneg (soil e)).
  { eapply Forall_impl; [exact Hs|].
    intros cell ([? _] & [? _] & [? _] & [? _]). by repeat split. }
  pose proof (grow_soil_nonneg p e g c lf hs Hnn) as Hnn'.
  pose proof (grow_soil_le p e g c lf hs Hnn He) as Hle.
  apply Forall_lookup_2. intros i cell Hi.
  assert (Ecell : soilAt (soil (grow p e g c lf hs).2) (Z.of_nat i) = cell).
  { unfold soilAt. rewrite Nat2Z.id, Hi. reflexivity. }
  assert (Hold : cell_within 0 hi (soilAt (soil e) (Z.of_nat i))).
  { apply soilAt_all; [exact Hs|]. repeat split; cbn; lra. }
  specialize (Hle (Z.of_nat i)). rewrite Ecell in Hle.
  assert (Hc : cell_nonneg cell) by (by eapply Forall_lookup_1).
  destruct Hle as (?&?&?&?). destruct Hc as (?&?&?&?).
  destruct Hold as ([_ ?] & [_ ?] & [_ ?] & [_ ?]).
  repeat split; lra.
Qed.

Lemma production_bound (p : Plant) (s : list SoilCell) (g : Z) (c lf : Q) :
  0 <= lf <= 1 -> 0 <= growthRate p -> photosyntheticEfficiency p = 1 ->
  Forall (cell_within 0 1) s ->
  ~ totalOverlap (scanCells p s g c) == 0 ->
  production p (scanCells p s g c) lf <= growthRate p.
Proof.
  intros [Hl0 Hl1] Hr Hpe Hs Hne.
  destruct (growth_factors_bounds p s g c 0 1) as [[Hn0 Hn1] [Hw0 Hw1]];
    [|exact Hne|].
  { intros j _. apply soilAt_all; [exact Hs|]. repeat split; cbn; lra. }
  unfold production. cbv zeta in *. rewrite Hpe.
  set (nf := nutrientSum (scanCells p s g c)
             / totalOverlap (scanCells p s g c)) in *.
  set (wf := waterSum (scanCells p s g c)
             / totalOverlap (scanCells p s g c)) in *.
  assert (H1 : 0 <= lf * nf <= 1) by nra.
  assert (H2 : 0 <= lf * nf * wf <= 1) by nra.
  nra.
Qed.

Lemma mainParams_kept (p : Plant) (e : Env) (g : Z) (c lf hs : Q) :
  mainParams p -> mainParams (grow p e g c lf hs).1.
Proof.
  intros (Hr & Hpe & He & Hv).
  destruct (grow_keeps_identity p e g c lf hs)
    as ((_&_&_&E1&_&E2&_&_&E3) & _).
  unfold mainParams. rewrite E1, E2, E3.
  split; [exact Hr|]. split; [exact Hpe|]. split; [exact He|].
  by apply grow_viable.
Qed.

Lemma grow_starving (n : nat) (p : Plant) (e : Env) (lf : Q) :
  starving n p -> fertile e -> 0 <= lf <= 1 ->
  starving (S n) (grow p e GRID_SIZE CELL_SIZE lf HEIGHT_SCALE).1 /\
  fertile (grow p e GRID_SIZE CELL_SIZE lf HEIGHT_SCALE).2.
Proof.
  intros (Hset & Hpar & Hh) [Hlay Hsoil] Hlf.
  destruct (grow_settled p e lf Hset Hlay) as [Hset' Hlay'].
  pose proof Hpar as (Hr & Hpe & He & Hv).
  split.
  - split; [exact Hset'|]. split; [by apply mainParams_kept|].
    intros Halive'.
    destruct (alive p) eqn:Halive;
      [|rewrite grow_dead in Halive' by exact Halive;
        cbn [fst] in Halive'; congruence].
    destruct Hset as (Hc & Hok & _).
    assert (Hne : ~ totalOverlap (scanCells p (soil e) GRID_SIZE CELL_SIZE)
                    == 0)
      by (apply centre_total_pos;
          [exact Hlay|exact Hc|by apply plant_ok_size_pos]).
    destruct Hset' as (_ & _ & Hflag).
    rewrite Hflag in Halive'. unfold aliveSpec in Halive'.
    apply andb_prop in Halive'. destruct Halive' as [Hpos _].
    apply Qltb_true in Hpos.
    rewrite grow_health_full in * by assumption.
    pose proof (production_bound p (soil e) GRID_SIZE CELL_SIZE lf Hlf) as Hp.
    specialize (Hp ltac:(lra) Hpe Hsoil Hne).
    pose proof (maintenance_lower p Hv) as Hm.
    specialize (Hh eq_refl).
    unfold netEnergy in *.
    set (prod := production p (scanCells p (soil e) GRID_SIZE CELL_SIZE) lf)
      in *.
    set (v := health p + (prod - maintenance p) * (1 # 1000) - (1 # 2000))
      in *.
    assert (Hv' : v <= health p - mainDecay)
      by (unfold v, mainDecay; lra).
    rewrite Nat2Z.inj_succ, <- Z.add_1_r, inject_Z_plus.
    change (inject_Z 1) with 1.
    destruct (clampf_unit_cases v) as [[? E] | [[? E] | [? E]]]; lra.
  - split; [exact Hlay'|].
    apply grow_soil_within; [lra|exact He|exact Hsoil].
Qed.

Lemma simulate_starving (n k : nat) (plants : list Plant)
    (s : list SoilCell) :
  Forall (starving k) plants -> fertile (mkEnv s ∅ ∅) ->
  Forall (starving (k + n)) (simulate n plants s).1.
Proof.
  revert k plants s. induction n as [|n IH]; intros k plants s Hp He.
  - rewrite Nat.add_0_r. exact Hp.
  - cbn [simulate].
    destruct (frame_pointwise (starving k) (starving (S k)) fertile plants s)
      as [H1 H2]; [|exact Hp|exact He|].
    { intros p e lf. apply grow_starving. }
    replace (k + S n)%nat with (S k + n)%nat by lia.
    apply IH; [exact H1|exact H2].
Qed.

(** X24.  Every plant of [main] starves.  Whatever [rand()] returns, the
    production of a plant (at most its growth rate, 0.0145) never covers
    its maintenance (at least 0.2): a live plant loses at least 0.0006855
    of health per frame, its [alive] flag stays truthful, and after 1459
    frames no plant is alive. *)
Theorem main_plants_starve (rnd : Z -> Z) :
  randStream rnd ->
  forall n p,
    p ∈ (mainRun rnd n).1 ->
    alive p = aliveSpec p /\
    (alive p = true ->
     health p <= 1 - inject_Z (Z.of_nat n) * mainDecay) /\
    ((mainLifetime <= n)%nat -> alive p = false).
Proof.
  intros Hrnd n p Hin. unfold mainRun in Hin.
  assert (Hg : (0 <= GRID_SIZE)%Z) by (unfold GRID_SIZE; lia).
  destruct (initSoil_facts GRID_SIZE rnd Hg Hrnd) as (_ & Hlay & _ & Hsoil).
  destruct (initPlants_facts rnd Hrnd) as [_ Hplants].
  assert (H0 : Forall (starving 0) (initPlants rnd)).
  { apply Forall_lookup_2. intros i q Hq.
    destruct (Hplants i q Hq) as (_ & _ & Hh & _ & _ & Hs & Hp & _).
    split; [exact Hs|]. split; [exact Hp|].
    intros _. rewrite Hh. change (inject_Z (Z.of_nat 0)) with 0. lra. }
  assert (He : fertile (mkEnv (initSoil GRID_SIZE rnd) ∅ ∅)).
  { split; [exact Hlay|]. cbn [soil].
    eapply Forall_impl; [exact Hsoil|].
    intros cell ([? ?] & [? ?] & [? ?] & [? ?]). repeat split; lra. }
  pose proof (simulate_starving n 0 _ _ H0 He) as H.
  rewrite Nat.add_0_l in H. rewrite Forall_forall in H.
  destruct (H p Hin) as ((_ & _ & Hflag) & _ & Hh).
  split; [exact Hflag|]. split; [exact Hh|].
  intros Hn. destruct (alive p) eqn:Halive; [|reflexivity].
  exfalso. specialize (Hh eq_refl).
  symmetry in Hflag. unfold aliveSpec in Hflag.
  apply andb_prop in Hflag. destruct Hflag as [Hpos _].
  apply Qltb_true in Hpos.
  assert (Hb : inject_Z (Z.of_nat mainLifetime) <= inject_Z (Z.of_nat n)).
  { rewrite <- Zle_Qle. lia. }
  assert (Hd : 1 - inject_Z (Z.of_nat mainLifetime) * mainDecay < 0)
    by reflexivity.
  assert (Hd0 : 0 < mainDecay) by reflexivity.
  nra.
Qed.

Lemma main_plants_starve_witness :
  randStream sampleRand /\
  forall p,
    p ∈ (mainRun sampleRand mainLifetime).1 -> alive p = false.
Proof.
  assert (Hr : randStream sampleRand)
    by (intros k; unfold sampleRand; lia).
  split; [exact Hr|].
  intros p Hp.
  apply (main_plants_starve sampleRand Hr mainLifetime p Hp).
  apply Nat.le_refl.
Defined.

(** ** The soil log *)

Lemma truncZ_inject (k : Z) : truncZ (inject_Z k) = k.
Proof.
  unfold truncZ. destruct (Qltb (inject_Z k) 0);
    [apply Qceiling_Z|apply Qfloor_Z].
Qed.

(** X25.  The coordinates logged for a cell decode its index: on the grid
    of [main], the row written for index [idx] carries
    [(idx mod gridSize, idx / gridSize)], and encoding these as
    [z * gridSize + x] gives [idx] back; conversely the cell at [(x, z)]
    is logged with the coordinates [(x, z)]. *)
Theorem soilLogCoords_roundtrip (g : Z) (s : list SoilCell) :
  (0 <= g)%Z -> gridLayout g s ->
  (forall idx,
     (0 <= idx < g * g)%Z ->
     soilLogCoords s idx = ((idx mod g)%Z, (idx / g)%Z) /\
     ((soilLogCoords s idx).2 * g + (soilLogCoords s idx).1)%Z = idx) /\
  (forall x z,
     onGrid g x z -> soilLogCoords s (z * g + x) = (x, z)).
Proof.
  intros Hg0 Hlay.
  assert (Hxz : forall x z, onGrid g x z ->
                            soilLogCoords s (z * g + x) = (x, z)).
  { intros x z Hg. unfold soilLogCoords.
    rewrite (gridLayout_position g x z s Hlay Hg). cbn [v2x v2y].
    by rewrite !truncZ_inject. }
  split; [|exact Hxz].
  intros idx Hidx.
  assert (Hg : (0 < g)%Z) by nia.
  assert (Hon : onGrid g (idx mod g) (idx / g)).
  { unfold onGrid. pose proof (Z.mod_pos_bound idx g Hg).
    split; [lia|]. split; [lia|]. split.
    - apply Z.div_pos; lia.
    - apply Z.div_lt_upper_bound; lia. }
  assert (E : idx = (idx / g * g + idx mod g)%Z).
  { rewrite Z.mul_comm. apply Z.div_mod. lia. }
  pose proof (Hxz _ _ Hon) as Hc. rewrite <- E in Hc.
  rewrite Hc. cbn [fst snd]. split; [reflexivity|]. by rewrite <- E.
Qed.

Lemma soilLogCoords_roundtrip_witness :
  gridLayout GRID_SIZE sampleSoil /\
  soilLogCoords sampleSoil (3 * GRID_SIZE + 5) = (5%Z, 3%Z).
Proof.
  assert (Hlay : gridLayout GRID_SIZE sampleSoil)
    by (vm_compute; reflexivity).
  assert (Hg : (0 <= GRID_SIZE)%Z) by (unfold GRID_SIZE; lia).
  split; [exact Hlay|].
  apply (proj2 (soilLogCoords_roundtrip GRID_SIZE sampleSoil Hg Hlay)
           5%Z 3%Z).
  unfold onGrid, GRID_SIZE. lia.
Defined.

(** ** The population is fixed *)

Lemma sameIdentity_refl (p : Plant) : sameIdentity p p.
Proof. by repeat split. Qed.

Lemma sameIdentity_trans (p q r : Plant) :
  sameIdentity p q -> sameIdentity q r -> sameIdentity p r.
Proof.
  unfold sameIdentity.
  intros (?&?&?&?&?&?&?&?&?) (?&?&?&?&?&?&?&?&?).
  repeat split; congruence.
Qed.

Lemma growAt_identity (i : nat) (lf : Q) (st : list Plant * Env)
    (plants : list Plant) (s : list SoilCell) :
  Forall2 sameIdentity plants st.1 /\
  map cell_position (soil st.2) = map cell_position s ->
  Forall2 sameIdentity plants (growAt i lf st).1 /\
  map cell_position (soil (growAt i lf st).2) = map cell_position s.
Proof.
  intros [Hp Hs]. unfold growAt.
  destruct (st.1 !! i) as [p|] eqn:Hi; [|by split].
  cbn [fst snd].
  destruct (grow_keeps_identity p st.2 GRID_SIZE CELL_SIZE lf HEIGHT_SCALE)
    as (Hsame & _ & Hpos).
  split; [|by rewrite Hpos].
  destruct (Forall2_lookup_r _ _ _ _ _ Hp Hi) as (p0 & Hp0 & Hsame0).
  rewrite <- (list_insert_id plants i p0 Hp0).
  apply Forall2_insert; [exact Hp|].
  by apply (sameIdentity_trans p0 p).
Qed.

(** X26.  Plants are never added, removed or moved: after any number of
    frames the collection has the same length and slot [i] still holds a
    plant with the id, X/Z position, growth rate, lifespan and tuning
    constants it started with, dead or alive; the grid keeps its cells
    and their positions. *)
Theorem population_is_fixed (n : nat) (plants : list Plant)
    (s : list SoilCell) :
  length (simulate n plants s).1 = length plants /\
  Forall2 sameIdentity plants (simulate n plants s).1 /\
  length (simulate n plants s).2 = length s /\
  map cell_position (simulate n plants s).2 = map cell_position s.
Proof.
  assert (H : Forall2 sameIdentity plants (simulate n plants s).1 /\
              map cell_position (simulate n plants s).2
              = map cell_position s).
  { assert (G : forall plants0 s0,
              Forall2 sameIdentity plants0 plants /\
              map cell_position s = map cell_position s0 ->
              Forall2 sameIdentity plants0 (simulate n plants s).1 /\
              map cell_position (simulate n plants s).2
              = map cell_position s0).
    { revert plants s. induction n as [|n IH]; intros plants s plants0 s0 H;
        [exact H|].
      cbn [simulate]. apply IH.
      unfold frame, frameInOrder, growInOrder.
      apply (fold_left_invariant
               (fun st => Forall2 sameIdentity plants0 st.1 /\
                          map cell_position (soil st.2)
                          = map cell_position s0)).
      - intros st i. apply growAt_identity.
      - exact H. }
    apply G. split; [|reflexivity].
    apply Forall2_same_length_lookup_2; [reflexivity|].
    intros i x y Hx Hy. assert (x = y) as -> by congruence.
    apply sameIdentity_refl. }
  destruct H as [H1 H2].
  split; [symmetry; by eapply Forall2_length|]. split; [exact H1|].
  split; [|exact H2].
  apply (f_equal length) in H2. by rewrite !length_map in H2.
Qed.

(** ** Colour and statistics *)

(** X27.  The colour of a plant: below an age fraction of 0.6 it is the
    live green; from 0.6 to 1 it is the senescent colour (200, 200, 80)
    whose alpha stays between 0 and 255, so the conversion to
    [unsigned char] stays in range, never increases as the age fraction
    grows, and is 255 at 0.6 and 0 at 1. *)
Theorem ageColor_alpha_range :
  (forall agePerc, agePerc < 3 # 5 -> ageColor agePerc = liveColor) /\
  (forall agePerc,
     3 # 5 <= agePerc <= 1 ->
     cr (ageColor agePerc) = 200%Z /\ cg (ageColor agePerc) = 200%Z /\
     cb (ageColor agePerc) = 80%Z /\
     (0 <= ca (ageColor agePerc) <= 255)%Z) /\
  (forall a b,
     3 # 5 <= a -> a <= b -> b <= 1 ->
     (ca (ageColor b) <= ca (ageColor a))%Z) /\
  ca (ageColor (3 # 5)) = 255%Z /\ ca (ageColor 1) = 0%Z.
Proof.
  assert (Hca : forall agePerc,
            3 # 5 <= agePerc <= 1 ->
            ageColor agePerc
            = mkColor 200 200 80
                (Qfloor (255 * (1 - (agePerc - (3 # 5)) / (2 # 5)))) /\
            0 <= 255 * (1 - (agePerc - (3 # 5)) / (2 # 5)) <= 255).
  { intros agePerc [H1 H2]. unfold ageColor.
    assert (E : Qltb agePerc (3 # 5) = false) by (by apply Qltb_false).
    rewrite E.
    set (v := 255 * (1 - (agePerc - (3 # 5)) / (2 # 5))).
    assert (Ev : v == 255 * (1 - (agePerc - (3 # 5)) * (5 # 2)))
      by (unfold v; field).
    assert (Hv : 0 <= v <= 255) by (rewrite Ev; lra).
    assert (Ht : truncZ v = Qfloor v).
    { unfold truncZ.
      assert (E0 : Qltb v 0 = false) by (apply Qltb_false; lra).
      by rewrite E0. }
    assert (Hf : (0 <= Qfloor v <= 255)%Z).
    { split.
      - apply Qfloor_ge. change (inject_Z 0) with 0. lra.
      - assert (H : (Qfloor v < 256)%Z).
        { apply Qfloor_lt. change (inject_Z 256) with 256. lra. }
        lia. }
    unfold to_uchar. rewrite Ht, Z.mod_small by lia.
    split; [reflexivity|exact Hv]. }
  split; [|split; [|split; [|split; reflexivity]]].
  - intros agePerc H. unfold ageColor. apply Qltb_true in H. by rewrite H.
  - intros agePerc H. destruct (Hca agePerc H) as [-> [Hv0 Hv1]].
    cbn [cr cg cb ca].
    split; [reflexivity|]. split; [reflexivity|]. split; [reflexivity|].
    split.
    + apply Qfloor_ge. change (inject_Z 0) with 0. exact Hv0.
    + assert (Hlt : (Qfloor (255 * (1 - (agePerc - (3 # 5)) / (2 # 5)))
                     < 256)%Z).
      { apply Qfloor_lt. change (inject_Z 256) with 256. lra. }
      lia.
  - intros a b Ha Hab Hb.
    destruct (Hca a) as [-> _]; [split; lra|].
    destruct (Hca b) as [-> _]; [split; lra|].
    cbn [ca]. apply Qfloor_resp_le.
    assert (Ea : 255 * (1 - (a - (3 # 5)) / (2 # 5))
                 == 255 * (1 - (a - (3 # 5)) * (5 # 2))) by field.
    assert (Eb : 255 * (1 - (b - (3 # 5)) / (2 # 5))
                 == 255 * (1 - (b - (3 # 5)) * (5 # 2))) by field.
    rewrite Ea, Eb. lra.
Qed.

Lemma Qsum_fraction_bound (p : Plant) (s : list SoilCell) (g : Z) (c : Q)
    (l : list Z) :
  Qsum (map (cellFraction p s g c) l) <= inject_Z (Z.of_nat (length l)).
Proof.
  induction l as [|idx l IH];
    [change (inject_Z (Z.of_nat (length (@nil Z)))) with 0;
     change (Qsum (map (cellFraction p s g c) [])) with 0; lra|].
  cbn [map Qsum fold_right length].
  rewrite Nat2Z.inj_succ, <- Z.add_1_r, inject_Z_plus.
  change (inject_Z 1) with 1.
  assert (H : cellFraction p s g c idx <= 1).
  { unfold cellFraction, overlapFractionWithCell. cbv zeta.
    apply clampf_range. lra. }
  change (fold_right Qplus 0 (map (cellFraction p s g c) l))
    with (Qsum (map (cellFraction p s g c) l)).
  lra.
Qed.

(** X28.  After a [grow] call that runs to the end, [lastAreaOccupied] is
    the total overlap, the sum of the overlap fractions of the cells drawn
    from; it is positive and at most the number of these cells. *)
Theorem grow_area_occupied (p : Plant) (e : Env) (g : Z) (c lf hs : Q) :
  alive p = true ->
  ~ totalOverlap (scanCells p (soil e) g c) == 0 ->
  lastAreaOccupied (grow p e g c lf hs).1
  == Qsum (map (cellFraction p (soil e) g c) (drawnCells p (soil e) g c)) /\
  0 < lastAreaOccupied (grow p e g c lf hs).1
    <= inject_Z (Z.of_nat (length (drawnCells p (soil e) g c))).
Proof.
  intros Halive Hne.
  assert (E : lastAreaOccupied (grow p e g c lf hs).1
              == totalOverlap (scanCells p (soil e) g c)).
  { rewrite (grow_full_path p e g c lf hs Halive Hne). cbv zeta.
    cbn [lastAreaOccupied fst]. rewrite depletion_area. cbn [u_area].
    destruct (scanCells_ok p (soil e) g c) as [Hsum _]. rewrite Hsum. lra. }
  assert (Es : totalOverlap (scanCells p (soil e) g c)
               == Qsum (map (cellFraction p (soil e) g c)
                            (drawnCells p (soil e) g c))).
  { destruct (scanCells_ok p (soil e) g c) as [Hsum _]. rewrite Hsum.
    rewrite scanCells_overlaps, map_map. cbn [snd]. reflexivity. }
  split; [by rewrite E, Es|]. split.
  - rewrite E. apply scan_total_pos; [apply scanCells_ok|exact Hne].
  - rewrite E, Es. apply Qsum_fraction_bound.
Qed.

Lemma grow_area_occupied_witness :
  alive samplePlant = true /\
  ~ totalOverlap (scanCells samplePlant sampleSoil GRID_SIZE CELL_SIZE) == 0 /\
  0 < lastAreaOccupied
        (grow samplePlant (mkEnv sampleSoil ∅ ∅) GRID_SIZE CELL_SIZE 1
           HEIGHT_SCALE).1
    <= inject_Z (Z.of_nat (length (drawnCells samplePlant sampleSoil
                                      GRID_SIZE CELL_SIZE))).
Proof.
  assert (Hne : ~ totalOverlap
                    (scanCells samplePlant sampleSoil GRID_SIZE CELL_SIZE)
                  == 0)
    by (intros H; vm_compute in H; discriminate H).
  split; [reflexivity|]. split; [exact Hne|].
  destruct (grow_area_occupied samplePlant (mkEnv sampleSoil ∅ ∅) GRID_SIZE
              CELL_SIZE 1 HEIGHT_SCALE eq_refl Hne) as [_ H].
  exact H.
Defined.

Lemma ageColor_alpha_range_witness :
  3 # 5 <= 4 # 5 <= 1 /\ (0 <= ca (ageColor (4 # 5)) <= 255)%Z /\
  (ca (ageColor (9 # 10)) <= ca (ageColor (4 # 5)))%Z.
Proof.
  assert (H : 3 # 5 <= 4 # 5 <= 1) by (split; vm_compute; discriminate).
  assert (H1 : 3 # 5 <= 4 # 5) by (vm_compute; discriminate).
  assert (H2 : 4 # 5 <= 9 # 10) by (vm_compute; discriminate).
  assert (H3 : 9 # 10 <= 1) by (vm_compute; discriminate).
  split; [exact H|]. split.
  - exact (proj2 (proj2 (proj2
             (proj1 (proj2 ageColor_alpha_range) (4 # 5) H)))).
  - exact (proj1 (proj2 (proj2 ageColor_alpha_range))
             (4 # 5) (9 # 10) H1 H2 H3).
Defined.
